(** * ccx: cascading contexts with intent, lineage and scoped control

    A shallow embedding of [ccx.go] (package [ccx]) together with the
    properties of its specification.  Pointers to nodes are addresses in a
    heap, Go maps are references into a store of maps, the process-wide
    registry is a finite map from ids to node addresses, and the standard
    library's [context] package is modelled by a table of derived contexts
    with eager top-down cancellation.  Every method runs as one critical
    section: the model is sequential. *)

From Stdlib Require Import ZArith String Ascii List Lia Bool.
From Stdlib.Strings Require Import Byte.
From stdpp Require Import base option list gmap strings fin_maps.

Local Open Scope string_scope.
Local Open Scope list_scope.
Local Open Scope Z_scope.

(** ** Outcomes of a call: a value, a run-time panic, or fuel exhausted *)

Inductive panic : Type :=
  | NilDereference
  | DanglingPointer
  | CloseOfClosedChannel
  | AssignmentToNilMap.

Inductive result (A : Type) : Type :=
  | Ok (a : A)
  | Panic (p : panic)
  | OutOfFuel.

Arguments Ok {A} a.
Arguments Panic {A} p.
Arguments OutOfFuel {A}.

Definition rbind {A B : Type} (r : result A) (k : A -> result B) : result B :=
  match r with
  | Ok a => k a
  | Panic p => Panic p
  | OutOfFuel => OutOfFuel
  end.

Notation "'let*' x ':=' r 'in' k" := (rbind r (fun x => k))
  (at level 10, x name, r at level 100, k at level 200).
Notation "'let*' ' p ':=' r 'in' k" :=
  (rbind r (fun x => match x with p => k end))
  (at level 10, p pattern, r at level 100, k at level 200).

(** ** The Go values the package handles *)

(** [error]: [nil] or an error value.  [errors.New] allocates, so two
    error values with the same text are told apart by their address. *)
Inductive error_value : Type :=
  | Canceled
  | DeadlineExceeded
  | errorString (addr : nat) (msg : string).

Definition error : Type := option error_value.

(** Values of type [any] that parameters carry. *)
Inductive any : Type :=
  | AnyString (s : string)
  | AnyInt (z : Z)
  | AnyBool (b : bool).

(** [time.Time] as an instant: the offset of the wall clock reading
    from the zero time, which stands for "no deadline".  These are the
    times that carry no monotonic clock reading, as [time.Unix],
    [time.Date] and the zero value give them; on them [After] and
    [Before] compare the wall clock readings.  Times that carry a
    monotonic reading as well, as [time.Now] gives them, are the subject
    of [mtime] below. *)
Module time.
Definition Time : Type := Z.
Definition IsZero (t : Time) : bool := t =? 0.
Definition After (t u : Time) : bool := u <? t.
Definition Before (t u : Time) : bool := t <? u.
End time.

Definition IntentName : Type := string.

(** A Go map is a reference: [None] is the nil map. *)
Definition mapref : Type := option nat.

Record Intent : Type := mkIntent {
  Name : IntentName;
  Params : mapref
}.

Record Constraints : Type := mkConstraints {
  Deadline : time.Time
}.

Definition AdjustFn : Type := gmap string any -> gmap string any.

Definition Scope : Type := Z.
Definition ScopeNode : Scope := 0.
Definition ScopeSubtree : Scope := 1.
Definition ScopeRoot : Scope := 2.

(** ** Deadline clamp *)

Definition clampChild (p c : Constraints) : Constraints :=
  let out := c in
  if negb (time.IsZero (Deadline p))
     && (time.IsZero (Deadline out) || time.After (Deadline out) (Deadline p))
  then mkConstraints (Deadline p)
  else out.

(** ** Deadlines with a monotonic clock reading

    A [time.Time] holds a wall clock reading and, when it stems from
    [time.Now], a monotonic clock reading too.  [IsZero] looks at the
    wall clock reading; [t.After(u)] compares the monotonic readings
    when both times have one, and the wall clock readings otherwise.
    [mtime.clampChild] is the clamp over such times.  [mtime.chain]
    lists the constraints that a chain of derivations stores:
    [WithIntent] stores [clampChild(parent.cons, cons)] in the child,
    and the next derivation clamps against what was stored. *)
Module mtime.
Record Time : Type := mkTime {
  wall : Z;
  mono : option Z
}.

Definition IsZero (t : Time) : bool := wall t =? 0.

Definition After (t u : Time) : bool :=
  match mono t, mono u with
  | Some mt, Some mu => mu <? mt
  | _, _ => wall u <? wall t
  end.


Record Constraints : Type := mkConstraints {
  Deadline : Time
}.

Definition clampChild (p c : Constraints) : Constraints :=
  let out := c in
  if negb (IsZero (Deadline p))
     && (IsZero (Deadline out) || After (Deadline out) (Deadline p))
  then mkConstraints (Deadline p)
  else out.


End mtime.


(** ** The standard library's [context] package

    A context is [context.Background()], [context.TODO()] or a context
    derived by [WithCancel] / [WithDeadline], kept in a table in order of
    creation: a derived context's parent was created before it.  Each
    entry records the parent, the value of [Deadline()], whether the
    context owns a timer, and [Err()] ([nil] until [Done()] is closed). *)

Inductive Context_ : Type :=
  | backgroundCtx
  | todoCtx
  | derivedCtx (i : nat).

Record ctxEntry : Type := mkCtxEntry {
  ce_parent : Context_;
  ce_deadline : option time.Time;
  ce_timer : bool;
  ce_err : error
}.

(** A [context.CancelFunc] is the closure cancelling one table entry. *)
Definition CancelFunc : Type := nat.

Module context.

Definition table : Type := list ctxEntry.

Definition Err (t : table) (c : Context_) : error :=
  match c with
  | derivedCtx i => match t !! i with Some e => ce_err e | None => None end
  | _ => None
  end.

(** [Done()] is closed exactly when [Err()] is non-nil. *)
Definition Done (t : table) (c : Context_) : bool :=
  match Err t c with Some _ => true | None => false end.

Definition Deadline (t : table) (c : Context_) : option time.Time :=
  match c with
  | derivedCtx i => match t !! i with Some e => ce_deadline e | None => None end
  | _ => None
  end.

Definition set_err (e : ctxEntry) (x : error) : ctxEntry :=
  mkCtxEntry (ce_parent e) (ce_deadline e) (ce_timer e) x.

(** Entry [j] takes over its parent's error if the parent is done and
    [j] is not. *)
Definition inherit (t : table) (j : nat) : table :=
  match t !! j with
  | Some e =>
      match ce_err e, Err t (ce_parent e) with
      | None, Some x => <[j := set_err e (Some x)]> t
      | _, _ => t
      end
  | None => t
  end.

(** Cancellation cascades to every descendant; parents come first in
    the table, so one pass in creation order reaches all of them. *)
Definition cascade (t : table) : table :=
  foldl inherit t (seq 0 (length t)).

(** [c.cancel(err)]: the first cancellation wins, then the cascade. *)
Definition cancel (t : table) (i : nat) (x : error_value) : table :=
  match t !! i with
  | Some e =>
      match ce_err e with
      | None => cascade (<[i := set_err e (Some x)]> t)
      | Some _ => t
      end
  | None => t
  end.

(** [context.WithCancel(parent)]: a child that is done as soon as the
    parent is. *)
Definition WithCancel (t : table) (parent : Context_)
  : table * Context_ * CancelFunc :=
  let i := length t in
  (t ++ [mkCtxEntry parent (Deadline t parent) false (Err t parent)],
   derivedCtx i, i).

(** [context.WithDeadline(parent, d)] at clock reading [now]. *)
Definition WithDeadline (t : table) (now : time.Time) (parent : Context_)
    (d : time.Time) : table * Context_ * CancelFunc :=
  let i := length t in
  let t1 := t ++ [mkCtxEntry parent (Some d) true (Err t parent)] in
  let timer :=
    (* the deadline has already passed: cancelled on the spot *)
    (if d <=? now then cancel t1 i DeadlineExceeded else t1,
     derivedCtx i, i) in
  match Deadline t parent with
  | Some cur =>
      (* the current deadline is already sooner than the new one *)
      if time.Before cur d then WithCancel t parent else timer
  | None => timer
  end.

(** The timers that are due at clock reading [now] fire, and the
    cascade follows. *)
Definition expire_entry (now : time.Time) (e : ctxEntry) : ctxEntry :=
  match ce_err e, ce_deadline e with
  | None, Some d =>
      if ce_timer e && (d <=? now) then set_err e (Some DeadlineExceeded)
      else e
  | _, _ => e
  end.

Definition expire (t : table) (now : time.Time) : table :=
  cascade (map (expire_entry now) t).

End context.

(** ** Nodes and the process state *)

(** [doneCh] is only ever closed; closing it twice panics. *)
Inductive chan : Type := ChOpen | ChClosed.

Definition close (ch : chan) : result chan :=
  match ch with
  | ChOpen => Ok ChClosed
  | ChClosed => Panic CloseOfClosedChannel
  end.

Record Ctx : Type := mkCtx {
  ctx_base : Context_;          (* the embedded context.Context *)
  ctx_id : string;
  ctx_parentID : string;
  ctx_intent : Intent;
  ctx_cons : Constraints;
  ctx_state : string;           (* "active"|"done"|"aborted" *)
  ctx_doneCh : chan;
  ctx_err : error;
  ctx_children : list string
}.

(** A [*Ctx]: [None] is nil, [Some l] the address of a node. *)
Definition ptr : Type := option nat.

Record World : Type := mkWorld {
  heap : list Ctx;                       (* the nodes, by address *)
  reg : gmap string nat;                 (* var reg sync.Map: id -> *Ctx *)
  maps : list (gmap string any);         (* the Go maps, by reference *)
  ctxs : context.table;                  (* the derived contexts *)
  clock : time.Time                      (* the wall clock *)
}.

Definition init_world : World := mkWorld [] ∅ [] [] 1.

Definition set_heap (w : World) (h : list Ctx) : World :=
  mkWorld h (reg w) (maps w) (ctxs w) (clock w).
Definition set_reg (w : World) (r : gmap string nat) : World :=
  mkWorld (heap w) r (maps w) (ctxs w) (clock w).
Definition set_maps (w : World) (m : list (gmap string any)) : World :=
  mkWorld (heap w) (reg w) m (ctxs w) (clock w).
Definition set_ctxs (w : World) (t : context.table) : World :=
  mkWorld (heap w) (reg w) (maps w) t (clock w).
Definition set_clock (w : World) (now : time.Time) : World :=
  mkWorld (heap w) (reg w) (maps w) (ctxs w) now.

Definition deref (w : World) (c : ptr) : result Ctx :=
  match c with
  | None => Panic NilDereference
  | Some l =>
      match heap w !! l with
      | Some n => Ok n
      | None => Panic DanglingPointer
      end
  end.

(** Write a whole node back through a pointer known to be valid. *)
Definition store (w : World) (c : ptr) (n : Ctx) : World :=
  match c with
  | Some l => set_heap w (<[l := n]> (heap w))
  | None => w
  end.

(** [make(map[string]any)] or a map literal with the given content. *)
Definition make_map (w : World) (m : gmap string any) : World * nat :=
  (set_maps w (maps w ++ [m]), length (maps w)).

(** Reading [m[k]]: a nil map reads as empty. *)
Definition map_index (w : World) (m : mapref) (k : string) : option any :=
  match m with
  | Some r => match maps w !! r with Some g => g !! k | None => None end
  | None => None
  end.

(** The statement [m[k] = v]. *)
Definition map_assign (w : World) (m : mapref) (k : string) (v : any)
  : result World :=
  match m with
  | Some r =>
      match maps w !! r with
      | Some g => Ok (set_maps w (<[r := <[k := v]> g]> (maps w)))
      | None => Panic DanglingPointer
      end
  | None => Panic AssignmentToNilMap
  end.

(** ** ID helper *)

Module hex.
Definition hextable : string := "0123456789abcdef".

Definition digit (n : nat) : ascii :=
  match String.get n hextable with
  | Some a => a
  | None => "0"%char
  end.

Definition encode_byte (b : byte) : string :=
  let n := Byte.to_nat b in
  String (digit (n / 16)%nat) (String (digit (n mod 16)%nat) EmptyString).

Fixpoint EncodeToString (bs : list byte) : string :=
  match bs with
  | [] => EmptyString
  | b :: r => String.append (encode_byte b) (EncodeToString r)
  end.
End hex.

(** [newID]: [b] is a zeroed 16-byte array that [rand.Read] fills with
    the bytes [rnd] of the system's random source, then printed in
    hexadecimal.  [rand.Read] fills the whole array, so [rnd] has 16
    bytes in every run that goes on ([crypto/rand] ends the process
    when the source fails); on a shorter [rnd] the definition keeps the
    zero bytes the array started with. *)
Definition newID (rnd : list byte) : string :=
  hex.EncodeToString (take 16 (rnd ++ repeat x00 16)).

(** ** Constructors and the lineage registry *)

Definition register (w : World) (l : nat) (n : Ctx) : World :=
  set_reg w (<[ctx_id n := l]> (reg w)).

Definition get (w : World) (i : string) : ptr * bool :=
  match reg w !! i with
  | Some l => (Some l, true)
  | None => (None, false)
  end.

Definition wrap (w : World) (rnd : list byte) (base : Context_)
    (intent : Intent) (cons : Constraints) : World * ptr :=
  let n := mkCtx base (newID rnd) "" intent cons "active" ChOpen None [] in
  let l := length (heap w) in
  (register (set_heap w (heap w ++ [n])) l n, Some l).

Definition Background (w : World) (rnd : list byte) : World * ptr :=
  wrap w rnd backgroundCtx (mkIntent "" None) (mkConstraints 0).

Definition TODO (w : World) (rnd : list byte) : World * ptr :=
  wrap w rnd todoCtx (mkIntent "" None) (mkConstraints 0).

(** ** Accessors *)

Definition ID (w : World) (c : ptr) : result string :=
  let* n := deref w c in Ok (ctx_id n).

Definition ParentID (w : World) (c : ptr) : result string :=
  let* n := deref w c in Ok (ctx_parentID n).

Definition Ctx_Intent (w : World) (c : ptr) : result Intent :=
  let* n := deref w c in Ok (ctx_intent n).

Definition Ctx_Constraints (w : World) (c : ptr) : result Constraints :=
  let* n := deref w c in Ok (ctx_cons n).

Definition State (w : World) (c : ptr) : result string :=
  let* n := deref w c in Ok (ctx_state n).

Definition DoneChan (w : World) (c : ptr) : result chan :=
  let* n := deref w c in Ok (ctx_doneCh n).

Definition ErrState (w : World) (c : ptr) : result error :=
  let* n := deref w c in Ok (ctx_err n).

(** [*Ctx] embeds [context.Context]: [Done] and [Err] are the base's. *)
Definition Done (w : World) (c : ptr) : result bool :=
  let* n := deref w c in Ok (context.Done (ctxs w) (ctx_base n)).

Definition Err (w : World) (c : ptr) : result error :=
  let* n := deref w c in Ok (context.Err (ctxs w) (ctx_base n)).

(** ** Lifecycle *)

Definition set_state (n : Ctx) (s : string) : Ctx :=
  mkCtx (ctx_base n) (ctx_id n) (ctx_parentID n) (ctx_intent n) (ctx_cons n)
        s (ctx_doneCh n) (ctx_err n) (ctx_children n).
Definition set_doneCh (n : Ctx) (ch : chan) : Ctx :=
  mkCtx (ctx_base n) (ctx_id n) (ctx_parentID n) (ctx_intent n) (ctx_cons n)
        (ctx_state n) ch (ctx_err n) (ctx_children n).
Definition set_err (n : Ctx) (e : error) : Ctx :=
  mkCtx (ctx_base n) (ctx_id n) (ctx_parentID n) (ctx_intent n) (ctx_cons n)
        (ctx_state n) (ctx_doneCh n) e (ctx_children n).
Definition set_parentID (n : Ctx) (p : string) : Ctx :=
  mkCtx (ctx_base n) (ctx_id n) p (ctx_intent n) (ctx_cons n)
        (ctx_state n) (ctx_doneCh n) (ctx_err n) (ctx_children n).
Definition set_children (n : Ctx) (ch : list string) : Ctx :=
  mkCtx (ctx_base n) (ctx_id n) (ctx_parentID n) (ctx_intent n) (ctx_cons n)
        (ctx_state n) (ctx_doneCh n) (ctx_err n) ch.
Definition set_intent (n : Ctx) (i : Intent) : Ctx :=
  mkCtx (ctx_base n) (ctx_id n) (ctx_parentID n) i (ctx_cons n)
        (ctx_state n) (ctx_doneCh n) (ctx_err n) (ctx_children n).

Definition Fulfill (w : World) (c : ptr) : result World :=
  let* n := deref w c in
  if String.eqb (ctx_state n) "active" then
    let n1 := set_state n "done" in
    let* ch := close (ctx_doneCh n1) in
    Ok (store w c (set_doneCh n1 ch))
  else Ok w.

Definition Abort (w : World) (c : ptr) (e : error) : result World :=
  let* n := deref w c in
  if String.eqb (ctx_state n) "active" then
    let n1 := set_err (set_state n "aborted") e in
    let* ch := close (ctx_doneCh n1) in
    Ok (store w c (set_doneCh n1 ch))
  else Ok w.

(** ** Lineage *)

Definition Parent (w : World) (c : ptr) : result ptr :=
  let* n := deref w c in
  Ok (fst (get w (ctx_parentID n))).

(** [Root]: the loop [for cur.parentID != "" { cur = cur.Parent() }],
    with a bound on the number of iterations. *)
Fixpoint Root (fuel : nat) (w : World) (cur : ptr) : result ptr :=
  match fuel with
  | O => OutOfFuel
  | S k =>
      let* n := deref w cur in
      if String.eqb (ctx_parentID n) "" then Ok cur
      else
        let* p := Parent w cur in
        Root k w p
  end.

Definition Children (w : World) (c : ptr) : result (list ptr) :=
  let* n := deref w c in
  let ids := ctx_children n in
  Ok (omap (fun i => match get w i with
                     | (ch, true) => Some ch
                     | (_, false) => None
                     end) ids).

(** ** Derivation *)

Definition WithIntent (w : World) (rnd : list byte) (parent : ptr)
    (intent : Intent) (cons : Constraints)
  : result (World * ptr * CancelFunc) :=
  let* p := deref w parent in
  let cons := clampChild (ctx_cons p) cons in
  let '(t, base, cancel) :=
    if time.IsZero (Deadline cons)
    then context.WithCancel (ctxs w) (ctx_base p)
    else context.WithDeadline (ctxs w) (clock w) (ctx_base p) (Deadline cons) in
  let '(w1, child) := wrap (set_ctxs w t) rnd base intent cons in
  let* pid := ID w1 parent in
  let* n := deref w1 child in
  let w2 := store w1 child (set_parentID n pid) in
  let* p2 := deref w2 parent in
  let* cid := ID w2 child in
  let w3 := store w2 parent (set_children p2 (ctx_children p2 ++ [cid])) in
  Ok (w3, child, cancel).

(** Calling the release handle returned by [WithIntent]. *)
Definition call_cancel (w : World) (cancel : CancelFunc) : World :=
  set_ctxs w (context.cancel (ctxs w) cancel Canceled).

(** The clock reaches [now]: the deadlines that are due expire. *)
Definition advance_clock (w : World) (now : time.Time) : World :=
  let now := Z.max (clock w) now in
  set_clock (set_ctxs w (context.expire (ctxs w) now)) now.

(** ** Scoped controls *)

Fixpoint abortRecursive (fuel : nat) (w : World) (c : ptr) (reason : error)
  : result World :=
  match fuel with
  | O => OutOfFuel
  | S k =>
      let* st := State w c in
      let* w1 := (if String.eqb st "active" then Abort w c reason else Ok w) in
      let* chs := Children w1 c in
      foldl (fun acc ch => let* w' := acc in abortRecursive k w' ch reason)
            (Ok w1) chs
  end.

Definition SendCancel (fuel : nat) (w : World) (c : ptr) (scope : Scope)
    (reason : error) : result World :=
  if scope =? ScopeNode then Abort w c reason
  else if scope =? ScopeSubtree then abortRecursive fuel w c reason
  else if scope =? ScopeRoot then
    let* r := Root fuel w c in
    abortRecursive fuel w r reason
  else Ok w.

Definition applyAdjust (w : World) (c : ptr) (fn : AdjustFn) : result World :=
  let* n := deref w c in
  let '(w1, r) :=
    match Params (ctx_intent n) with
    | None =>
        let '(w', r) := make_map w ∅ in
        (store w' c (set_intent n (mkIntent (Name (ctx_intent n)) (Some r))), r)
    | Some r => (w, r)
    end in
  match maps w1 !! r with
  | Some g => Ok (set_maps w1 (<[r := fn g]> (maps w1)))
  | None => Panic DanglingPointer
  end.

Fixpoint adjustRecursive (fuel : nat) (w : World) (c : ptr) (fn : AdjustFn)
  : result World :=
  match fuel with
  | O => OutOfFuel
  | S k =>
      let* w1 := applyAdjust w c fn in
      let* chs := Children w1 c in
      foldl (fun acc ch => let* w' := acc in adjustRecursive k w' ch fn)
            (Ok w1) chs
  end.

Definition SendAdjust (fuel : nat) (w : World) (c : ptr) (scope : Scope)
    (fn : AdjustFn) : result World :=
  if scope =? ScopeNode then applyAdjust w c fn
  else if scope =? ScopeSubtree then adjustRecursive fuel w c fn
  else if scope =? ScopeRoot then
    let* r := Root fuel w c in
    adjustRecursive fuel w r fn
  else Ok w.

(** ** Wait helpers *)

(** What a call that may block does in a given state of the process:
    it returns, or it stays blocked with the nodes still to wait for. *)
Inductive waited : Type :=
  | Returned (e : error)
  | Blocked (rest : list ptr).

(** [WaitAll]: for each node, the [select] between [n.DoneChan()] and
    [ctx.Done()].  When both are ready Go picks one of the two cases;
    [pick] makes that choice ([true]: the node's case) for the position
    in the list. *)
Fixpoint WaitAll (pick : nat -> bool) (w : World) (ctx : Context_)
    (nodes : list ptr) : result waited :=
  match nodes with
  | [] => Ok (Returned None)
  | n :: rest =>
      let* ch := DoneChan w n in
      let node_ready := match ch with ChClosed => true | ChOpen => false end in
      let ctx_ready := context.Done (ctxs w) ctx in
      if node_ready && (negb ctx_ready || pick (length rest)) then
        let* e := ErrState w n in
        match e with
        | Some x => Ok (Returned (Some x))
        | None => WaitAll pick w ctx rest
        end
      else if ctx_ready then Ok (Returned (context.Err (ctxs w) ctx))
      else Ok (Blocked nodes)
  end.

(** ** Policy module adapters *)

Record policyNode : Type := mkPolicyNode { pn_n : ptr }.

Definition policyNode_ID (w : World) (p : policyNode) : result string :=
  ID w (pn_n p).

Definition policyNode_Name (w : World) (p : policyNode) : result string :=
  let* i := Ctx_Intent w (pn_n p) in Ok (Name i).

Definition policyNode_Params (w : World) (p : policyNode) : result mapref :=
  let* i := Ctx_Intent w (pn_n p) in Ok (Params i).

(** The result is a [policy.Node]: nil, or another view. *)
Definition policyNode_Parent (w : World) (p : policyNode)
  : result (option policyNode) :=
  let* par := Parent w (pn_n p) in
  match par with
  | Some l => Ok (Some (mkPolicyNode (Some l)))
  | None => Ok None
  end.

Definition policyNode_Root (fuel : nat) (w : World) (p : policyNode)
  : result policyNode :=
  let* r := Root fuel w (pn_n p) in Ok (mkPolicyNode r).

(** ** Sequences of calls used by the properties *)



(** The two terminal operations, and a sequence of them on one node. *)
Inductive terminal_op : Type :=
  | OpFulfill
  | OpAbort (e : error).

Definition run_op (w : World) (c : ptr) (o : terminal_op) : result World :=
  match o with
  | OpFulfill => Fulfill w c
  | OpAbort e => Abort w c e
  end.

Fixpoint run_ops (w : World) (c : ptr) (os : list terminal_op)
  : result World :=
  match os with
  | [] => Ok w
  | o :: rest => let* w1 := run_op w c o in run_ops w1 c rest
  end.

(** A node's own completion channel agrees with its state, and only an
    aborted node carries an error. *)
Definition node_consistent (n : Ctx) : Prop :=
  (ctx_state n = "active" <-> ctx_doneCh n = ChOpen)
  /\ (ctx_state n ≠ "aborted" -> ctx_err n = None).

Definition consistent (w : World) : Prop :=
  Forall node_consistent (heap w).


(** The node after a first [Fulfill], and after a first [Abort]. *)
Definition fulfilled (n : Ctx) : Ctx :=
  set_doneCh (set_state n "done") ChClosed.

Definition aborted (n : Ctx) (e : error) : Ctx :=
  set_doneCh (set_err (set_state n "aborted") e) ChClosed.

(** A three-level tree root -> A -> B, as the lineage accessors show it. *)
Definition tree3 (w : World) (r a b : nat) : Prop :=
  r ≠ a /\ r ≠ b /\ a ≠ b
  /\ ParentID w (Some r) = Ok ""
  /\ Parent w (Some a) = Ok (Some r)
  /\ Parent w (Some b) = Ok (Some a)
  /\ Children w (Some r) = Ok [Some a]
  /\ Children w (Some a) = Ok [Some b]
  /\ Children w (Some b) = Ok [].

(** The Go expression [c.Intent().Params[k]]. *)
Definition param_at (w : World) (c : ptr) (k : string) : result (option any) :=
  let* i := Ctx_Intent w c in Ok (map_index w (Params i) k).

(** Every map a node refers to exists in the store of maps. *)
Definition mapref_valid (w : World) (m : mapref) : Prop :=
  match m with
  | Some r => (r < length (maps w))%nat
  | None => True
  end.

Definition maps_valid (w : World) : Prop :=
  Forall (fun n => mapref_valid w (Params (ctx_intent n))) (heap w).

(** The calls a client of the package can make, together with the two
    events of the underlying signal that no call of the package makes:
    the release handle being called and a deadline coming due. *)
Inductive call : Type :=
  | CallBackground (rnd : list byte)
  | CallTODO (rnd : list byte)
  | CallWithIntent (rnd : list byte) (parent : ptr) (intent : Intent)
                   (req : Constraints)
  | CallFulfill (c : ptr)
  | CallAbort (c : ptr) (e : error)
  | CallSendCancel (c : ptr) (scope : Scope) (reason : error)
  | CallSendAdjust (c : ptr) (scope : Scope) (fn : AdjustFn)
  | CallMakeMap (g : gmap string any)
  | CallMapAssign (m : mapref) (k : string) (v : any)
  | CallRelease (cancel : CancelFunc)
  | ClockReaches (now : time.Time).

Definition exec (fuel : nat) (w : World) (o : call) : result World :=
  match o with
  | CallBackground rnd => Ok (fst (Background w rnd))
  | CallTODO rnd => Ok (fst (TODO w rnd))
  | CallWithIntent rnd parent intent req =>
      let* '(w', _, _) := WithIntent w rnd parent intent req in Ok w'
  | CallFulfill c => Fulfill w c
  | CallAbort c e => Abort w c e
  | CallSendCancel c scope reason => SendCancel fuel w c scope reason
  | CallSendAdjust c scope fn => SendAdjust fuel w c scope fn
  | CallMakeMap g => Ok (fst (make_map w g))
  | CallMapAssign m k v => map_assign w m k v
  | CallRelease cancel => Ok (call_cancel w cancel)
  | ClockReaches now => Ok (advance_clock w now)
  end.

Fixpoint exec_all (fuel : nat) (w : World) (os : list call) : result World :=
  match os with
  | [] => Ok w
  | o :: rest => let* w1 := exec fuel w o in exec_all fuel w1 rest
  end.

(** ** Example runs *)

Definition world_of {A B : Type} (r : result (World * A * B)) : World :=
  match r with
  | Ok (w, _, _) => w
  | _ => init_world
  end.

(** [root := Background()], [A, cancelA := WithIntent(root, {A}, {})],
    [B, cancelB := WithIntent(A, {B}, {})]: the nodes are at addresses
    0, 1 and 2, and the release handles are those of contexts 0 and 1. *)
Definition ex_root : World := fst (Background init_world [x01]).

Definition ex_A : World :=
  world_of (WithIntent ex_root [x02] (Some 0%nat) (mkIntent "A" None)
                       (mkConstraints 0)).

Definition ex_tree : World :=
  world_of (WithIntent ex_A [x03] (Some 1%nat) (mkIntent "B" None)
                       (mkConstraints 0)).

(** [cancelA()] on that tree. *)
Definition ex_released : World := call_cancel ex_tree 0%nat.

(** A child of the root with the deadline 100, derived at clock reading
    1, and the same state once the clock reads 100. *)
Definition ex_deadline : World :=
  world_of (WithIntent ex_root [x02] (Some 0%nat) (mkIntent "D" None)
                       (mkConstraints 100)).

Definition ex_expired : World := advance_clock ex_deadline 100.

(** A node whose params are the map [{"a": 1}], at address 1; the map is
    the reference 0. *)
Definition ex_params : World :=
  world_of (WithIntent (fst (make_map ex_root {["a" := AnyInt 1]})) [x02]
                       (Some 0%nat) (mkIntent "N" (Some 0%nat))
                       (mkConstraints 0)).

(** The tree with A aborted with [boom] and B fulfilled. *)
Definition boom : error_value := errorString 0 "boom".

Definition ex_finished : World :=
  match Abort ex_tree (Some 1%nat) (Some boom) with
  | Ok w1 => match Fulfill w1 (Some 2%nat) with
             | Ok w2 => w2
             | _ => init_world
             end
  | _ => init_world
  end.

(** The nodes A of [ex_tree] and D of [ex_deadline]. *)
Definition ex_tree_A : Ctx :=
  mkCtx (derivedCtx 0) (newID [x02]) (newID [x01]) (mkIntent "A" None)
        (mkConstraints 0) "active" ChOpen None [newID [x03]].

Definition ex_deadline_D : Ctx :=
  mkCtx (derivedCtx 0) (newID [x02]) (newID [x01]) (mkIntent "D" None)
        (mkConstraints 100) "active" ChOpen None [].

(** ** Checks that decide the invariants on a given state *)

Definition node_consistentb (n : Ctx) : bool :=
  Bool.eqb (String.eqb (ctx_state n) "active")
           (match ctx_doneCh n with ChOpen => true | ChClosed => false end)
  && (String.eqb (ctx_state n) "aborted"
      || match ctx_err n with None => true | Some _ => false end).

Definition consistentb (w : World) : bool :=
  List.forallb node_consistentb (heap w).

Definition mapref_validb (w : World) (m : mapref) : bool :=
  match m with
  | Some r => (r <? length (maps w))%nat
  | None => true
  end.

Definition maps_validb (w : World) : bool :=
  List.forallb (fun n => mapref_validb w (Params (ctx_intent n))) (heap w).

(** ** Reading hexadecimal back (used to show that ids determine the
    random bytes they were printed from) *)

Definition hex_value (a : ascii) : option nat :=
  match String.index 0 (String a EmptyString) hex.hextable with
  | Some n => Some n
  | None => None
  end.

Definition decode_byte (hi lo : ascii) : option byte :=
  match hex_value hi, hex_value lo with
  | Some h, Some l => Byte.of_nat (16 * h + l)
  | _, _ => None
  end.

Fixpoint decode_string (s : string) : option (list byte) :=
  match s with
  | EmptyString => Some []
  | String hi (String lo rest) =>
      match decode_byte hi lo, decode_string rest with
      | Some b, Some bs => Some (b :: bs)
      | _, _ => None
      end
  | String _ EmptyString => None
  end.

(** A full read of sixteen random bytes. *)
Definition ex_rnd : list byte :=
  [x01; x02; x03; x04; x05; x06; x07; x08;
   x09; x0a; x0b; x0c; x0d; x0e; x0f; x10].

(** ** How the process state may evolve *)

(** What a later state keeps of a node: its base context, id, parent id,
    constraints and intent name; its params map once it has one; its
    child list as a prefix; and, once it is no longer active, its state,
    error and completion channel. *)
Definition node_evolves (n n' : Ctx) : Prop :=
  ctx_base n' = ctx_base n
  /\ ctx_id n' = ctx_id n
  /\ ctx_parentID n' = ctx_parentID n
  /\ ctx_cons n' = ctx_cons n
  /\ Name (ctx_intent n') = Name (ctx_intent n)
  /\ (Params (ctx_intent n) ≠ None ->
      Params (ctx_intent n') = Params (ctx_intent n))
  /\ ctx_children n `prefix_of` ctx_children n'
  /\ (ctx_state n ≠ "active" ->
      ctx_state n' = ctx_state n
      /\ ctx_err n' = ctx_err n
      /\ ctx_doneCh n' = ctx_doneCh n).

Definition evolves (w w' : World) : Prop :=
  (forall l n, heap w !! l = Some n ->
     exists n', heap w' !! l = Some n' /\ node_evolves n n')
  /\ (forall i, is_Some (reg w !! i) -> is_Some (reg w' !! i)).

(** Late calls on the finished tree: a root-scope cancel, a [Fulfill] of
    the aborted A, an [Abort] of the fulfilled B, a new child of A, and
    an adjust of the whole tree. *)
Definition ex_late_calls : list call :=
  [CallSendCancel (Some 2%nat) ScopeRoot (Some (errorString 1 "late"));
   CallFulfill (Some 1%nat);
   CallAbort (Some 2%nat) (Some Canceled);
   CallWithIntent [x04] (Some 1%nat) (mkIntent "C" None) (mkConstraints 7);
   CallSendAdjust (Some 3%nat) ScopeRoot (fun p => <["k" := AnyInt 1]> p)].

Definition ex_late : World :=
  match exec_all 4 ex_finished ex_late_calls with
  | Ok w => w
  | _ => init_world
  end.

(** ** Lineage integrity *)

(** The registry and the id links of the nodes fit together: the empty
    id is not registered; every node is registered under its own id and
    every registered id leads to the node that carries it; a node with a
    parent id has its parent registered, at an earlier address, with the
    node among the parent's children; and every child id of a node leads
    to a later node that names the node as its parent. *)
Definition lineage_ok (w : World) : Prop :=
  reg w !! "" = None
  /\ (forall l n, heap w !! l = Some n -> reg w !! ctx_id n = Some l)
  /\ (forall i l, reg w !! i = Some l ->
        exists n, heap w !! l = Some n /\ ctx_id n = i)
  /\ (forall l n, heap w !! l = Some n ->
        ctx_parentID n = ""
        \/ exists lp np,
             reg w !! ctx_parentID n = Some lp /\ (lp < l)%nat
             /\ heap w !! lp = Some np /\ ctx_id n ∈ ctx_children np)
  /\ (forall l n i, heap w !! l = Some n -> i ∈ ctx_children n ->
        exists lc nc,
          reg w !! i = Some lc /\ (l < lc)%nat
          /\ heap w !! lc = Some nc /\ ctx_parentID nc = ctx_id n).

(** Two states with the same registry and the same id links. *)
Definition lineage_eq (w w' : World) : Prop :=
  reg w' = reg w
  /\ length (heap w') = length (heap w)
  /\ (forall l n, heap w !! l = Some n ->
        exists n', heap w' !! l = Some n'
                   /\ ctx_id n' = ctx_id n
                   /\ ctx_parentID n' = ctx_parentID n
                   /\ ctx_children n' = ctx_children n).

(** The call draws an id that is not in use (what the 128 random bits
    are for). *)
Definition fresh_call (w : World) (o : call) : Prop :=
  match o with
  | CallBackground rnd | CallTODO rnd | CallWithIntent rnd _ _ _ =>
      reg w !! newID rnd = None
  | _ => True
  end.

Fixpoint fresh_calls (fuel : nat) (w : World) (os : list call) : Prop :=
  match os with
  | [] => True
  | o :: rest =>
      fresh_call w o
      /\ match exec fuel w o with
         | Ok w1 => fresh_calls fuel w1 rest
         | _ => True
         end
  end.

(** What [Children] does with one child id: the registry's node, or
    nothing when the id does not resolve. *)
Definition resolve (w : World) (i : string) : option ptr :=
  match get w i with
  | (ch, true) => Some ch
  | (_, false) => None
  end.

(** The calls that build [ex_tree] from the initial state. *)
Definition ex_tree_calls : list call :=
  [CallBackground [x01];
   CallWithIntent [x02] (Some 0%nat) (mkIntent "A" None) (mkConstraints 0);
   CallWithIntent [x03] (Some 1%nat) (mkIntent "B" None) (mkConstraints 0)].

(** The node B of [ex_tree]. *)
Definition ex_tree_B : Ctx :=
  mkCtx (derivedCtx 1) (newID [x03]) (newID [x02]) (mkIntent "B" None)
        (mkConstraints 0) "active" ChOpen None [].

(** ** Subtrees *)

(** The addresses the ids of a node's child list resolve to. *)
Definition childaddrs (w : World) (n : Ctx) : list nat :=
  omap (fun i => reg w !! i) (ctx_children n).

(** [l'] is [l] or is reached from it by child links. *)
Inductive descendant (w : World) : nat -> nat -> Prop :=
  | descendant_self (l : nat) : descendant w l l
  | descendant_child (l lc l' : nat) (n : Ctx) :
      heap w !! l = Some n ->
      lc ∈ childaddrs w n ->
      descendant w lc l' ->
      descendant w l l'.

(** The nodes a traversal with the given recursion budget visits, in the
    order it visits them. *)
Fixpoint subtree (fuel : nat) (w : World) (l : nat) : list nat :=
  match fuel with
  | O => []
  | S k =>
      l :: match heap w !! l with
           | Some n => flat_map (subtree k w) (childaddrs w n)
           | None => []
           end
  end.

(** [w'] is [w] with the active nodes among [visited] aborted with
    [reason], and nothing else changed. *)
Definition cancelled_by (visited : list nat) (reason : error)
    (w w' : World) : Prop :=
  w' = set_heap w (heap w')
  /\ length (heap w') = length (heap w)
  /\ (forall l n, heap w !! l = Some n ->
        heap w' !! l
        = Some (if decide (l ∈ visited /\ ctx_state n = "active")
                then aborted n reason else n)).

(** The body of the loop over the children in [abortRecursive]. *)
Definition visit_children (reason : error) (k : nat) (acc : result World)
    (ch : ptr) : result World :=
  let* w' := acc in abortRecursive k w' ch reason.

(** ** The policy enforcer *)

(** The scopes of the policy module: the package reads only its two
    constants [policy.ScopeRoot] and [policy.ScopeSubtree], given here
    as parameters. *)
Definition fromPolScope (polScopeRoot polScopeSubtree : Z) (s : Z) : Scope :=
  if s =? polScopeRoot then ScopeRoot
  else if s =? polScopeSubtree then ScopeSubtree
  else ScopeNode.

Record policyEnforcer : Type := mkPolicyEnforcer { pe_n : ptr }.

Definition policyEnforcer_Adjust (polScopeRoot polScopeSubtree : Z)
    (fuel : nat) (w : World) (e : policyEnforcer) (s : Z) (fn : AdjustFn)
  : result World :=
  SendAdjust fuel w (pe_n e) (fromPolScope polScopeRoot polScopeSubtree s) fn.

Definition policyEnforcer_Cancel (polScopeRoot polScopeSubtree : Z)
    (fuel : nat) (w : World) (e : policyEnforcer) (s : Z) (reason : error)
  : result World :=
  SendCancel fuel w (pe_n e) (fromPolScope polScopeRoot polScopeSubtree s)
             reason.

Definition policyEnforcer_Warn (w : World) (e : policyEnforcer)
    (msg : string) (err : error) : World := w.

(** ** The underlying signals *)

(** What a later table keeps of an entry: everything but a nil error. *)
Definition entry_same (e e' : ctxEntry) : Prop :=
  ce_parent e' = ce_parent e
  /\ ce_deadline e' = ce_deadline e
  /\ ce_timer e' = ce_timer e
  /\ (ce_err e ≠ None -> ce_err e' = ce_err e).

Definition table_grows (t t' : context.table) : Prop :=
  forall i e, t !! i = Some e -> exists e', t' !! i = Some e' /\ entry_same e e'.

(** [Deadline()] as the constraints announce it. *)
Definition announced (c : Constraints) : option time.Time :=
  if time.IsZero (Deadline c) then None else Some (Deadline c).

(** Every node's embedded context has the deadline its constraints
    announce, with a timer of its own when there is one. *)
Definition signals_ok (w : World) : Prop :=
  forall l n, heap w !! l = Some n ->
    match ctx_base n with
    | derivedCtx i =>
        exists e, ctxs w !! i = Some e
                  /\ ce_deadline e = announced (ctx_cons n)
                  /\ (Deadline (ctx_cons n) ≠ 0 -> ce_timer e = true)
    | _ => Deadline (ctx_cons n) = 0
    end.

(** A call that leaves the signals and the set of nodes alone. *)
Definition quiet (w w' : World) : Prop :=
  ctxs w' = ctxs w /\ clock w' = clock w
  /\ length (heap w') = length (heap w)
  /\ (forall l n', heap w' !! l = Some n' ->
        exists n, heap w !! l = Some n
                  /\ ctx_base n' = ctx_base n /\ ctx_cons n' = ctx_cons n).

(** [*Ctx] embeds [context.Context]: [Deadline] is the base's too. *)
Definition Ctx_Deadline (w : World) (c : ptr) : result (option time.Time) :=
  let* n := deref w c in Ok (context.Deadline (ctxs w) (ctx_base n)).

(** The table of signals is in order: a derived context was created
    after its parent, and it is done whenever its parent is. *)
Definition parents_earlier (t : list ctxEntry) : Prop :=
  forall j e p, t !! j = Some e -> ce_parent e = derivedCtx p -> (p < j)%nat.

Definition closed_at (t : list ctxEntry) (j : nat) : Prop :=
  forall e p ep x,
    t !! j = Some e -> ce_parent e = derivedCtx p ->
    t !! p = Some ep -> ce_err ep = Some x -> ce_err e ≠ None.

Definition table_ok (t : list ctxEntry) : Prop :=
  parents_earlier t /\ (forall j, closed_at t j).

(** ** Scoped adjust with the mutator [p[k] = v] *)

(** The body of the loop over the children in [adjustRecursive]. *)
Definition adjust_children (fn : AdjustFn) (k : nat) (acc : result World)
    (ch : ptr) : result World :=
  let* w' := acc in adjustRecursive k w' ch fn.

(** [w'] is [w] after the mutator [p[key] = v] ran on the nodes
    [visited]: only intents changed, a params map once set stays the
    node's map, every map that had [key = v] still has it, and every
    visited node reads [Params[key] == v]. *)
Definition adjusted_by (key : string) (v : any) (visited : list nat)
    (w w' : World) : Prop :=
  reg w' = reg w
  /\ maps_valid w'
  /\ (length (maps w) <= length (maps w'))%nat
  /\ length (heap w') = length (heap w)
  /\ (forall l n, heap w !! l = Some n ->
        exists i', heap w' !! l = Some (set_intent n i')
                   /\ Name i' = Name (ctx_intent n)
                   /\ (Params (ctx_intent n) ≠ None ->
                       Params i' = Params (ctx_intent n)))
  /\ (forall r g, maps w !! r = Some g ->
        exists g', maps w' !! r = Some g'
                   /\ (g !! key = Some v -> g' !! key = Some v))
  /\ (forall l, l ∈ visited -> (l < length (heap w))%nat ->
        param_at w' (Some l) key = Ok (Some v)).




(** The finished tree once [cancelA()] has been called: the context 0,
    which A embeds, has fired. *)
Definition ex_finished_released : World := call_cancel ex_finished 0%nat.

(** A tree whose three nodes hold one and the same params map.
    [root := Background()]; [root.SendAdjust(ScopeNode, func(p) {})]
    gives the root an empty map, the reference 0;
    [m := root.Intent().Params];
    [A, _ := WithIntent(root, Intent{A, m}, Constraints{})];
    [B, _ := WithIntent(A, Intent{B, m}, Constraints{})]. *)
Definition ex_shared_calls : list call :=
  [CallBackground [x01];
   CallSendAdjust (Some 0%nat) ScopeNode (fun p => p);
   CallWithIntent [x02] (Some 0%nat) (mkIntent "A" (Some 0%nat))
                  (mkConstraints 0);
   CallWithIntent [x03] (Some 1%nat) (mkIntent "B" (Some 0%nat))
                  (mkConstraints 0)].

Definition ex_shared : World :=
  match exec_all 1 init_world ex_shared_calls with
  | Ok w => w
  | _ => init_world
  end.

(** [A.SendAdjust(ScopeSubtree, func(p) { p["k"] = "v" })] on it. *)
Definition ex_shared_adjusted : World :=
  match SendAdjust 2 ex_shared (Some 1%nat) ScopeSubtree
                   (fun p => <["k" := AnyString "v"]> p) with
  | Ok w => w
  | _ => init_world
  end.

(** * Properties *)

(** ** The deadline clamp *)

Section Clamp.

Lemma clampChild_deadline (p c : Constraints) :
  Deadline (clampChild p c) =
    if negb (time.IsZero (Deadline p))
       && (time.IsZero (Deadline c) || time.After (Deadline c) (Deadline p))
    then Deadline p else Deadline c.
Proof. unfold clampChild. by destruct (_ && _). Qed.

Lemma clampChild_bounded (p c : Constraints) :
  Deadline p ≠ 0 ->
  Deadline (clampChild p c) ≠ 0 /\ Deadline (clampChild p c) <= Deadline p.
Proof.
  intros Hp. rewrite clampChild_deadline.
  unfold time.IsZero, time.After.
  destruct (Z.eqb_spec (Deadline p) 0) as [|_]; [done|].
  destruct (Z.eqb_spec (Deadline c) 0) as [Hc|Hc]; simpl; [lia|].
  destruct (Z.ltb_spec (Deadline p) (Deadline c)); lia.
Qed.

End Clamp.

(** ** What a derivation does to the process state *)

Section Derivation.

Variables (w : World) (rnd : list byte) (lp : nat) (p : Ctx).
Variables (intent : Intent) (req : Constraints).
Hypothesis Hp : heap w !! lp = Some p.

Lemma lp_lt : (lp < length (heap w))%nat.
Proof. by eapply lookup_lt_Some. Qed.

(** The child is allocated at the next address, starts active with the
    clamped constraints and the parent's id; the parent's child list
    grows by the child's id; the registry gains the child. *)
Lemma WithIntent_shape :
  exists w' base cancel,
    WithIntent w rnd (Some lp) intent req
      = Ok (w', Some (length (heap w)), cancel)
    /\ heap w' =
         <[lp := set_children p (ctx_children p ++ [newID rnd])]> (heap w)
         ++ [mkCtx base (newID rnd) (ctx_id p) intent
                   (clampChild (ctx_cons p) req) "active" ChOpen None []]
    /\ reg w' = <[newID rnd := length (heap w)]> (reg w)
    /\ maps w' = maps w
    /\ clock w' = clock w.
Proof.
  pose proof lp_lt as Hlt.
  unfold WithIntent. simpl. rewrite Hp. simpl.
  set (cc := clampChild (ctx_cons p) req).
  set (r := if time.IsZero (Deadline cc) then _ else _).
  destruct r as [[t base] cancel].
  exists
    (mkWorld
       (<[lp := set_children p (ctx_children p ++ [newID rnd])]> (heap w)
        ++ [mkCtx base (newID rnd) (ctx_id p) intent cc
                  "active" ChOpen None []])
       (<[newID rnd := length (heap w)]> (reg w)) (maps w) t (clock w)),
    base, cancel.
  split; [|done].
  unfold ID, wrap, register, deref, store, set_heap, set_reg, set_ctxs.
  simpl.
  rewrite (lookup_app_l (heap w)) by done. rewrite Hp. simpl.
  rewrite list_lookup_middle by done. simpl.
  rewrite insert_app_r_alt by lia. rewrite Nat.sub_diag. simpl.
  rewrite (lookup_app_l (heap w)) by done. rewrite Hp. simpl.
  rewrite list_lookup_middle by done. simpl.
  by rewrite insert_app_l by done.
Qed.

End Derivation.



(** ** The clamp over times with a monotonic reading *)












(** ** The node state machine *)

Section Lifecycle.

Variables (w : World) (l : nat) (n : Ctx).
Hypothesis Hn : heap w !! l = Some n.

Lemma Fulfill_active :
  ctx_state n = "active" -> ctx_doneCh n = ChOpen ->
  Fulfill w (Some l) = Ok (set_heap w (<[l := fulfilled n]> (heap w))).
Proof.
  intros Hs Hc. unfold Fulfill, deref. rewrite Hn. simpl.
  rewrite Hs. simpl. by rewrite Hc.
Qed.

Lemma Abort_active (e : error) :
  ctx_state n = "active" -> ctx_doneCh n = ChOpen ->
  Abort w (Some l) e = Ok (set_heap w (<[l := aborted n e]> (heap w))).
Proof.
  intros Hs Hc. unfold Abort, deref. rewrite Hn. simpl.
  rewrite Hs. simpl. by rewrite Hc.
Qed.

Lemma run_op_terminal (o : terminal_op) :
  ctx_state n ≠ "active" -> run_op w (Some l) o = Ok w.
Proof.
  intros Hs. apply String.eqb_neq in Hs.
  destruct o; simpl; unfold Fulfill, Abort, deref; rewrite Hn; simpl;
    by rewrite Hs.
Qed.

Lemma run_ops_terminal (os : list terminal_op) :
  ctx_state n ≠ "active" -> run_ops w (Some l) os = Ok w.
Proof.
  intros Hs. induction os as [|o os IH]; [done|].
  simpl. rewrite run_op_terminal by done. exact IH.
Qed.

End Lifecycle.

(** C3.  [Fulfill] and [Abort] are idempotent and the first one wins:
    on a node whose completion channel is open while it is active, every
    sequence of terminal calls runs without a panic, and the state, the
    error and the completion channel after the whole sequence are those
    right after its first call. *)
Theorem terminal_first_wins (w : World) (c : ptr) (n : Ctx)
    (o : terminal_op) (os : list terminal_op) :
  deref w c = Ok n ->
  (ctx_state n = "active" -> ctx_doneCh n = ChOpen) ->
  exists w1 w2,
    run_op w c o = Ok w1
    /\ run_ops w c (o :: os) = Ok w2
    /\ State w2 c = State w1 c
    /\ ErrState w2 c = ErrState w1 c
    /\ DoneChan w2 c = DoneChan w1 c.
Proof.
  intros Hd Hcons.
  destruct c as [l|]; [|done].
  unfold deref in Hd. destruct (heap w !! l) as [n0|] eqn:Hl; [|done].
  injection Hd as ->.
  assert (l < length (heap w))%nat as Hlt by by eapply lookup_lt_Some.
  destruct (decide (ctx_state n = "active")) as [Hs|Hs].
  - specialize (Hcons Hs).
    assert (exists n1, run_op w (Some l) o
                       = Ok (set_heap w (<[l := n1]> (heap w)))
                       /\ ctx_state n1 ≠ "active") as (n1 & Hrun & Hs1).
    { destruct o as [|e]; simpl.
      - exists (fulfilled n). by rewrite (Fulfill_active w l n Hl Hs Hcons).
      - exists (aborted n e). by rewrite (Abort_active w l n Hl e Hs Hcons). }
    exists (set_heap w (<[l := n1]> (heap w))),
           (set_heap w (<[l := n1]> (heap w))).
    split; [done|]. split; [|done].
    simpl. rewrite Hrun. simpl.
    apply run_ops_terminal with (n := n1); [|done].
    simpl. by apply list_lookup_insert_eq.
  - exists w, w. split; [by apply run_op_terminal with (n := n)|].
    split; [|done].
    simpl. rewrite (run_op_terminal w l n Hl o Hs). simpl.
    by apply run_ops_terminal with (n := n).
Qed.

(** ** Derivation from a nil parent *)

(** C8.  [WithIntent] with a nil parent fails at once, on the read of
    [parent.cons]: it panics with a nil dereference, for every intent,
    constraints and process state, and so returns no node. *)
Theorem WithIntent_nil_parent (w : World) (rnd : list byte)
    (intent : Intent) (req : Constraints) :
  WithIntent w rnd None intent req = Panic NilDereference.
Proof. reflexivity. Qed.

(** ** Scopes outside the enumeration *)

(** C10.  A scope that is none of [ScopeNode], [ScopeSubtree] and
    [ScopeRoot] matches no case of the [switch]: [SendCancel] and
    [SendAdjust] return with the whole process state unchanged, whatever
    the receiver. *)
Theorem unknown_scope_noop (fuel : nat) (w : World) (c : ptr)
    (scope : Scope) (reason : error) (fn : AdjustFn) :
  scope ≠ ScopeNode -> scope ≠ ScopeSubtree -> scope ≠ ScopeRoot ->
  SendCancel fuel w c scope reason = Ok w
  /\ SendAdjust fuel w c scope fn = Ok w.
Proof.
  intros H0 H1 H2. unfold SendCancel, SendAdjust.
  apply Z.eqb_neq in H0, H1, H2. by rewrite H0, H1, H2.
Qed.

(** ** Scoped cancel on a three-level tree *)

Section Frames.

Variables (w : World) (l : nat) (n m : Ctx).
Hypothesis Hn : heap w !! l = Some n.

(** Rewriting one node without touching its child list leaves every
    node's [Children()] as it was. *)
Lemma Children_update (c : ptr) :
  ctx_children m = ctx_children n ->
  Children (set_heap w (<[l := m]> (heap w))) c = Children w c.
Proof.
  intros Hch. destruct c as [lc|]; [|done].
  unfold Children, deref. simpl.
  destruct (decide (l = lc)) as [<-|Hne].
  - rewrite list_lookup_insert_eq by by eapply lookup_lt_Some.
    rewrite Hn. simpl. by rewrite Hch.
  - by rewrite list_lookup_insert_ne.
Qed.

Lemma deref_update_ne (l' : nat) :
  l ≠ l' ->
  deref (set_heap w (<[l := m]> (heap w))) (Some l') = deref w (Some l').
Proof. intros Hne. unfold deref. simpl. by rewrite list_lookup_insert_ne. Qed.

Lemma deref_update_eq :
  deref (set_heap w (<[l := m]> (heap w))) (Some l) = Ok m.
Proof.
  unfold deref. simpl.
  by rewrite list_lookup_insert_eq by by eapply lookup_lt_Some.
Qed.

End Frames.

Lemma State_inv (w : World) (l : nat) (s : string) :
  State w (Some l) = Ok s ->
  exists n, heap w !! l = Some n /\ ctx_state n = s.
Proof.
  unfold State, deref. destruct (heap w !! l) as [n|]; [|done].
  simpl. intros [= <-]. eauto.
Qed.

Lemma consistent_open (w : World) (l : nat) (n : Ctx) :
  consistent w -> heap w !! l = Some n -> ctx_state n = "active" ->
  ctx_doneCh n = ChOpen.
Proof.
  intros Hc Hl Hs. unfold consistent in Hc.
  rewrite Forall_lookup in Hc. by apply (Hc l n Hl).
Qed.

Lemma consistent_no_error (n : Ctx) :
  node_consistent n -> ctx_state n = "active" -> ctx_err n = None.
Proof. intros [_ He] Hs. apply He. by rewrite Hs. Qed.

Section AbortSteps.

Variables (k : nat) (w w1 : World) (c : ptr) (reason : error).
Hypothesis Hstate : State w c = Ok "active".
Hypothesis Habort : Abort w c reason = Ok w1.

Lemma abortRecursive_leaf :
  Children w1 c = Ok [] -> abortRecursive (S k) w c reason = Ok w1.
Proof.
  intros Hch. simpl. rewrite Hstate. simpl. rewrite Habort. simpl.
  by rewrite Hch.
Qed.

Lemma abortRecursive_one (ch : ptr) :
  Children w1 c = Ok [ch] ->
  abortRecursive (S k) w c reason = abortRecursive k w1 ch reason.
Proof.
  intros Hch. simpl. rewrite Hstate. simpl. rewrite Habort. simpl.
  by rewrite Hch.
Qed.

End AbortSteps.

Lemma SendCancel_subtree (fuel : nat) (w : World) (c : ptr) (reason : error) :
  SendCancel fuel w c ScopeSubtree reason = abortRecursive fuel w c reason.
Proof. reflexivity. Qed.

(** C4.  On a three-level tree root -> A -> B whose nodes are all active,
    [A.SendCancel(ScopeSubtree, err)] returns (two levels of recursion
    suffice), leaves the root active, and leaves A and B aborted with
    the error [err] and their completion channels closed. *)
Theorem SendCancel_subtree_tree3 (fuel : nat) (w : World) (r a b : nat)
    (reason : error) :
  consistent w ->
  tree3 w r a b ->
  State w (Some r) = Ok "active" ->
  State w (Some a) = Ok "active" ->
  State w (Some b) = Ok "active" ->
  (2 <= fuel)%nat ->
  exists w',
    SendCancel fuel w (Some a) ScopeSubtree reason = Ok w'
    /\ State w' (Some r) = Ok "active"
    /\ State w' (Some a) = Ok "aborted"
    /\ ErrState w' (Some a) = Ok reason
    /\ DoneChan w' (Some a) = Ok ChClosed
    /\ State w' (Some b) = Ok "aborted"
    /\ ErrState w' (Some b) = Ok reason
    /\ DoneChan w' (Some b) = Ok ChClosed.
Proof.
  intros Hcons (Hra & Hrb & Hab & _ & _ & _ & _ & Hca & Hcb) Hsr Hsa Hsb Hfuel.
  destruct (State_inv _ _ _ Hsa) as (na & Hna & Hna_s).
  destruct (State_inv _ _ _ Hsb) as (nb & Hnb & Hnb_s).
  pose proof (consistent_open _ _ _ Hcons Hna Hna_s) as Hna_c.
  pose proof (consistent_open _ _ _ Hcons Hnb Hnb_s) as Hnb_c.
  destruct fuel as [|[|k]]; [lia|lia|].
  set (w1 := set_heap w (<[a := aborted na reason]> (heap w))).
  set (w2 := set_heap w1 (<[b := aborted nb reason]> (heap w1))).
  assert (heap w1 !! b = Some nb) as Hnb1.
  { simpl. by rewrite list_lookup_insert_ne. }
  assert (Abort w (Some a) reason = Ok w1) as Ha1
    by by apply Abort_active.
  assert (Abort w1 (Some b) reason = Ok w2) as Ha2
    by by apply Abort_active.
  assert (Children w1 (Some a) = Ok [Some b]) as Hca1.
  { unfold w1. by rewrite (Children_update w a na). }
  assert (Children w2 (Some b) = Ok []) as Hcb2.
  { unfold w2. rewrite (Children_update w1 b nb) by done.
    unfold w1. by rewrite (Children_update w a na). }
  assert (State w1 (Some b) = Ok "active") as Hsb1.
  { unfold State, w1. by rewrite deref_update_ne. }
  exists w2. split.
  { rewrite SendCancel_subtree.
    rewrite (abortRecursive_one (S k) w w1 (Some a) reason Hsa Ha1 (Some b) Hca1).
    by apply abortRecursive_leaf with (w1 := w2). }
  assert (deref w2 (Some a) = Ok (aborted na reason)) as Hda.
  { unfold w2. rewrite deref_update_ne by done.
    unfold w1. by apply deref_update_eq with (n := na). }
  assert (deref w2 (Some b) = Ok (aborted nb reason)) as Hdb.
  { unfold w2. by apply deref_update_eq with (n := nb). }
  assert (deref w2 (Some r) = deref w (Some r)) as Hdr.
  { unfold w2. rewrite deref_update_ne by done.
    unfold w1. by rewrite deref_update_ne. }
  unfold State, ErrState, DoneChan in *.
  rewrite Hda, Hdb, Hdr. by repeat split.
Qed.

(** ** Scoped adjust on a three-level tree *)

Lemma Ctx_Intent_inv (w : World) (l : nat) (i : Intent) :
  Ctx_Intent w (Some l) = Ok i ->
  exists n, heap w !! l = Some n /\ ctx_intent n = i.
Proof.
  unfold Ctx_Intent, deref. destruct (heap w !! l) as [n|]; [|done].
  simpl. intros [= <-]. eauto.
Qed.

Lemma Children_frame (w w' : World) (l : nat) (n m : Ctx) (c : ptr) :
  heap w !! l = Some n ->
  heap w' = <[l := m]> (heap w) ->
  reg w' = reg w ->
  ctx_children m = ctx_children n ->
  Children w' c = Children w c.
Proof.
  intros Hn Hh Hr Hch.
  rewrite <- (Children_update w l n m Hn c Hch).
  unfold Children, deref, get. simpl. by rewrite Hh, Hr.
Qed.

Section Adjust.

Variables (w : World) (l : nat) (n : Ctx) (fn : AdjustFn).
Hypothesis Hn : heap w !! l = Some n.
Hypothesis Hvalid : mapref_valid w (Params (ctx_intent n)).

(** [applyAdjust] rewrites the map the node refers to, after giving the
    node a fresh empty map when it had none; the other maps, the other
    nodes and the registry stay as they were. *)
Lemma applyAdjust_shape :
  exists w1 ra g,
    applyAdjust w (Some l) fn = Ok w1
    /\ heap w1
       = <[l := set_intent n (mkIntent (Name (ctx_intent n)) (Some ra))]> (heap w)
    /\ reg w1 = reg w
    /\ (Params (ctx_intent n) = Some ra
        \/ (Params (ctx_intent n) = None /\ ra = length (maps w)))
    /\ (ra < length (maps w1))%nat
    /\ (length (maps w) <= length (maps w1))%nat
    /\ maps w1 !! ra = Some (fn g)
    /\ (forall r', r' ≠ ra -> (r' < length (maps w))%nat ->
                   maps w1 !! r' = maps w !! r').
Proof.
  unfold applyAdjust, deref. rewrite Hn. simpl.
  destruct n as [base i pid [nm [ra|]] cs st ch e chs]; simpl in *.
  - destruct (lookup_lt_is_Some_2 _ _ Hvalid) as [g Hg].
    rewrite Hg.
    exists (set_maps w (<[ra := fn g]> (maps w))), ra, g.
    simpl. rewrite length_insert.
    repeat split; try done; try lia.
    + by rewrite list_insert_id.
    + by left.
    + by apply list_lookup_insert_eq.
    + intros r' Hne _. by rewrite list_lookup_insert_ne.
  - rewrite list_lookup_middle by done.
    eexists _, (length (maps w)), ∅. split; [reflexivity|].
    simpl. rewrite length_insert, length_app. simpl.
    repeat split; try done; try lia.
    + by right.
    + apply list_lookup_insert_eq. rewrite length_app. simpl. lia.
    + intros r' Hne Hlt.
      rewrite list_lookup_insert_ne by done. by rewrite lookup_app_l.
Qed.

End Adjust.

Section AdjustSteps.

Variables (k : nat) (w w1 : World) (c : ptr) (fn : AdjustFn).
Hypothesis Happly : applyAdjust w c fn = Ok w1.

Lemma adjustRecursive_leaf :
  Children w1 c = Ok [] -> adjustRecursive (S k) w c fn = Ok w1.
Proof. intros Hch. simpl. rewrite Happly. simpl. by rewrite Hch. Qed.

Lemma adjustRecursive_one (ch : ptr) :
  Children w1 c = Ok [ch] ->
  adjustRecursive (S k) w c fn = adjustRecursive k w1 ch fn.
Proof. intros Hch. simpl. rewrite Happly. simpl. by rewrite Hch. Qed.

End AdjustSteps.

Lemma SendAdjust_subtree (fuel : nat) (w : World) (c : ptr) (fn : AdjustFn) :
  SendAdjust fuel w c ScopeSubtree fn = adjustRecursive fuel w c fn.
Proof. reflexivity. Qed.

Lemma maps_valid_lookup (w : World) (l : nat) (n : Ctx) :
  maps_valid w -> heap w !! l = Some n ->
  mapref_valid w (Params (ctx_intent n)).
Proof.
  intros Hv Hl. unfold maps_valid in Hv. rewrite Forall_lookup in Hv.
  by apply (Hv l n).
Qed.

(** C6, amended.  On a three-level tree root -> A -> B where the
    root's params are not the very map object of A or of B,
    [A.SendAdjust(ScopeSubtree, func(p) { p[k] = v })] returns (two
    levels of recursion suffice); afterwards A and B both read
    [Params[k] == v], a node that had no params map having been given
    one, and the root's intent and every entry of its params are as
    before.  This holds whatever A's and B's params held before, so in
    particular when both start empty. *)
Theorem SendAdjust_subtree_tree3 (fuel : nat) (w : World) (r a b : nat)
    (ir ia ib : Intent) (k : string) (v : any) :
  maps_valid w ->
  tree3 w r a b ->
  Ctx_Intent w (Some r) = Ok ir ->
  Ctx_Intent w (Some a) = Ok ia ->
  Ctx_Intent w (Some b) = Ok ib ->
  (Params ir = None \/ (Params ir ≠ Params ia /\ Params ir ≠ Params ib)) ->
  (2 <= fuel)%nat ->
  exists w',
    SendAdjust fuel w (Some a) ScopeSubtree (fun p => <[k := v]> p) = Ok w'
    /\ param_at w' (Some a) k = Ok (Some v)
    /\ param_at w' (Some b) k = Ok (Some v)
    /\ Ctx_Intent w' (Some r) = Ok ir
    /\ (forall k', param_at w' (Some r) k' = param_at w (Some r) k').
Proof.
  intros Hv (Hra & Hrb & Hab & _ & _ & _ & _ & Hca & Hcb) Hir Hia Hib
         Halias Hfuel.
  destruct (Ctx_Intent_inv _ _ _ Hir) as (nr & Hnr & Enr).
  destruct (Ctx_Intent_inv _ _ _ Hia) as (na & Hna & Ena).
  destruct (Ctx_Intent_inv _ _ _ Hib) as (nb & Hnb & Enb).
  pose proof (maps_valid_lookup _ _ _ Hv Hnr) as Vr.
  pose proof (maps_valid_lookup _ _ _ Hv Hna) as Va.
  pose proof (maps_valid_lookup _ _ _ Hv Hnb) as Vb.
  set (fn := fun p : gmap string any => <[k := v]> p).
  destruct (applyAdjust_shape w a na fn Hna Va)
    as (w1 & ra & ga & Hrun1 & Hh1 & Hr1 & Hra1 & Hlt1 & Hle1 & Hm1 & Hfr1).
  assert (heap w1 !! b = Some nb) as Hnb1.
  { rewrite Hh1. by rewrite list_lookup_insert_ne. }
  assert (mapref_valid w1 (Params (ctx_intent nb))) as Vb1.
  { unfold mapref_valid in *. destruct (Params (ctx_intent nb)); [lia|done]. }
  destruct (applyAdjust_shape w1 b nb fn Hnb1 Vb1)
    as (w2 & rb & gb & Hrun2 & Hh2 & Hr2 & Hrb2 & Hlt2 & Hle2 & Hm2 & Hfr2).
  assert (Children w1 (Some a) = Ok [Some b]) as Hca1.
  { by rewrite (Children_frame w w1 a na _ (Some a) Hna Hh1 Hr1). }
  assert (Children w2 (Some b) = Ok []) as Hcb2.
  { rewrite (Children_frame w1 w2 b nb _ (Some b) Hnb1 Hh2 Hr2) by done.
    by rewrite (Children_frame w w1 a na _ (Some b) Hna Hh1 Hr1). }
  destruct fuel as [|[|f]]; [lia|lia|].
  exists w2. split.
  { rewrite SendAdjust_subtree.
    rewrite (adjustRecursive_one (S f) w w1 (Some a) fn Hrun1 (Some b) Hca1).
    by apply adjustRecursive_leaf with (w1 := w2). }
  assert (a < length (heap w))%nat as Hla by by eapply lookup_lt_Some.
  assert (b < length (heap w1))%nat as Hlb by by eapply lookup_lt_Some.
  assert (forall g : gmap string any, fn g !! k = Some v) as Hfn.
  { intros g. unfold fn. by rewrite lookup_insert_eq. }
  unfold param_at, Ctx_Intent, deref.
  split; [|split; [|split]].
  - rewrite Hh2, list_lookup_insert_ne by done.
    rewrite Hh1, list_lookup_insert_eq by done. simpl.
    destruct (decide (ra = rb)) as [->|Hne].
    + by rewrite Hm2, Hfn.
    + by rewrite (Hfr2 ra Hne Hlt1), Hm1, Hfn.
  - rewrite Hh2, list_lookup_insert_eq by done. simpl.
    by rewrite Hm2, Hfn.
  - rewrite Hh2, list_lookup_insert_ne by done.
    rewrite Hh1, list_lookup_insert_ne by done.
    rewrite Hnr. simpl. by rewrite Enr.
  - intros k'.
    rewrite Hh2, list_lookup_insert_ne by done.
    rewrite Hh1, list_lookup_insert_ne by done.
    rewrite Hnr. simpl. rewrite Enr.
    destruct (Params ir) as [rr|] eqn:Hpr; [|done].
    simpl. rewrite Enr in Vr. rewrite Hpr in Vr. simpl in Vr.
    destruct Halias as [?|[Hna_alias Hnb_alias]]; [done|].
    assert (rr ≠ ra) as Hrra.
    { destruct Hra1 as [E|[_ ->]]; [|lia].
      intros ->. apply Hna_alias. by rewrite <- Ena, E. }
    assert (rr ≠ rb) as Hrrb.
    { destruct Hrb2 as [E|[_ ->]]; [|lia].
      intros ->. apply Hnb_alias. by rewrite <- Enb, E. }
    rewrite (Hfr2 rr Hrrb) by lia. by rewrite (Hfr1 rr Hrra).
Qed.

(** ** WaitAll *)

Section Waiting.

Variables (pick : nat -> bool) (w : World) (ctx : Context_).
Hypothesis Hctx : context.Done (ctxs w) ctx = false.

Lemma WaitAll_skip (c : ptr) (rest : list ptr) :
  DoneChan w c = Ok ChClosed -> ErrState w c = Ok None ->
  WaitAll pick w ctx (c :: rest) = WaitAll pick w ctx rest.
Proof. intros Hd He. simpl. rewrite Hd. simpl. by rewrite Hctx, He. Qed.

Lemma WaitAll_error (c : ptr) (rest : list ptr) (x : error_value) :
  DoneChan w c = Ok ChClosed -> ErrState w c = Ok (Some x) ->
  WaitAll pick w ctx (c :: rest) = Ok (Returned (Some x)).
Proof. intros Hd He. simpl. rewrite Hd. simpl. by rewrite Hctx, He. Qed.

Lemma WaitAll_blocks (c : ptr) (rest : list ptr) :
  DoneChan w c = Ok ChOpen ->
  WaitAll pick w ctx (c :: rest) = Ok (Blocked (c :: rest)).
Proof. intros Hd. simpl. rewrite Hd. simpl. by rewrite Hctx. Qed.

Lemma WaitAll_prefix (pre rest : list ptr) :
  Forall (fun c => DoneChan w c = Ok ChClosed /\ ErrState w c = Ok None) pre ->
  WaitAll pick w ctx (pre ++ rest) = WaitAll pick w ctx rest.
Proof.
  induction 1 as [|c pre [Hd He] _ IH]; [done|].
  rewrite <- app_comm_cons. by rewrite WaitAll_skip.
Qed.

End Waiting.


(** Once the caller's own signal has fired as well, the [select] may take
    either case: on the finished tree with context 0 cancelled and passed
    as the caller's signal, [WaitAll] over the fulfilled node B returns
    nil when the node's case is taken and [context.Canceled] otherwise,
    and [WaitAll] over the aborted node A returns the node's error or
    [context.Canceled]. *)
Example WaitAll_caller_fired :
  WaitAll (fun _ => true) (call_cancel ex_finished 0%nat) (derivedCtx 0)
          [Some 2%nat] = Ok (Returned None)
  /\ WaitAll (fun _ => false) (call_cancel ex_finished 0%nat) (derivedCtx 0)
             [Some 2%nat] = Ok (Returned (Some Canceled))
  /\ WaitAll (fun _ => true) ex_finished_released (derivedCtx 0)
             [Some 1%nat] = Ok (Returned (Some boom))
  /\ WaitAll (fun _ => false) ex_finished_released (derivedCtx 0)
             [Some 1%nat] = Ok (Returned (Some Canceled)).
Proof. repeat split; vm_compute; reflexivity. Qed.

(** C5, as stated for every caller signal, fails.  On the finished
    tree A has completed with the error [boom]; [cancelA()] has then
    fired the context A embeds, and that context is passed as the
    caller's signal.  Both cases of the [select] are ready, and when the
    caller's case is taken [WaitAll] over A returns [context.Canceled],
    not the node's error. *)
Lemma WaitAll_error_replaced :
  ~ (forall (pick : nat -> bool) (w : World) (ctx : Context_)
            (pre post : list ptr) (n : ptr) (x : error_value),
       Forall (fun c => DoneChan w c = Ok ChClosed /\ ErrState w c = Ok None)
              pre ->
       DoneChan w n = Ok ChClosed ->
       ErrState w n = Ok (Some x) ->
       WaitAll pick w ctx (pre ++ n :: post) = Ok (Returned (Some x))).
Proof.
  intros H.
  specialize (H (fun _ => false) ex_finished_released (derivedCtx 0)
                [] [] (Some 1%nat) boom (Forall_nil_2 _)).
  assert (DoneChan ex_finished_released (Some 1%nat) = Ok ChClosed) as Hd
    by (vm_compute; reflexivity).
  assert (ErrState ex_finished_released (Some 1%nat) = Ok (Some boom)) as He
    by (vm_compute; reflexivity).
  specialize (H Hd He).
  vm_compute in H. discriminate H.
Qed.

(** C5, amended.  While the caller's own signal has not fired,
    [WaitAll] goes through the nodes in list order: past a prefix of nodes that have
    completed without an error, it returns the error of a node that
    completed with one, exactly as stored and whatever the later nodes
    are doing; it blocks on a node that has not completed; and it
    returns nil when every node has completed without an error. *)
Theorem WaitAll_in_order (pick : nat -> bool) (w : World) (ctx : Context_)
    (pre post : list ptr) :
  context.Done (ctxs w) ctx = false ->
  Forall (fun c => DoneChan w c = Ok ChClosed /\ ErrState w c = Ok None) pre ->
  (forall n x,
      DoneChan w n = Ok ChClosed -> ErrState w n = Ok (Some x) ->
      WaitAll pick w ctx (pre ++ n :: post) = Ok (Returned (Some x)))
  /\ (forall n,
        DoneChan w n = Ok ChOpen ->
        WaitAll pick w ctx (pre ++ n :: post) = Ok (Blocked (n :: post)))
  /\ WaitAll pick w ctx pre = Ok (Returned None).
Proof.
  intros Hctx Hpre. repeat split.
  - intros n x Hd He. rewrite WaitAll_prefix by done.
    by apply WaitAll_error.
  - intros n Hd. rewrite WaitAll_prefix by done.
    by apply WaitAll_blocks.
  - rewrite <- (app_nil_r pre). by rewrite WaitAll_prefix.
Qed.


(** ** The state and the two completion signals *)

Section Consistency.

Lemma node_consistent_new (base : Context_) (i pid : string) (it : Intent)
    (cs : Constraints) (chs : list string) :
  node_consistent (mkCtx base i pid it cs "active" ChOpen None chs).
Proof. by split. Qed.

Lemma node_consistent_set_children (n : Ctx) (chs : list string) :
  node_consistent n -> node_consistent (set_children n chs).
Proof. done. Qed.

Lemma node_consistent_set_intent (n : Ctx) (i : Intent) :
  node_consistent n -> node_consistent (set_intent n i).
Proof. done. Qed.

Lemma wrap_consistent (w : World) (rnd : list byte) (base : Context_)
    (it : Intent) (cs : Constraints) :
  consistent w -> consistent (fst (wrap w rnd base it cs)).
Proof.
  intros Hc. unfold consistent, wrap. simpl.
  apply Forall_app. split; [done|].
  constructor; [apply node_consistent_new|done].
Qed.

Lemma WithIntent_consistent (w w' : World) (rnd : list byte) (parent : ptr)
    (it : Intent) (req : Constraints) (child : ptr) (cancel : CancelFunc) :
  consistent w ->
  WithIntent w rnd parent it req = Ok (w', child, cancel) ->
  consistent w'.
Proof.
  intros Hc Hrun.
  destruct parent as [lp|]; [|done].
  destruct (heap w !! lp) as [p|] eqn:Hp.
  - destruct (WithIntent_shape w rnd lp p it req Hp)
      as (w1 & base & cancel1 & Hrun1 & Hheap & _).
    rewrite Hrun1 in Hrun. injection Hrun as -> _ _.
    unfold consistent in *. rewrite Hheap.
    apply Forall_app. split.
    + apply Forall_insert; [done|].
      apply node_consistent_set_children.
      rewrite Forall_lookup in Hc. by apply (Hc lp p).
    + constructor; [apply node_consistent_new|done].
  - unfold WithIntent, deref in Hrun. by rewrite Hp in Hrun.
Qed.

Lemma Fulfill_consistent (w w' : World) (c : ptr) :
  consistent w -> Fulfill w c = Ok w' -> consistent w'.
Proof.
  intros Hc Hrun. destruct c as [l|]; [|done].
  unfold Fulfill, deref in Hrun.
  destruct (heap w !! l) as [n|] eqn:Hl; [|done]. simpl in Hrun.
  destruct (String.eqb_spec (ctx_state n) "active") as [Hs|Hs].
  - destruct (ctx_doneCh n) eqn:Hch; [|done]. simpl in Hrun.
    injection Hrun as <-. unfold consistent in *. simpl.
    apply Forall_insert; [done|].
    rewrite Forall_lookup in Hc.
    pose proof (consistent_no_error n (Hc l n Hl) Hs) as He.
    unfold set_doneCh, set_state. simpl. by split.
  - by injection Hrun as <-.
Qed.

Lemma Abort_consistent (w w' : World) (c : ptr) (e : error) :
  consistent w -> Abort w c e = Ok w' -> consistent w'.
Proof.
  intros Hc Hrun. destruct c as [l|]; [|done].
  unfold Abort, deref in Hrun.
  destruct (heap w !! l) as [n|] eqn:Hl; [|done]. simpl in Hrun.
  destruct (String.eqb_spec (ctx_state n) "active") as [Hs|Hs].
  - destruct (ctx_doneCh n) eqn:Hch; [|done]. simpl in Hrun.
    injection Hrun as <-. unfold consistent in *. simpl.
    apply Forall_insert; [done|]. by split.
  - by injection Hrun as <-.
Qed.

Lemma applyAdjust_consistent (w w' : World) (c : ptr) (fn : AdjustFn) :
  consistent w -> applyAdjust w c fn = Ok w' -> consistent w'.
Proof.
  intros Hc Hrun. destruct c as [l|]; [|done].
  unfold applyAdjust, deref in Hrun.
  destruct (heap w !! l) as [n|] eqn:Hl; [|done]. simpl in Hrun.
  destruct (Params (ctx_intent n)) as [r|].
  - destruct (maps w !! r); [|done]. injection Hrun as <-. done.
  - simpl in Hrun.
    destruct (_ !! length (maps w)); [|done]. injection Hrun as <-.
    unfold consistent in *. simpl.
    apply Forall_insert; [done|].
    apply node_consistent_set_intent.
    rewrite Forall_lookup in Hc. by apply (Hc l n).
Qed.

(** A traversal that folds a consistency-preserving visit over the
    children preserves consistency. *)
Lemma foldl_consistent (visit : World -> ptr -> result World) :
  (forall w c w', consistent w -> visit w c = Ok w' -> consistent w') ->
  forall (chs : list ptr) (acc : result World) (w' : World),
    (forall w0, acc = Ok w0 -> consistent w0) ->
    foldl (fun acc ch => let* w1 := acc in visit w1 ch) acc chs = Ok w' ->
    consistent w'.
Proof.
  intros Hvisit. induction chs as [|ch chs IH]; intros acc w' Hacc Hrun.
  - by apply Hacc.
  - simpl in Hrun. apply (IH _ _) in Hrun; [done|].
    intros w0 Hw0. destruct acc as [wa| |]; [|done|done].
    simpl in Hw0. by apply (Hvisit wa ch w0); [apply Hacc|].
Qed.

Lemma abortRecursive_consistent (fuel : nat) :
  forall (w w' : World) (c : ptr) (reason : error),
    consistent w -> abortRecursive fuel w c reason = Ok w' -> consistent w'.
Proof.
  induction fuel as [|k IH]; intros w w' c reason Hc Hrun; [done|].
  simpl in Hrun.
  destruct (State w c) as [st| |]; [|done|done]. simpl in Hrun.
  destruct (if String.eqb st "active" then Abort w c reason else Ok w)
    as [w1| |] eqn:Hw1; [|done|done].
  simpl in Hrun.
  assert (consistent w1) as Hc1.
  { destruct (String.eqb st "active").
    - by apply (Abort_consistent w w1 c reason).
    - by injection Hw1 as <-. }
  destruct (Children w1 c) as [chs| |]; [|done|done]. simpl in Hrun.
  apply (foldl_consistent (fun w0 ch => abortRecursive k w0 ch reason))
    with (chs := chs) (acc := Ok w1); [|by intros w0 [= <-]|done].
  intros w0 ch w0' H0 Hr. by apply (IH w0 w0' ch reason).
Qed.

Lemma adjustRecursive_consistent (fuel : nat) :
  forall (w w' : World) (c : ptr) (fn : AdjustFn),
    consistent w -> adjustRecursive fuel w c fn = Ok w' -> consistent w'.
Proof.
  induction fuel as [|k IH]; intros w w' c fn Hc Hrun; [done|].
  simpl in Hrun.
  destruct (applyAdjust w c fn) as [w1| |] eqn:Hw1; [|done|done].
  simpl in Hrun.
  assert (consistent w1) as Hc1 by by apply (applyAdjust_consistent w w1 c fn).
  destruct (Children w1 c) as [chs| |]; [|done|done]. simpl in Hrun.
  apply (foldl_consistent (fun w0 ch => adjustRecursive k w0 ch fn))
    with (chs := chs) (acc := Ok w1); [|by intros w0 [= <-]|done].
  intros w0 ch w0' H0 Hr. by apply (IH w0 w0' ch fn).
Qed.

Lemma exec_consistent (fuel : nat) (w w' : World) (o : call) :
  consistent w -> exec fuel w o = Ok w' -> consistent w'.
Proof.
  intros Hc Hrun. destruct o; simpl in Hrun.
  - injection Hrun as <-. by apply wrap_consistent.
  - injection Hrun as <-. by apply wrap_consistent.
  - destruct (WithIntent w rnd parent intent req) as [[[w1 ch] cl]| |] eqn:E;
      [|done|done].
    injection Hrun as <-. by eapply WithIntent_consistent.
  - by eapply Fulfill_consistent.
  - by eapply Abort_consistent.
  - unfold SendCancel in Hrun.
    destruct (scope =? ScopeNode); [by eapply Abort_consistent|].
    destruct (scope =? ScopeSubtree); [by eapply abortRecursive_consistent|].
    destruct (scope =? ScopeRoot); [|by injection Hrun as <-].
    destruct (Root fuel w c); [|done|done].
    by eapply abortRecursive_consistent.
  - unfold SendAdjust in Hrun.
    destruct (scope =? ScopeNode); [by eapply applyAdjust_consistent|].
    destruct (scope =? ScopeSubtree); [by eapply adjustRecursive_consistent|].
    destruct (scope =? ScopeRoot); [|by injection Hrun as <-].
    destruct (Root fuel w c); [|done|done].
    by eapply adjustRecursive_consistent.
  - by injection Hrun as <-.
  - unfold map_assign in Hrun. destruct m as [r|]; [|done].
    destruct (maps w !! r); [|done]. by injection Hrun as <-.
  - by injection Hrun as <-.
  - by injection Hrun as <-.
Qed.

End Consistency.

(** The three ways the underlying signal fires, run on the examples: the
    release handle of A, the cascade from A to B, and a deadline coming
    due.  Each time [Done()] is closed while the node is still active and
    its own completion channel is still open. *)
Lemma fired_signal_examples :
  exec_all 0 init_world
    [CallBackground [x01];
     CallWithIntent [x02] (Some 0%nat) (mkIntent "A" None) (mkConstraints 0);
     CallWithIntent [x03] (Some 1%nat) (mkIntent "B" None) (mkConstraints 0);
     CallRelease 0%nat] = Ok ex_released
  /\ Done ex_released (Some 1%nat) = Ok true
  /\ State ex_released (Some 1%nat) = Ok "active"
  /\ DoneChan ex_released (Some 1%nat) = Ok ChOpen
  /\ Done ex_released (Some 2%nat) = Ok true
  /\ State ex_released (Some 2%nat) = Ok "active"
  /\ exec_all 0 init_world
       [CallBackground [x01];
        CallWithIntent [x02] (Some 0%nat) (mkIntent "D" None)
                       (mkConstraints 100);
        ClockReaches 100] = Ok ex_expired
  /\ Done ex_expired (Some 1%nat) = Ok true
  /\ State ex_expired (Some 1%nat) = Ok "active".
Proof.
  split; [vm_compute; reflexivity|].
  split; [vm_compute; reflexivity|].
  split; [vm_compute; reflexivity|].
  split; [vm_compute; reflexivity|].
  split; [vm_compute; reflexivity|].
  split; [vm_compute; reflexivity|].
  split; [vm_compute; reflexivity|].
  split; vm_compute; reflexivity.
Qed.

(** C1, as stated, fails: a run of the package from the initial state
    reaches a node whose underlying signal has fired while its state is
    still "active" (A after its release handle was called). *)
Lemma fired_signal_active_state :
  ~ (forall (fuel : nat) (os : list call) (w : World) (c : ptr),
       exec_all fuel init_world os = Ok w ->
       Done w c = Ok true ->
       State w c ≠ Ok "active").
Proof.
  intros Hclaim.
  destruct fired_signal_examples as (Hrun & Hdone & Hstate & _).
  exact (Hclaim _ _ _ _ Hrun Hdone Hstate).
Qed.

(** C1, amended.  Every call keeps each node's state consistent with the
    node's own completion channel: [DoneChan()] is open exactly while
    the state is "active", and only an aborted node carries an error.
    The release handle and the clock (deadline expiry, each with its
    cascade to descendants) fire the embedded context's signal only:
    they change no node, so its state, error and [DoneChan()] stay as
    they were. *)
Theorem state_follows_own_channel (fuel : nat) (w w' : World) (o : call) :
  consistent w ->
  exec fuel w o = Ok w' ->
  consistent w'
  /\ (forall cancel, o = CallRelease cancel -> heap w' = heap w)
  /\ (forall now, o = ClockReaches now -> heap w' = heap w).
Proof.
  intros Hc Hrun. split; [by eapply exec_consistent|].
  split; intros x ->; simpl in Hrun; by injection Hrun as <-.
Qed.

(** ** The policy view *)

(** C7.  The view's [Params()] hands out the node's own map: with the
    node N holding [{"a": 1}], the assignment [view.Params()["a"] = 2]
    succeeds and the node then reads [Params["a"] == 2]. *)
Theorem policy_view_params_alias :
  policyNode_Params ex_params (mkPolicyNode (Some 1%nat)) = Ok (Some 0%nat)
  /\ param_at ex_params (Some 1%nat) "a" = Ok (Some (AnyInt 1))
  /\ exists w',
       map_assign ex_params (Some 0%nat) "a" (AnyInt 2) = Ok w'
       /\ param_at w' (Some 1%nat) "a" = Ok (Some (AnyInt 2)).
Proof.
  split; [vm_compute; reflexivity|].
  split; [vm_compute; reflexivity|].
  exists (set_maps ex_params [<["a" := AnyInt 2]> {["a" := AnyInt 1]}]).
  split; vm_compute; reflexivity.
Qed.

(** ** The boolean checks are sound *)

Lemma node_consistentb_sound (n : Ctx) :
  node_consistentb n = true -> node_consistent n.
Proof.
  unfold node_consistentb, node_consistent.
  intros [H1 H2]%andb_true_iff.
  apply Bool.eqb_prop in H1. split.
  - destruct (String.eqb_spec (ctx_state n) "active") as [Hs|Hs];
      destruct (ctx_doneCh n); split; intros; done.
  - intros Hs. apply String.eqb_neq in Hs. rewrite Hs in H2.
    by destruct (ctx_err n).
Qed.

Lemma consistent_check (w : World) : consistentb w = true -> consistent w.
Proof.
  unfold consistentb, consistent.
  induction (heap w) as [|n h IH]; simpl; [by constructor|].
  intros [Hn Hh]%andb_true_iff.
  constructor; [by apply node_consistentb_sound|by apply IH].
Qed.

Lemma maps_valid_check (w : World) : maps_validb w = true -> maps_valid w.
Proof.
  unfold maps_validb, maps_valid.
  induction (heap w) as [|n h IH]; simpl; [by constructor|].
  intros [Hn Hh]%andb_true_iff.
  constructor; [|by apply IH].
  unfold mapref_validb, mapref_valid in *.
  destruct (Params (ctx_intent n)); [|done]. by apply Nat.ltb_lt.
Qed.

(** ** The theorems at work on the example runs *)

Lemma state_follows_own_channel_witness :
  consistent ex_tree
  /\ exec 0 ex_tree (CallRelease 0%nat) = Ok ex_released
  /\ consistent ex_released
  /\ heap ex_released = heap ex_tree.
Proof.
  assert (consistent ex_tree) as Hc
    by (apply consistent_check; vm_compute; reflexivity).
  assert (exec 0 ex_tree (CallRelease 0%nat) = Ok ex_released) as Hrun
    by reflexivity.
  destruct (state_follows_own_channel 0 ex_tree ex_released
              (CallRelease 0%nat) Hc Hrun) as (H1 & H2 & _).
  exact (conj Hc (conj Hrun (conj H1 (H2 0%nat eq_refl)))).
Defined.


Lemma terminal_first_wins_witness :
  deref ex_tree (Some 1%nat) = Ok ex_tree_A
  /\ exists w1 w2,
       run_op ex_tree (Some 1%nat) OpFulfill = Ok w1
       /\ run_ops ex_tree (Some 1%nat)
            [OpFulfill; OpAbort (Some boom); OpFulfill] = Ok w2
       /\ State w2 (Some 1%nat) = State w1 (Some 1%nat)
       /\ ErrState w2 (Some 1%nat) = ErrState w1 (Some 1%nat)
       /\ DoneChan w2 (Some 1%nat) = DoneChan w1 (Some 1%nat).
Proof.
  assert (deref ex_tree (Some 1%nat) = Ok ex_tree_A) as Hd
    by (vm_compute; reflexivity).
  split; [exact Hd|].
  exact (terminal_first_wins ex_tree (Some 1%nat) ex_tree_A OpFulfill
           [OpAbort (Some boom); OpFulfill] Hd (fun _ => eq_refl)).
Defined.

Lemma SendCancel_subtree_tree3_witness :
  consistent ex_tree
  /\ tree3 ex_tree 0 1 2
  /\ exists w',
       SendCancel 2 ex_tree (Some 1%nat) ScopeSubtree (Some boom) = Ok w'
       /\ State w' (Some 0%nat) = Ok "active"
       /\ State w' (Some 1%nat) = Ok "aborted"
       /\ ErrState w' (Some 1%nat) = Ok (Some boom)
       /\ DoneChan w' (Some 1%nat) = Ok ChClosed
       /\ State w' (Some 2%nat) = Ok "aborted"
       /\ ErrState w' (Some 2%nat) = Ok (Some boom)
       /\ DoneChan w' (Some 2%nat) = Ok ChClosed.
Proof.
  assert (consistent ex_tree) as Hc
    by (apply consistent_check; vm_compute; reflexivity).
  assert (tree3 ex_tree 0 1 2) as Ht
    by (unfold tree3; repeat apply conj;
        first [lia | vm_compute; reflexivity]).
  split; [exact Hc|]. split; [exact Ht|].
  apply (SendCancel_subtree_tree3 2 ex_tree 0 1 2 (Some boom) Hc Ht);
    first [lia | vm_compute; reflexivity].
Defined.

Lemma WaitAll_in_order_witness :
  context.Done (ctxs ex_finished) backgroundCtx = false
  /\ WaitAll (fun _ => false) ex_finished backgroundCtx
       [Some 2%nat; Some 1%nat; Some 0%nat] = Ok (Returned (Some boom))
  /\ WaitAll (fun _ => false) ex_finished backgroundCtx
       [Some 2%nat; Some 0%nat; Some 1%nat]
     = Ok (Blocked [Some 0%nat; Some 1%nat])
  /\ WaitAll (fun _ => false) ex_finished backgroundCtx [Some 2%nat]
     = Ok (Returned None).
Proof.
  assert (Forall (fun c => DoneChan ex_finished c = Ok ChClosed
                           /\ ErrState ex_finished c = Ok None)
                 [Some 2%nat]) as Hpre.
  { constructor; [|constructor]. split; vm_compute; reflexivity. }
  destruct (WaitAll_in_order (fun _ => false) ex_finished backgroundCtx
              [Some 2%nat] [Some 0%nat] eq_refl Hpre) as (H1 & _ & H3).
  destruct (WaitAll_in_order (fun _ => false) ex_finished backgroundCtx
              [Some 2%nat] [Some 1%nat] eq_refl Hpre) as (_ & H2 & _).
  split; [reflexivity|].
  split; [apply (H1 (Some 1%nat) boom); vm_compute; reflexivity|].
  split; [apply (H2 (Some 0%nat)); vm_compute; reflexivity|exact H3].
Defined.

(** The tree whose nodes share one params map is a three-level tree,
    the map is empty for all three, and after
    [A.SendAdjust(ScopeSubtree, func(p) { p["k"] = "v" })] the root
    reads [Params["k"] == "v"] too. *)
Example shared_params_example :
  tree3 ex_shared 0 1 2
  /\ maps_valid ex_shared
  /\ (forall k, param_at ex_shared (Some 0%nat) k = Ok None)
  /\ (forall k, param_at ex_shared (Some 1%nat) k = Ok None)
  /\ (forall k, param_at ex_shared (Some 2%nat) k = Ok None)
  /\ SendAdjust 2 ex_shared (Some 1%nat) ScopeSubtree
                (fun p => <["k" := AnyString "v"]> p) = Ok ex_shared_adjusted
  /\ param_at ex_shared_adjusted (Some 0%nat) "k" = Ok (Some (AnyString "v")).
Proof.
  assert (forall c i, Ctx_Intent ex_shared c = Ok i ->
            Params i = Some 0%nat ->
            forall k, param_at ex_shared c k = Ok None) as Hempty.
  { intros c i Hi Hp k. unfold param_at. rewrite Hi. simpl. rewrite Hp.
    unfold map_index.
    assert (maps ex_shared !! 0%nat = Some (∅ : gmap string any)) as ->
      by (vm_compute; reflexivity).
    by rewrite lookup_empty. }
  split.
  { unfold tree3; repeat apply conj;
      first [lia | vm_compute; reflexivity]. }
  split; [apply maps_valid_check; vm_compute; reflexivity|].
  split; [apply (Hempty _ (mkIntent "" (Some 0%nat)));
          vm_compute; reflexivity|].
  split; [apply (Hempty _ (mkIntent "A" (Some 0%nat)));
          vm_compute; reflexivity|].
  split; [apply (Hempty _ (mkIntent "B" (Some 0%nat)));
          vm_compute; reflexivity|].
  split; vm_compute; reflexivity.
Qed.

(** C6, as stated for every three-level tree, fails: with A's and B's
    params empty, the subtree adjustment on A need not leave the root's
    params untouched.  In the tree above the root's params are the map
    of A and B, and the root reads the new entry. *)
Lemma SendAdjust_reaches_shared_root :
  ~ (forall (fuel : nat) (w w' : World) (r a b : nat) (k : string) (v : any),
       maps_valid w ->
       tree3 w r a b ->
       (forall k', param_at w (Some a) k' = Ok None) ->
       (forall k', param_at w (Some b) k' = Ok None) ->
       (2 <= fuel)%nat ->
       SendAdjust fuel w (Some a) ScopeSubtree (fun p => <[k := v]> p)
         = Ok w' ->
       forall k', param_at w' (Some r) k' = param_at w (Some r) k').
Proof.
  intros H.
  destruct shared_params_example as (Ht & Hv & Hr & Ha & Hb & Hrun & Hk).
  specialize (H 2%nat ex_shared ex_shared_adjusted 0%nat 1%nat 2%nat
                "k" (AnyString "v") Hv Ht Ha Hb (le_n 2) Hrun "k").
  rewrite Hk, Hr in H. discriminate H.
Qed.

Lemma SendAdjust_subtree_tree3_witness :
  maps_valid ex_tree
  /\ tree3 ex_tree 0 1 2
  /\ exists w',
       SendAdjust 2 ex_tree (Some 1%nat) ScopeSubtree
                  (fun p => <["k" := AnyString "v"]> p) = Ok w'
       /\ param_at w' (Some 1%nat) "k" = Ok (Some (AnyString "v"))
       /\ param_at w' (Some 2%nat) "k" = Ok (Some (AnyString "v"))
       /\ Ctx_Intent w' (Some 0%nat) = Ok (mkIntent "" None)
       /\ (forall k', param_at w' (Some 0%nat) k'
                      = param_at ex_tree (Some 0%nat) k').
Proof.
  assert (maps_valid ex_tree) as Hv
    by (apply maps_valid_check; vm_compute; reflexivity).
  assert (tree3 ex_tree 0 1 2) as Ht
    by (unfold tree3; repeat apply conj;
        first [lia | vm_compute; reflexivity]).
  split; [exact Hv|]. split; [exact Ht|].
  apply (SendAdjust_subtree_tree3 2 ex_tree 0 1 2 (mkIntent "" None)
           (mkIntent "A" None) (mkIntent "B" None) "k" (AnyString "v") Hv Ht);
    first [lia | by left | vm_compute; reflexivity].
Defined.


Lemma unknown_scope_noop_witness :
  SendCancel 2 ex_tree (Some 1%nat) 7 (Some boom) = Ok ex_tree
  /\ SendAdjust 2 ex_tree (Some 1%nat) 7
                (fun p => <["k" := AnyString "v"]> p) = Ok ex_tree.
Proof.
  apply (unknown_scope_noop 2 ex_tree (Some 1%nat) 7 (Some boom));
    unfold ScopeNode, ScopeSubtree, ScopeRoot; lia.
Defined.

(** * Further properties of the code *)

(** ** Ids *)

Lemma decode_encode_byte (b : byte) :
  decode_byte (hex.digit (Byte.to_nat b / 16)) (hex.digit (Byte.to_nat b mod 16))
  = Some b.
Proof. destruct b; vm_compute; reflexivity. Qed.

Lemma EncodeToString_cons (b : byte) (bs : list byte) :
  hex.EncodeToString (b :: bs)
  = String (hex.digit (Byte.to_nat b / 16))
           (String (hex.digit (Byte.to_nat b mod 16)) (hex.EncodeToString bs)).
Proof. reflexivity. Qed.

Lemma decode_string_cons (hi lo : ascii) (rest : string) :
  decode_string (String hi (String lo rest))
  = match decode_byte hi lo, decode_string rest with
    | Some b, Some bs => Some (b :: bs)
    | _, _ => None
    end.
Proof. reflexivity. Qed.

Lemma decode_encode (bs : list byte) :
  decode_string (hex.EncodeToString bs) = Some bs.
Proof.
  induction bs as [|b bs IH]; [done|].
  rewrite EncodeToString_cons, decode_string_cons.
  by rewrite decode_encode_byte, IH.
Qed.

Lemma EncodeToString_length (bs : list byte) :
  String.length (hex.EncodeToString bs) = (2 * length bs)%nat.
Proof.
  induction bs as [|b bs IH]; [done|].
  rewrite EncodeToString_cons. cbn [String.length length].
  rewrite IH. lia.
Qed.

Lemma newID_bytes_length (rnd : list byte) :
  length (take 16 (rnd ++ repeat x00 16)) = 16%nat.
Proof.
  rewrite length_take, length_app, repeat_length. lia.
Qed.

Lemma newID_nonempty (rnd : list byte) : newID rnd ≠ "".
Proof.
  intros H. apply (f_equal String.length) in H.
  unfold newID in H. rewrite EncodeToString_length, newID_bytes_length in H.
  done.
Qed.

(** X1.  For the 16 bytes that [rand.Read] delivers, [newID] returns
    their hexadecimal print, a string of exactly 32 characters, so never
    the empty string that marks a root's [parentID]. *)
Theorem newID_length (rnd : list byte) :
  length rnd = 16%nat ->
  newID rnd = hex.EncodeToString rnd
  /\ String.length (newID rnd) = 32%nat
  /\ newID rnd ≠ "".
Proof.
  intros Hlen. split; [|split; [|apply newID_nonempty]].
  - unfold newID. rewrite take_app_length' by done. done.
  - unfold newID. by rewrite EncodeToString_length, newID_bytes_length.
Qed.

Lemma newID_length_witness :
  length ex_rnd = 16%nat
  /\ newID ex_rnd = hex.EncodeToString ex_rnd
  /\ String.length (newID ex_rnd) = 32%nat
  /\ newID ex_rnd ≠ "".
Proof.
  assert (length ex_rnd = 16%nat) as Hlen by reflexivity.
  exact (conj Hlen (newID_length ex_rnd Hlen)).
Defined.

(** X2.  The id determines the bytes it was printed from: two full
    16-byte reads that give the same id are the same bytes, so distinct
    reads give distinct ids. *)
Theorem newID_injective (rnd1 rnd2 : list byte) :
  length rnd1 = 16%nat -> length rnd2 = 16%nat ->
  newID rnd1 = newID rnd2 -> rnd1 = rnd2.
Proof.
  intros H1 H2 Heq. unfold newID in Heq.
  apply (f_equal decode_string) in Heq.
  rewrite !decode_encode in Heq. injection Heq as Heq.
  rewrite !take_app_le, !firstn_all2 in Heq by lia. done.
Qed.

Lemma newID_injective_witness :
  length ex_rnd = 16%nat
  /\ newID ex_rnd = newID ex_rnd
  /\ ex_rnd = ex_rnd.
Proof.
  split; [reflexivity|]. split; [reflexivity|].
  exact (newID_injective ex_rnd ex_rnd eq_refl eq_refl eq_refl).
Defined.

(** ** The clamp as a minimum *)

(** X3.  With "no deadline" read as the latest possible time, the clamp
    is the earlier of the two deadlines: the request passes unchanged
    when the parent has none, the parent's is taken when the child asks
    for none, and otherwise the smaller instant wins.  Clamping twice
    against the same parent changes nothing more. *)
Theorem clampChild_min (p c : Constraints) :
  Deadline (clampChild p c)
  = (if Deadline p =? 0 then Deadline c
     else if Deadline c =? 0 then Deadline p
     else Z.min (Deadline p) (Deadline c))
  /\ clampChild p (clampChild p c) = clampChild p c.
Proof.
  destruct p as [dp], c as [dc].
  unfold clampChild, time.IsZero, time.After. simpl.
  destruct (Z.eqb_spec dp 0) as [Hp|Hp];
    destruct (Z.eqb_spec dc 0) as [Hc|Hc];
    destruct (Z.ltb_spec dp dc) as [Hlt|Hge];
    simpl; rewrite ?Z.ltb_irrefl; simpl;
    try (rewrite (proj2 (Z.eqb_neq dp 0) Hp)); simpl;
    try (rewrite (proj2 (Z.ltb_ge dp dc) Hge)); simpl;
    try (rewrite (proj2 (Z.eqb_neq dc 0) Hc)); simpl;
    (split; [lia|done]).
Qed.

(** ** What no call ever undoes *)

Section Evolution.

Lemma node_evolves_refl (n : Ctx) : node_evolves n n.
Proof. by repeat split. Qed.

Lemma node_evolves_trans (n1 n2 n3 : Ctx) :
  node_evolves n1 n2 -> node_evolves n2 n3 -> node_evolves n1 n3.
Proof.
  intros (A1 & A2 & A3 & A4 & A5 & A6 & A7 & A8)
         (B1 & B2 & B3 & B4 & B5 & B6 & B7 & B8).
  do 5 (split; [congruence|]).
  split. { intros Hp. rewrite B6; [by apply A6|]. by rewrite A6. }
  split. { by etrans. }
  intros Hs. destruct (A8 Hs) as (E1 & E2 & E3).
  assert (ctx_state n2 ≠ "active") as Hs2 by by rewrite E1.
  destruct (B8 Hs2) as (F1 & F2 & F3). repeat split; congruence.
Qed.

Lemma evolves_refl (w : World) : evolves w w.
Proof.
  split; [|done]. intros l n Hl. exists n. split; [done|].
  apply node_evolves_refl.
Qed.

Lemma evolves_trans (w1 w2 w3 : World) :
  evolves w1 w2 -> evolves w2 w3 -> evolves w1 w3.
Proof.
  intros [H12 R12] [H23 R23]. split.
  - intros l n Hl.
    destruct (H12 l n Hl) as (n2 & Hl2 & E2).
    destruct (H23 l n2 Hl2) as (n3 & Hl3 & E3).
    exists n3. split; [done|]. by eapply node_evolves_trans.
  - intros i Hi. by apply R23, R12.
Qed.

(** One node rewritten in place, possibly with new nodes appended and
    new ids registered. *)
Lemma evolves_update (w w' : World) (l : nat) (n m : Ctx) (new : list Ctx) :
  heap w !! l = Some n ->
  node_evolves n m ->
  heap w' = <[l := m]> (heap w) ++ new ->
  (forall i, is_Some (reg w !! i) -> is_Some (reg w' !! i)) ->
  evolves w w'.
Proof.
  intros Hn Hm Hh Hr. split; [|done].
  intros l' n' Hl'. rewrite Hh.
  assert (l' < length (heap w))%nat as Hlt by by eapply lookup_lt_Some.
  rewrite lookup_app_l by by rewrite length_insert.
  destruct (decide (l = l')) as [<-|Hne].
  - rewrite list_lookup_insert_eq by done.
    exists m. split; [done|]. congruence.
  - rewrite list_lookup_insert_ne by done.
    exists n'. split; [done|]. apply node_evolves_refl.
Qed.

Lemma evolves_heap_reg (w w' : World) :
  heap w' = heap w -> reg w' = reg w -> evolves w w'.
Proof.
  intros Hh Hr. split.
  - intros l n Hl. exists n. rewrite Hh. split; [done|].
    apply node_evolves_refl.
  - intros i. by rewrite Hr.
Qed.

Lemma wrap_evolves (w : World) (rnd : list byte) (base : Context_)
    (it : Intent) (cs : Constraints) :
  evolves w (fst (wrap w rnd base it cs)).
Proof.
  split.
  - intros l n Hl. exists n. simpl.
    rewrite lookup_app_l by by eapply lookup_lt_Some.
    split; [done|]. apply node_evolves_refl.
  - intros i Hi. simpl.
    destruct (decide (newID rnd = i)) as [->|Hne].
    + by rewrite lookup_insert_eq.
    + by rewrite lookup_insert_ne.
Qed.

Lemma WithIntent_evolves (w w' : World) (rnd : list byte) (parent : ptr)
    (it : Intent) (req : Constraints) (child : ptr) (cancel : CancelFunc) :
  WithIntent w rnd parent it req = Ok (w', child, cancel) -> evolves w w'.
Proof.
  intros Hrun.
  destruct parent as [lp|]; [|done].
  destruct (heap w !! lp) as [p|] eqn:Hp.
  - destruct (WithIntent_shape w rnd lp p it req Hp)
      as (w1 & base & cancel1 & Hrun1 & Hheap & Hreg & _).
    rewrite Hrun1 in Hrun. injection Hrun as -> _ _.
    eapply evolves_update; [exact Hp| |exact Hheap|].
    + repeat split; try done. simpl. by apply prefix_app_r.
    + intros i Hi. rewrite Hreg.
      destruct (decide (newID rnd = i)) as [->|Hne].
      * by rewrite lookup_insert_eq.
      * by rewrite lookup_insert_ne.
  - unfold WithIntent, deref in Hrun. by rewrite Hp in Hrun.
Qed.

Lemma Fulfill_evolves (w w' : World) (c : ptr) :
  Fulfill w c = Ok w' -> evolves w w'.
Proof.
  intros Hrun. destruct c as [l|]; [|done].
  unfold Fulfill, deref in Hrun.
  destruct (heap w !! l) as [n|] eqn:Hl; [|done]. simpl in Hrun.
  destruct (String.eqb_spec (ctx_state n) "active") as [Hs|Hs].
  - destruct (ctx_doneCh n) eqn:Hch; [|done]. simpl in Hrun.
    injection Hrun as <-.
    eapply evolves_update with (new := []);
      [exact Hl| |by rewrite app_nil_r|done].
    by repeat split.
  - injection Hrun as <-. apply evolves_refl.
Qed.

Lemma Abort_evolves (w w' : World) (c : ptr) (e : error) :
  Abort w c e = Ok w' -> evolves w w'.
Proof.
  intros Hrun. destruct c as [l|]; [|done].
  unfold Abort, deref in Hrun.
  destruct (heap w !! l) as [n|] eqn:Hl; [|done]. simpl in Hrun.
  destruct (String.eqb_spec (ctx_state n) "active") as [Hs|Hs].
  - destruct (ctx_doneCh n) eqn:Hch; [|done]. simpl in Hrun.
    injection Hrun as <-.
    eapply evolves_update with (new := []);
      [exact Hl| |by rewrite app_nil_r|done].
    by repeat split.
  - injection Hrun as <-. apply evolves_refl.
Qed.

Lemma applyAdjust_evolves (w w' : World) (c : ptr) (fn : AdjustFn) :
  applyAdjust w c fn = Ok w' -> evolves w w'.
Proof.
  intros Hrun. destruct c as [l|]; [|done].
  unfold applyAdjust, deref in Hrun.
  destruct (heap w !! l) as [n|] eqn:Hl; [|done]. simpl in Hrun.
  destruct (Params (ctx_intent n)) as [r|] eqn:Hpar.
  - destruct (maps w !! r); [|done]. injection Hrun as <-.
    by apply evolves_heap_reg.
  - simpl in Hrun.
    destruct (_ !! length (maps w)); [|done]. injection Hrun as <-.
    eapply evolves_update with (new := []);
      [exact Hl| |by rewrite app_nil_r|done].
    repeat split; try done; simpl; by rewrite Hpar.
Qed.

(** A traversal that folds a visit over the children keeps whatever
    every visit keeps. *)
Lemma foldl_preserved (P : World -> Prop)
    (visit : World -> ptr -> result World) :
  (forall w c w', P w -> visit w c = Ok w' -> P w') ->
  forall (chs : list ptr) (acc : result World) (w' : World),
    (forall w0, acc = Ok w0 -> P w0) ->
    foldl (fun acc ch => let* w1 := acc in visit w1 ch) acc chs = Ok w' ->
    P w'.
Proof.
  intros Hvisit. induction chs as [|ch chs IH]; intros acc w' Hacc Hrun.
  - by apply Hacc.
  - simpl in Hrun. apply (IH _ _) in Hrun; [done|].
    intros w0 Hw0. destruct acc as [wa| |]; [|done|done].
    simpl in Hw0. by apply (Hvisit wa ch w0); [apply Hacc|].
Qed.

Lemma abortRecursive_evolves (fuel : nat) :
  forall (w w' : World) (c : ptr) (reason : error),
    abortRecursive fuel w c reason = Ok w' -> evolves w w'.
Proof.
  induction fuel as [|k IH]; intros w w' c reason Hrun; [done|].
  simpl in Hrun.
  destruct (State w c) as [st| |]; [|done|done]. simpl in Hrun.
  destruct (if String.eqb st "active" then Abort w c reason else Ok w)
    as [w1| |] eqn:Hw1; [|done|done].
  simpl in Hrun.
  assert (evolves w w1) as He1.
  { destruct (String.eqb st "active").
    - by apply (Abort_evolves w w1 c reason).
    - injection Hw1 as <-. apply evolves_refl. }
  destruct (Children w1 c) as [chs| |]; [|done|done]. simpl in Hrun.
  apply (foldl_preserved (evolves w)
           (fun w0 ch => abortRecursive k w0 ch reason))
    with (chs := chs) (acc := Ok w1); [|by intros w0 [= <-]|done].
  intros w0 ch w0' H0 Hr. eapply evolves_trans; [exact H0|].
  by apply (IH w0 w0' ch reason).
Qed.

Lemma adjustRecursive_evolves (fuel : nat) :
  forall (w w' : World) (c : ptr) (fn : AdjustFn),
    adjustRecursive fuel w c fn = Ok w' -> evolves w w'.
Proof.
  induction fuel as [|k IH]; intros w w' c fn Hrun; [done|].
  simpl in Hrun.
  destruct (applyAdjust w c fn) as [w1| |] eqn:Hw1; [|done|done].
  simpl in Hrun.
  assert (evolves w w1) as He1 by by apply (applyAdjust_evolves w w1 c fn).
  destruct (Children w1 c) as [chs| |]; [|done|done]. simpl in Hrun.
  apply (foldl_preserved (evolves w)
           (fun w0 ch => adjustRecursive k w0 ch fn))
    with (chs := chs) (acc := Ok w1); [|by intros w0 [= <-]|done].
  intros w0 ch w0' H0 Hr. eapply evolves_trans; [exact H0|].
  by apply (IH w0 w0' ch fn).
Qed.

Lemma exec_evolves (fuel : nat) (w w' : World) (o : call) :
  exec fuel w o = Ok w' -> evolves w w'.
Proof.
  intros Hrun. destruct o; simpl in Hrun.
  - injection Hrun as <-. apply wrap_evolves.
  - injection Hrun as <-. apply wrap_evolves.
  - destruct (WithIntent w rnd parent intent req) as [[[w1 ch] cl]| |] eqn:E;
      [|done|done].
    injection Hrun as <-. by eapply WithIntent_evolves.
  - by eapply Fulfill_evolves.
  - by eapply Abort_evolves.
  - unfold SendCancel in Hrun.
    destruct (scope =? ScopeNode); [by eapply Abort_evolves|].
    destruct (scope =? ScopeSubtree); [by eapply abortRecursive_evolves|].
    destruct (scope =? ScopeRoot);
      [|injection Hrun as <-; apply evolves_refl].
    destruct (Root fuel w c); [|done|done].
    by eapply abortRecursive_evolves.
  - unfold SendAdjust in Hrun.
    destruct (scope =? ScopeNode); [by eapply applyAdjust_evolves|].
    destruct (scope =? ScopeSubtree); [by eapply adjustRecursive_evolves|].
    destruct (scope =? ScopeRoot);
      [|injection Hrun as <-; apply evolves_refl].
    destruct (Root fuel w c); [|done|done].
    by eapply adjustRecursive_evolves.
  - injection Hrun as <-. by apply evolves_heap_reg.
  - unfold map_assign in Hrun. destruct m as [r|]; [|done].
    destruct (maps w !! r); [|done]. injection Hrun as <-.
    by apply evolves_heap_reg.
  - injection Hrun as <-. by apply evolves_heap_reg.
  - injection Hrun as <-. by apply evolves_heap_reg.
Qed.

Lemma exec_all_evolves (fuel : nat) (os : list call) :
  forall (w w' : World), exec_all fuel w os = Ok w' -> evolves w w'.
Proof.
  induction os as [|o os IH]; intros w w' Hrun.
  - injection Hrun as <-. apply evolves_refl.
  - simpl in Hrun.
    destruct (exec fuel w o) as [w1| |] eqn:E; [|done|done].
    simpl in Hrun. eapply evolves_trans; [by eapply exec_evolves|by apply IH].
Qed.

End Evolution.

Lemma deref_evolves (w w' : World) (c : ptr) (n : Ctx) :
  evolves w w' -> deref w c = Ok n ->
  exists n', deref w' c = Ok n' /\ node_evolves n n'.
Proof.
  intros [Hev _] Hd. destruct c as [l|]; [|done].
  unfold deref in *. destruct (heap w !! l) as [n0|] eqn:Hl; [|done].
  injection Hd as ->. destruct (Hev l n Hl) as (n' & Hl' & Hn').
  exists n'. by rewrite Hl'.
Qed.

(** X4.  A terminal state is final: once a node's state is no longer
    "active", no sequence of calls (terminal operations, scoped cancels
    and adjusts from any node, derivations, releases, the clock) changes
    its state, its error or its completion channel. *)
Theorem terminal_state_is_final (fuel : nat) (os : list call)
    (w w' : World) (c : ptr) (s : string) :
  State w c = Ok s ->
  s ≠ "active" ->
  exec_all fuel w os = Ok w' ->
  State w' c = Ok s
  /\ ErrState w' c = ErrState w c
  /\ DoneChan w' c = DoneChan w c.
Proof.
  intros Hs Hne Hrun. apply exec_all_evolves in Hrun.
  unfold State, ErrState, DoneChan in *.
  destruct (deref w c) as [n| |] eqn:Hd; [|done|done].
  simpl in Hs. injection Hs as <-.
  destruct (deref_evolves w w' c n Hrun Hd)
    as (n' & Hd' & (_ & _ & _ & _ & _ & _ & _ & Hfin)).
  rewrite Hd'. simpl. destruct (Hfin Hne) as (E1 & E2 & E3).
  by rewrite E1, E2, E3.
Qed.

Lemma terminal_state_is_final_witness :
  State ex_finished (Some 1%nat) = Ok "aborted"
  /\ exec_all 4 ex_finished ex_late_calls = Ok ex_late
  /\ State ex_late (Some 1%nat) = Ok "aborted"
  /\ ErrState ex_late (Some 1%nat) = ErrState ex_finished (Some 1%nat)
  /\ DoneChan ex_late (Some 1%nat) = DoneChan ex_finished (Some 1%nat).
Proof.
  assert (State ex_finished (Some 1%nat) = Ok "aborted") as Hs
    by (vm_compute; reflexivity).
  assert (exec_all 4 ex_finished ex_late_calls = Ok ex_late) as Hrun
    by (vm_compute; reflexivity).
  split; [exact Hs|]. split; [exact Hrun|].
  apply (terminal_state_is_final 4 ex_late_calls ex_finished ex_late
           (Some 1%nat) "aborted" Hs); [discriminate|exact Hrun].
Defined.

(** X5.  What identifies a node is fixed at creation: its id, parent id,
    constraints and intent name read the same after any sequence of
    calls, and so does its params map once the node has one (only its
    content changes). *)
Theorem identity_is_fixed (fuel : nat) (os : list call)
    (w w' : World) (c : ptr) (n : Ctx) :
  deref w c = Ok n ->
  exec_all fuel w os = Ok w' ->
  ID w' c = Ok (ctx_id n)
  /\ ParentID w' c = Ok (ctx_parentID n)
  /\ Ctx_Constraints w' c = Ok (ctx_cons n)
  /\ exists i,
       Ctx_Intent w' c = Ok i
       /\ Name i = Name (ctx_intent n)
       /\ (Params (ctx_intent n) ≠ None -> Params i = Params (ctx_intent n)).
Proof.
  intros Hd Hrun. apply exec_all_evolves in Hrun.
  destruct (deref_evolves w w' c n Hrun Hd)
    as (n' & Hd' & (_ & E1 & E2 & E3 & E4 & E5 & _)).
  unfold ID, ParentID, Ctx_Constraints, Ctx_Intent. rewrite Hd'. simpl.
  rewrite E1, E2, E3. repeat split. by exists (ctx_intent n').
Qed.

Lemma identity_is_fixed_witness :
  deref ex_finished (Some 1%nat) = Ok (aborted ex_tree_A (Some boom))
  /\ exec_all 4 ex_finished ex_late_calls = Ok ex_late
  /\ ID ex_late (Some 1%nat) = Ok (newID [x02])
  /\ ParentID ex_late (Some 1%nat) = Ok (newID [x01])
  /\ Ctx_Constraints ex_late (Some 1%nat) = Ok (mkConstraints 0).
Proof.
  assert (deref ex_finished (Some 1%nat) = Ok (aborted ex_tree_A (Some boom)))
    as Hd by (vm_compute; reflexivity).
  assert (exec_all 4 ex_finished ex_late_calls = Ok ex_late) as Hrun
    by (vm_compute; reflexivity).
  destruct (identity_is_fixed 4 ex_late_calls ex_finished ex_late
              (Some 1%nat) _ Hd Hrun) as (H1 & H2 & H3 & _).
  exact (conj Hd (conj Hrun (conj H1 (conj H2 H3)))).
Defined.

(** X6.  Nodes are never removed and child lists are append-only: after
    any sequence of calls every node is still there and its earlier
    child list is a prefix of its current one. *)
Theorem children_append_only (fuel : nat) (os : list call)
    (w w' : World) (c : ptr) (n : Ctx) :
  deref w c = Ok n ->
  exec_all fuel w os = Ok w' ->
  exists n', deref w' c = Ok n'
             /\ ctx_children n `prefix_of` ctx_children n'.
Proof.
  intros Hd Hrun. apply exec_all_evolves in Hrun.
  destruct (deref_evolves w w' c n Hrun Hd)
    as (n' & Hd' & (_ & _ & _ & _ & _ & _ & Hpre & _)).
  by exists n'.
Qed.

Lemma children_append_only_witness :
  deref ex_finished (Some 1%nat) = Ok (aborted ex_tree_A (Some boom))
  /\ exec_all 4 ex_finished ex_late_calls = Ok ex_late
  /\ exists n', deref ex_late (Some 1%nat) = Ok n'
                /\ [newID [x03]] `prefix_of` ctx_children n'.
Proof.
  assert (deref ex_finished (Some 1%nat) = Ok (aborted ex_tree_A (Some boom)))
    as Hd by (vm_compute; reflexivity).
  assert (exec_all 4 ex_finished ex_late_calls = Ok ex_late) as Hrun
    by (vm_compute; reflexivity).
  split; [exact Hd|]. split; [exact Hrun|].
  exact (children_append_only 4 ex_late_calls ex_finished ex_late
           (Some 1%nat) _ Hd Hrun).
Defined.

(** X7.  The registry never forgets an id: an id that [get] resolves
    still resolves after any sequence of calls. *)
Theorem registry_never_forgets (fuel : nat) (os : list call)
    (w w' : World) (i : string) :
  snd (get w i) = true ->
  exec_all fuel w os = Ok w' ->
  snd (get w' i) = true.
Proof.
  intros Hg Hrun. apply exec_all_evolves in Hrun. destruct Hrun as [_ Hr].
  unfold get in *.
  destruct (reg w !! i) as [l|] eqn:Hl; [|done].
  destruct (Hr i) as [l' Hl']; [by rewrite Hl|]. by rewrite Hl'.
Qed.

Lemma registry_never_forgets_witness :
  snd (get ex_finished (newID [x03])) = true
  /\ exec_all 4 ex_finished ex_late_calls = Ok ex_late
  /\ snd (get ex_late (newID [x03])) = true.
Proof.
  assert (snd (get ex_finished (newID [x03])) = true) as Hg
    by (vm_compute; reflexivity).
  assert (exec_all 4 ex_finished ex_late_calls = Ok ex_late) as Hrun
    by (vm_compute; reflexivity).
  split; [exact Hg|]. split; [exact Hrun|].
  exact (registry_never_forgets 4 ex_late_calls ex_finished ex_late _ Hg Hrun).
Defined.

(** ** Lineage integrity is kept *)

Section Lineage.

Lemma lineage_eq_refl (w : World) : lineage_eq w w.
Proof. repeat split. intros l n Hl. by exists n. Qed.

Lemma lineage_eq_trans (w1 w2 w3 : World) :
  lineage_eq w1 w2 -> lineage_eq w2 w3 -> lineage_eq w1 w3.
Proof.
  intros (R12 & L12 & H12) (R23 & L23 & H23).
  split; [congruence|]. split; [congruence|].
  intros l n Hl.
  destruct (H12 l n Hl) as (n2 & Hl2 & A1 & A2 & A3).
  destruct (H23 l n2 Hl2) as (n3 & Hl3 & B1 & B2 & B3).
  exists n3. repeat split; congruence.
Qed.

Lemma lineage_eq_back (w w' : World) (l : nat) (n' : Ctx) :
  lineage_eq w w' -> heap w' !! l = Some n' ->
  exists n, heap w !! l = Some n
            /\ ctx_id n' = ctx_id n
            /\ ctx_parentID n' = ctx_parentID n
            /\ ctx_children n' = ctx_children n.
Proof.
  intros (_ & Hlen & Hfw) Hl'.
  assert (l < length (heap w))%nat as Hlt.
  { rewrite <- Hlen. by eapply lookup_lt_Some. }
  destruct (lookup_lt_is_Some_2 _ _ Hlt) as [n Hl].
  destruct (Hfw l n Hl) as (n'' & Hl'' & E).
  exists n. split; [done|]. congruence.
Qed.

Lemma lineage_ok_eq (w w' : World) :
  lineage_ok w -> lineage_eq w w' -> lineage_ok w'.
Proof.
  intros (I1 & I2 & I3 & I4 & I5) Heq.
  pose proof Heq as (Hr & Hlen & Hfw).
  split; [by rewrite Hr|]. split; [|split; [|split]].
  - intros l n' Hl'.
    destruct (lineage_eq_back w w' l n' Heq Hl') as (n & Hl & E1 & _).
    rewrite Hr, E1. by apply I2.
  - intros i l Hi. rewrite Hr in Hi.
    destruct (I3 i l Hi) as (n & Hl & E).
    destruct (Hfw l n Hl) as (n' & Hl' & E1 & _).
    exists n'. split; [done|congruence].
  - intros l n' Hl'.
    destruct (lineage_eq_back w w' l n' Heq Hl') as (n & Hl & E1 & E2 & E3).
    destruct (I4 l n Hl) as [Hroot|(lp & np & Hp & Hlt & Hnp & Hin)].
    + left. congruence.
    + right. destruct (Hfw lp np Hnp) as (np' & Hnp' & F1 & F2 & F3).
      exists lp, np'. rewrite Hr, E2, E1, F3. done.
  - intros l n' i Hl' Hin.
    destruct (lineage_eq_back w w' l n' Heq Hl') as (n & Hl & E1 & E2 & E3).
    rewrite E3 in Hin.
    destruct (I5 l n i Hl Hin) as (lc & nc & Hc & Hlt & Hnc & Hpar).
    destruct (Hfw lc nc Hnc) as (nc' & Hnc' & F1 & F2 & F3).
    exists lc, nc'. rewrite Hr, F2, E1. done.
Qed.

Lemma lineage_eq_update (w w' : World) (l : nat) (n m : Ctx) :
  heap w !! l = Some n ->
  heap w' = <[l := m]> (heap w) ->
  reg w' = reg w ->
  ctx_id m = ctx_id n ->
  ctx_parentID m = ctx_parentID n ->
  ctx_children m = ctx_children n ->
  lineage_eq w w'.
Proof.
  intros Hn Hh Hr E1 E2 E3. split; [done|].
  split; [by rewrite Hh, length_insert|].
  intros l' n' Hl'. rewrite Hh.
  destruct (decide (l = l')) as [<-|Hne].
  - rewrite list_lookup_insert_eq by by eapply lookup_lt_Some.
    exists m. split; [done|]. repeat split; congruence.
  - rewrite list_lookup_insert_ne by done. by exists n'.
Qed.

Lemma lineage_eq_heap_reg (w w' : World) :
  heap w' = heap w -> reg w' = reg w -> lineage_eq w w'.
Proof.
  intros Hh Hr. split; [done|]. split; [by rewrite Hh|].
  intros l n Hl. exists n. by rewrite Hh.
Qed.

Lemma Fulfill_lineage (w w' : World) (c : ptr) :
  Fulfill w c = Ok w' -> lineage_eq w w'.
Proof.
  intros Hrun. destruct c as [l|]; [|done].
  unfold Fulfill, deref in Hrun.
  destruct (heap w !! l) as [n|] eqn:Hl; [|done]. simpl in Hrun.
  destruct (String.eqb (ctx_state n) "active").
  - destruct (ctx_doneCh n) eqn:Hch; [|done]. simpl in Hrun.
    injection Hrun as <-. by eapply lineage_eq_update.
  - injection Hrun as <-. apply lineage_eq_refl.
Qed.

Lemma Abort_lineage (w w' : World) (c : ptr) (e : error) :
  Abort w c e = Ok w' -> lineage_eq w w'.
Proof.
  intros Hrun. destruct c as [l|]; [|done].
  unfold Abort, deref in Hrun.
  destruct (heap w !! l) as [n|] eqn:Hl; [|done]. simpl in Hrun.
  destruct (String.eqb (ctx_state n) "active").
  - destruct (ctx_doneCh n) eqn:Hch; [|done]. simpl in Hrun.
    injection Hrun as <-. by eapply lineage_eq_update.
  - injection Hrun as <-. apply lineage_eq_refl.
Qed.

Lemma applyAdjust_lineage (w w' : World) (c : ptr) (fn : AdjustFn) :
  applyAdjust w c fn = Ok w' -> lineage_eq w w'.
Proof.
  intros Hrun. destruct c as [l|]; [|done].
  unfold applyAdjust, deref in Hrun.
  destruct (heap w !! l) as [n|] eqn:Hl; [|done]. simpl in Hrun.
  destruct (Params (ctx_intent n)) as [r|] eqn:Hpar.
  - destruct (maps w !! r); [|done]. injection Hrun as <-.
    by apply lineage_eq_heap_reg.
  - simpl in Hrun.
    destruct (_ !! length (maps w)); [|done]. injection Hrun as <-.
    by eapply lineage_eq_update.
Qed.

Lemma abortRecursive_lineage (fuel : nat) :
  forall (w w' : World) (c : ptr) (reason : error),
    abortRecursive fuel w c reason = Ok w' -> lineage_eq w w'.
Proof.
  induction fuel as [|k IH]; intros w w' c reason Hrun; [done|].
  simpl in Hrun.
  destruct (State w c) as [st| |]; [|done|done]. simpl in Hrun.
  destruct (if String.eqb st "active" then Abort w c reason else Ok w)
    as [w1| |] eqn:Hw1; [|done|done].
  simpl in Hrun.
  assert (lineage_eq w w1) as He1.
  { destruct (String.eqb st "active").
    - by apply (Abort_lineage w w1 c reason).
    - injection Hw1 as <-. apply lineage_eq_refl. }
  destruct (Children w1 c) as [chs| |]; [|done|done]. simpl in Hrun.
  apply (foldl_preserved (lineage_eq w)
           (fun w0 ch => abortRecursive k w0 ch reason))
    with (chs := chs) (acc := Ok w1); [|by intros w0 [= <-]|done].
  intros w0 ch w0' H0 Hr. eapply lineage_eq_trans; [exact H0|].
  by apply (IH w0 w0' ch reason).
Qed.

Lemma adjustRecursive_lineage (fuel : nat) :
  forall (w w' : World) (c : ptr) (fn : AdjustFn),
    adjustRecursive fuel w c fn = Ok w' -> lineage_eq w w'.
Proof.
  induction fuel as [|k IH]; intros w w' c fn Hrun; [done|].
  simpl in Hrun.
  destruct (applyAdjust w c fn) as [w1| |] eqn:Hw1; [|done|done].
  simpl in Hrun.
  assert (lineage_eq w w1) as He1 by by apply (applyAdjust_lineage w w1 c fn).
  destruct (Children w1 c) as [chs| |]; [|done|done]. simpl in Hrun.
  apply (foldl_preserved (lineage_eq w)
           (fun w0 ch => adjustRecursive k w0 ch fn))
    with (chs := chs) (acc := Ok w1); [|by intros w0 [= <-]|done].
  intros w0 ch w0' H0 Hr. eapply lineage_eq_trans; [exact H0|].
  by apply (IH w0 w0' ch fn).
Qed.

End Lineage.

Section Creation.

Variables (w w' : World) (h1 : list Ctx) (new : Ctx).
Hypothesis Hok : lineage_ok w.
Hypothesis Hfresh : reg w !! ctx_id new = None.
Hypothesis Hnonempty : ctx_id new ≠ "".
Hypothesis Hheap : heap w' = h1 ++ [new].
Hypothesis Hlen : length h1 = length (heap w).
Hypothesis Hreg : reg w' = <[ctx_id new := length (heap w)]> (reg w).
Hypothesis Hleaf : ctx_children new = [].
Hypothesis Hold : forall l n, heap w !! l = Some n ->
  exists n', h1 !! l = Some n'
             /\ ctx_id n' = ctx_id n
             /\ ctx_parentID n' = ctx_parentID n
             /\ (forall i, i ∈ ctx_children n -> i ∈ ctx_children n')
             /\ (forall i, i ∈ ctx_children n' ->
                   i ∈ ctx_children n
                   \/ (i = ctx_id new /\ ctx_parentID new = ctx_id n)).
Hypothesis Hparent :
  ctx_parentID new = ""
  \/ exists lp np, reg w !! ctx_parentID new = Some lp
                   /\ h1 !! lp = Some np /\ ctx_id new ∈ ctx_children np.

Lemma create_lookup_old (l : nat) (n' : Ctx) :
  h1 !! l = Some n' -> heap w' !! l = Some n'.
Proof. intros Hl. rewrite Hheap. by rewrite lookup_app_l by by eapply lookup_lt_Some. Qed.

Lemma create_lookup_new : heap w' !! length (heap w) = Some new.
Proof. rewrite Hheap, <- Hlen. by apply list_lookup_middle. Qed.

Lemma create_cases (l : nat) (n' : Ctx) :
  heap w' !! l = Some n' ->
  (exists n, heap w !! l = Some n /\ h1 !! l = Some n')
  \/ (l = length (heap w) /\ n' = new).
Proof.
  rewrite Hheap. intros Hl.
  destruct (decide (l < length h1)%nat) as [Hlt|Hge].
  - left. rewrite lookup_app_l in Hl by done.
    rewrite Hlen in Hlt.
    destruct (lookup_lt_is_Some_2 _ _ Hlt) as [n Hn]. by exists n.
  - right. rewrite lookup_app_r in Hl by lia.
    destruct (l - length h1)%nat as [|k] eqn:E; [|done].
    simpl in Hl. injection Hl as <-. split; [lia|done].
Qed.

Lemma create_reg_old (i : string) (l : nat) :
  reg w !! i = Some l -> reg w' !! i = Some l.
Proof.
  intros Hi. rewrite Hreg. rewrite lookup_insert_ne; [done|].
  intros Heq. rewrite <- Heq in Hi. congruence.
Qed.

Lemma lineage_ok_create : lineage_ok w'.
Proof.
  destruct Hok as (I1 & I2 & I3 & I4 & I5).
  split; [|split; [|split; [|split]]].
  - rewrite Hreg. by rewrite lookup_insert_ne.
  - intros l n' Hl'.
    destruct (create_cases l n' Hl') as [(n & Hn & Hn')|[-> ->]].
    + destruct (Hold l n Hn) as (n'' & Hn'' & E1 & _).
      assert (n'' = n') as -> by congruence.
      rewrite E1. apply create_reg_old. by apply I2.
    + rewrite Hreg. by rewrite lookup_insert_eq.
  - intros i l Hi. rewrite Hreg in Hi.
    destruct (decide (ctx_id new = i)) as [<-|Hne].
    + rewrite lookup_insert_eq in Hi. injection Hi as <-.
      exists new. split; [apply create_lookup_new|done].
    + rewrite lookup_insert_ne in Hi by done.
      destruct (I3 i l Hi) as (n & Hn & E).
      destruct (Hold l n Hn) as (n' & Hn' & E1 & _).
      exists n'. split; [by apply create_lookup_old|congruence].
  - intros l n' Hl'.
    destruct (create_cases l n' Hl') as [(n & Hn & Hn')|[-> ->]].
    + destruct (Hold l n Hn) as (n'' & Hn'' & E1 & E2 & _).
      assert (n'' = n') as -> by congruence.
      destruct (I4 l n Hn) as [Hroot|(lp & np & Hp & Hlt & Hnp & Hin)].
      * left. congruence.
      * right. destruct (Hold lp np Hnp) as (np' & Hnp' & F1 & F2 & F3 & _).
        exists lp, np'. rewrite E2, E1.
        split; [by apply create_reg_old|]. split; [done|].
        split; [by apply create_lookup_old|by apply F3].
    + destruct Hparent as [Hroot|(lp & np & Hp & Hnp & Hin)]; [by left|].
      right. exists lp, np.
      split; [by apply create_reg_old|].
      split; [rewrite <- Hlen; by eapply lookup_lt_Some|].
      split; [by apply create_lookup_old|done].
  - intros l n' i Hl' Hin.
    destruct (create_cases l n' Hl') as [(n & Hn & Hn')|[-> ->]].
    + destruct (Hold l n Hn) as (n'' & Hn'' & E1 & E2 & E3 & E4).
      assert (n'' = n') as -> by congruence.
      destruct (E4 i Hin) as [Hin0|[-> Hpar]].
      * destruct (I5 l n i Hn Hin0) as (lc & nc & Hc & Hlt & Hnc & Hpc).
        destruct (Hold lc nc Hnc) as (nc' & Hnc' & F1 & F2 & _).
        exists lc, nc'.
        split; [by apply create_reg_old|]. split; [done|].
        split; [by apply create_lookup_old|congruence].
      * exists (length (heap w)), new.
        split; [rewrite Hreg; by rewrite lookup_insert_eq|].
        split; [by eapply lookup_lt_Some|].
        split; [apply create_lookup_new|congruence].
    + rewrite Hleaf in Hin. by apply elem_of_nil in Hin.
Qed.

End Creation.

Lemma lineage_ok_init : lineage_ok init_world.
Proof. by repeat split. Qed.

Lemma wrap_lineage (w : World) (rnd : list byte) (base : Context_)
    (it : Intent) (cs : Constraints) :
  lineage_ok w -> reg w !! newID rnd = None ->
  lineage_ok (fst (wrap w rnd base it cs)).
Proof.
  intros Hok Hfresh.
  apply (lineage_ok_create w _ (heap w)
           (mkCtx base (newID rnd) "" it cs "active" ChOpen None []));
    try done.
  - apply newID_nonempty.
  - intros l n Hl. exists n. by repeat split; auto.
  - by left.
Qed.

Lemma WithIntent_lineage (w w' : World) (rnd : list byte) (parent : ptr)
    (it : Intent) (req : Constraints) (child : ptr) (cancel : CancelFunc) :
  lineage_ok w -> reg w !! newID rnd = None ->
  WithIntent w rnd parent it req = Ok (w', child, cancel) ->
  lineage_ok w'.
Proof.
  intros Hok Hfresh Hrun.
  destruct parent as [lp|]; [|done].
  destruct (heap w !! lp) as [p|] eqn:Hp;
    [|unfold WithIntent, deref in Hrun; by rewrite Hp in Hrun].
  destruct (WithIntent_shape w rnd lp p it req Hp)
    as (w1 & base & cancel1 & Hrun1 & Hheap & Hreg & _).
  rewrite Hrun1 in Hrun. injection Hrun as -> _ _.
  assert (lp < length (heap w))%nat as Hlt by by eapply lookup_lt_Some.
  eapply (lineage_ok_create w w' _ _ Hok); [| |exact Hheap| |exact Hreg| | |].
  - exact Hfresh.
  - apply newID_nonempty.
  - by rewrite length_insert.
  - done.
  - intros l n Hl. destruct (decide (lp = l)) as [<-|Hne].
    + rewrite list_lookup_insert_eq by done.
      assert (n = p) as -> by congruence.
      eexists. split; [done|]. simpl. repeat split; try done.
      * intros i Hi. apply elem_of_app. by left.
      * intros i [Hi|Hi%list_elem_of_singleton]%elem_of_app; [by left|].
        by right.
    + rewrite list_lookup_insert_ne by done.
      exists n. by repeat split; auto.
  - right. simpl. destruct Hok as (_ & I2 & _).
    exists lp, (set_children p (ctx_children p ++ [newID rnd])).
    split; [by apply I2|].
    split; [by apply list_lookup_insert_eq|].
    simpl. apply elem_of_app. right. by apply list_elem_of_singleton.
Qed.

Lemma exec_lineage_eq_or_create (fuel : nat) (w w' : World) (o : call) :
  lineage_ok w -> fresh_call w o -> exec fuel w o = Ok w' -> lineage_ok w'.
Proof.
  intros Hok Hfresh Hrun. destruct o; simpl in Hrun, Hfresh.
  - injection Hrun as <-. by apply wrap_lineage.
  - injection Hrun as <-. by apply wrap_lineage.
  - destruct (WithIntent w rnd parent intent req) as [[[w1 ch] cl]| |] eqn:E;
      [|done|done].
    injection Hrun as <-. by eapply WithIntent_lineage.
  - eapply lineage_ok_eq; [done|]. by eapply Fulfill_lineage.
  - eapply lineage_ok_eq; [done|]. by eapply Abort_lineage.
  - eapply lineage_ok_eq; [done|]. unfold SendCancel in Hrun.
    destruct (scope =? ScopeNode); [by eapply Abort_lineage|].
    destruct (scope =? ScopeSubtree); [by eapply abortRecursive_lineage|].
    destruct (scope =? ScopeRoot);
      [|injection Hrun as <-; apply lineage_eq_refl].
    destruct (Root fuel w c); [|done|done].
    by eapply abortRecursive_lineage.
  - eapply lineage_ok_eq; [done|]. unfold SendAdjust in Hrun.
    destruct (scope =? ScopeNode); [by eapply applyAdjust_lineage|].
    destruct (scope =? ScopeSubtree); [by eapply adjustRecursive_lineage|].
    destruct (scope =? ScopeRoot);
      [|injection Hrun as <-; apply lineage_eq_refl].
    destruct (Root fuel w c); [|done|done].
    by eapply adjustRecursive_lineage.
  - injection Hrun as <-. eapply lineage_ok_eq; [done|].
    by apply lineage_eq_heap_reg.
  - unfold map_assign in Hrun. destruct m as [r|]; [|done].
    destruct (maps w !! r); [|done]. injection Hrun as <-.
    eapply lineage_ok_eq; [done|]. by apply lineage_eq_heap_reg.
  - injection Hrun as <-. eapply lineage_ok_eq; [done|].
    by apply lineage_eq_heap_reg.
  - injection Hrun as <-. eapply lineage_ok_eq; [done|].
    by apply lineage_eq_heap_reg.
Qed.

Lemma exec_all_lineage (fuel : nat) (os : list call) :
  forall (w w' : World),
    lineage_ok w -> fresh_calls fuel w os -> exec_all fuel w os = Ok w' ->
    lineage_ok w'.
Proof.
  induction os as [|o os IH]; intros w w' Hok Hfresh Hrun.
  - by injection Hrun as <-.
  - simpl in Hrun, Hfresh. destruct Hfresh as [Hf Hrest].
    destruct (exec fuel w o) as [w1| |] eqn:E; [|done|done].
    simpl in Hrun. apply (IH w1 w'); [|done|done].
    by eapply exec_lineage_eq_or_create.
Qed.

(** ** Reading the lineage *)

Lemma Children_unfold (w : World) (c : ptr) (n : Ctx) :
  deref w c = Ok n ->
  Children w c = Ok (omap (resolve w) (ctx_children n)).
Proof. intros Hd. unfold Children. by rewrite Hd. Qed.

Lemma resolve_reg (w : World) (i : string) :
  resolve w i = match reg w !! i with
                | Some l => Some (Some l)
                | None => None
                end.
Proof. unfold resolve, get. by destruct (reg w !! i). Qed.

Lemma omap_resolved (w : World) (P : nat -> Prop) (ids : list string) :
  (forall i, i ∈ ids -> exists lc, reg w !! i = Some lc /\ P lc) ->
  length (omap (resolve w) ids) = length ids
  /\ (forall c, c ∈ omap (resolve w) ids -> exists lc, c = Some lc /\ P lc).
Proof.
  intros Hall. split.
  - induction ids as [|i ids IH]; [done|].
    destruct (Hall i) as (lc & Hlc & _); [by left|].
    cbn [omap list_omap]. rewrite resolve_reg, Hlc. simpl.
    f_equal. apply IH. intros j Hj. apply Hall. by right.
  - intros c (i & Hi & Hres)%list_elem_of_omap.
    destruct (Hall i Hi) as (lc & Hlc & HP).
    rewrite resolve_reg, Hlc in Hres. injection Hres as <-. eauto.
Qed.

(** X8.  Lineage integrity holds in every state that calls drawing
    unused ids reach from the initial state: no node has the empty id,
    every node is the registry's entry for its own id (so ids are
    unique) and the registry leads only to nodes; a node with a parent
    id has its parent registered, created before it, with the node in
    the parent's child list; every id in a child list leads to a node
    created later that names the node as its parent. *)
Theorem lineage_integrity (fuel : nat) (os : list call) (w : World) :
  fresh_calls fuel init_world os ->
  exec_all fuel init_world os = Ok w ->
  lineage_ok w.
Proof.
  intros Hfresh Hrun.
  by apply (exec_all_lineage fuel os init_world w lineage_ok_init).
Qed.

Lemma lineage_integrity_witness :
  fresh_calls 0 init_world ex_tree_calls
  /\ exec_all 0 init_world ex_tree_calls = Ok ex_tree
  /\ lineage_ok ex_tree.
Proof.
  assert (fresh_calls 0 init_world ex_tree_calls) as Hf.
  { split; [vm_compute; reflexivity|].
    split; [vm_compute; reflexivity|].
    split; [vm_compute; reflexivity|exact I]. }
  assert (exec_all 0 init_world ex_tree_calls = Ok ex_tree) as Hrun
    by (vm_compute; reflexivity).
  exact (conj Hf (conj Hrun
           (lineage_integrity 0 ex_tree_calls ex_tree Hf Hrun))).
Defined.

Lemma Root_reaches_root (w : World) :
  lineage_ok w ->
  forall (l : nat) (n : Ctx) (fuel : nat),
    heap w !! l = Some n -> (l < fuel)%nat ->
    exists r nr,
      Root fuel w (Some l) = Ok (Some r)
      /\ heap w !! r = Some nr
      /\ ctx_parentID nr = ""
      /\ (r <= l)%nat
      /\ (ctx_parentID n = "" -> r = l).
Proof.
  intros (I1 & I2 & I3 & I4 & I5) l.
  induction l as [l IH] using lt_wf_ind. intros n fuel Hl Hfuel.
  destruct fuel as [|k]; [lia|].
  simpl. unfold deref. rewrite Hl. simpl.
  destruct (String.eqb_spec (ctx_parentID n) "") as [Hroot|Hnonroot].
  - exists l, n. by repeat split.
  - destruct (I4 l n Hl) as [?|(lp & np & Hp & Hlt & Hnp & _)]; [done|].
    unfold Parent, deref, get. rewrite Hl. simpl. rewrite Hp. simpl.
    destruct (IH lp Hlt np k Hnp ltac:(lia)) as (r & nr & Hr & Hnr & Hpr & Hle & _).
    exists r, nr. repeat split; try done; lia.
Qed.

(** X9.  [Root] terminates and returns a root: in a state with lineage
    integrity, from the node at address [l] the loop ends within [l + 1]
    iterations on a registered node whose parent id is empty; from a
    root it returns the root itself. *)
Theorem Root_terminates (w : World) (l : nat) (n : Ctx) (fuel : nat) :
  lineage_ok w ->
  heap w !! l = Some n ->
  (l < fuel)%nat ->
  exists r,
    Root fuel w (Some l) = Ok (Some r)
    /\ ParentID w (Some r) = Ok ""
    /\ (ctx_parentID n = "" -> r = l).
Proof.
  intros Hok Hl Hfuel.
  destruct (Root_reaches_root w Hok l n fuel Hl Hfuel)
    as (r & nr & Hr & Hnr & Hpr & _ & Hself).
  exists r. split; [done|]. split; [|done].
  unfold ParentID, deref. rewrite Hnr. simpl. by rewrite Hpr.
Qed.

Lemma Root_terminates_witness :
  lineage_ok ex_tree
  /\ heap ex_tree !! 2%nat
     = Some (mkCtx (derivedCtx 1) (newID [x03]) (newID [x02])
                   (mkIntent "B" None) (mkConstraints 0)
                   "active" ChOpen None [])
  /\ exists r,
       Root 3 ex_tree (Some 2%nat) = Ok (Some r)
       /\ ParentID ex_tree (Some r) = Ok "".
Proof.
  assert (lineage_ok ex_tree) as Hok.
  { apply (exec_all_lineage 0 ex_tree_calls init_world ex_tree lineage_ok_init).
    - split; [vm_compute; reflexivity|].
      split; [vm_compute; reflexivity|].
      split; [vm_compute; reflexivity|exact I].
    - vm_compute; reflexivity. }
  assert (heap ex_tree !! 2%nat
          = Some (mkCtx (derivedCtx 1) (newID [x03]) (newID [x02])
                        (mkIntent "B" None) (mkConstraints 0)
                        "active" ChOpen None [])) as Hl
    by (vm_compute; reflexivity).
  split; [exact Hok|]. split; [exact Hl|].
  destruct (Root_terminates ex_tree 2 _ 3 Hok Hl ltac:(lia))
    as (r & Hr & Hp & _).
  exists r. by split.
Defined.

Lemma lineage_ok_ex_tree : lineage_ok ex_tree.
Proof.
  apply (exec_all_lineage 0 ex_tree_calls init_world ex_tree lineage_ok_init).
  - split; [vm_compute; reflexivity|].
    split; [vm_compute; reflexivity|].
    split; [vm_compute; reflexivity|exact I].
  - vm_compute; reflexivity.
Defined.

(** X10.  [Parent] and [Children] are two views of the same links: in a
    state with lineage integrity, [Parent()] of a root is nil, and
    [Parent()] of any other node is a node that carries the parent id
    and has the node among its [Children()]. *)
Theorem Parent_resolves (w : World) (l : nat) (n : Ctx) :
  lineage_ok w ->
  heap w !! l = Some n ->
  (ctx_parentID n = "" -> Parent w (Some l) = Ok None)
  /\ (ctx_parentID n ≠ "" ->
      exists lp chs,
        Parent w (Some l) = Ok (Some lp)
        /\ ID w (Some lp) = Ok (ctx_parentID n)
        /\ Children w (Some lp) = Ok chs
        /\ Some l ∈ chs).
Proof.
  intros (I1 & I2 & I3 & I4 & I5) Hl.
  unfold Parent, deref, get. rewrite Hl. simpl. split.
  - intros ->. by rewrite I1.
  - intros Hne.
    destruct (I4 l n Hl) as [?|(lp & np & Hp & Hlt & Hnp & Hin)]; [done|].
    rewrite Hp. simpl.
    destruct (I3 _ _ Hp) as (np' & Hnp' & Hid).
    assert (np' = np) as -> by congruence.
    exists lp, (omap (resolve w) (ctx_children np)).
    split; [done|].
    split; [unfold ID, deref; by rewrite Hnp; simpl; rewrite Hid|].
    split; [apply Children_unfold; unfold deref; by rewrite Hnp|].
    apply list_elem_of_omap. exists (ctx_id n). split; [done|].
    rewrite resolve_reg. by rewrite (I2 l n Hl).
Qed.

Lemma Parent_resolves_witness :
  lineage_ok ex_tree
  /\ heap ex_tree !! 2%nat = Some ex_tree_B
  /\ exists lp chs,
       Parent ex_tree (Some 2%nat) = Ok (Some lp)
       /\ ID ex_tree (Some lp) = Ok (ctx_parentID ex_tree_B)
       /\ Children ex_tree (Some lp) = Ok chs
       /\ Some 2%nat ∈ chs.
Proof.
  assert (heap ex_tree !! 2%nat = Some ex_tree_B) as Hl
    by (vm_compute; reflexivity).
  split; [exact lineage_ok_ex_tree|]. split; [exact Hl|].
  apply (proj2 (Parent_resolves ex_tree 2 ex_tree_B lineage_ok_ex_tree Hl)).
  intros H. apply (f_equal String.length) in H. vm_compute in H. discriminate.
Defined.

(** X11.  In a state with lineage integrity [Children()] skips nothing:
    it returns one node per id of the child list, and [Parent()] of each
    returned node is the node itself. *)
Theorem Children_resolves_all (w : World) (l : nat) (n : Ctx) :
  lineage_ok w ->
  heap w !! l = Some n ->
  exists chs,
    Children w (Some l) = Ok chs
    /\ length chs = length (ctx_children n)
    /\ (forall c, c ∈ chs -> c ≠ None /\ Parent w c = Ok (Some l)).
Proof.
  intros (I1 & I2 & I3 & I4 & I5) Hl.
  exists (omap (resolve w) (ctx_children n)).
  split; [apply Children_unfold; unfold deref; by rewrite Hl|].
  destruct (omap_resolved w
              (fun lc => Parent w (Some lc) = Ok (Some l)) (ctx_children n))
    as [Hlen Hall].
  { intros i Hi.
    destruct (I5 l n i Hl Hi) as (lc & nc & Hc & Hlt & Hnc & Hpar).
    exists lc. split; [done|].
    unfold Parent, deref, get. rewrite Hnc. simpl.
    by rewrite Hpar, (I2 l n Hl). }
  split; [done|]. intros c Hc.
  destruct (Hall c Hc) as (lc & -> & HP). by split.
Qed.

Lemma Children_resolves_all_witness :
  lineage_ok ex_tree
  /\ heap ex_tree !! 1%nat = Some ex_tree_A
  /\ exists chs,
       Children ex_tree (Some 1%nat) = Ok chs
       /\ length chs = length (ctx_children ex_tree_A)
       /\ (forall c, c ∈ chs ->
             c ≠ None /\ Parent ex_tree c = Ok (Some 1%nat)).
Proof.
  assert (heap ex_tree !! 1%nat = Some ex_tree_A) as Hl
    by (vm_compute; reflexivity).
  split; [exact lineage_ok_ex_tree|]. split; [exact Hl|].
  exact (Children_resolves_all ex_tree 1 ex_tree_A lineage_ok_ex_tree Hl).
Defined.

(** X12.  In any state at all, [Children()] returns only what the
    registry holds: every returned node is the registry's entry for one
    of the ids in the child list, never nil; ids that do not resolve are
    skipped, so the result is never longer than the child list. *)
Theorem Children_only_registered (w : World) (c : ptr) (chs : list ptr) :
  Children w c = Ok chs ->
  exists n,
    deref w c = Ok n
    /\ (length chs <= length (ctx_children n))%nat
    /\ (forall ch, ch ∈ chs ->
          exists i lc, ch = Some lc /\ i ∈ ctx_children n
                       /\ get w i = (Some lc, true)).
Proof.
  unfold Children. destruct (deref w c) as [n| |]; [|done|done].
  simpl. intros [= <-]. exists n. split; [done|]. split.
  - induction (ctx_children n) as [|i ids IH]; [done|].
    cbn [omap list_omap]. destruct (get w i) as [ch [|]]; simpl; lia.
  - intros ch (i & Hi & Hres)%list_elem_of_omap.
    unfold get in *. destruct (reg w !! i) as [lc|] eqn:Hlc; [|done].
    injection Hres as <-. exists i, lc. by rewrite Hlc.
Qed.

Lemma Children_only_registered_witness :
  Children ex_tree (Some 0%nat) = Ok [Some 1%nat]
  /\ exists n,
       deref ex_tree (Some 0%nat) = Ok n
       /\ (length [Some 1%nat] <= length (ctx_children n))%nat
       /\ (forall ch, ch ∈ [Some 1%nat] ->
             exists i lc, ch = Some lc /\ i ∈ ctx_children n
                          /\ get ex_tree i = (Some lc, true)).
Proof.
  assert (Children ex_tree (Some 0%nat) = Ok [Some 1%nat]) as Hc
    by (vm_compute; reflexivity).
  split; [exact Hc|].
  exact (Children_only_registered ex_tree (Some 0%nat) [Some 1%nat] Hc).
Defined.

(** ** What derivation and root construction set up *)

Lemma omap_ext_in {A B : Type} (f g : A -> option B) (l : list A) :
  (forall x, x ∈ l -> f x = g x) -> omap f l = omap g l.
Proof.
  induction l as [|x l IH]; intros Hfg; [done|].
  cbn [omap list_omap]. rewrite (Hfg x) by by left.
  rewrite IH; [done|]. intros y Hy. apply Hfg. by right.
Qed.

(** X13.  Deriving a child with an unused id from a node of a state with
    lineage integrity links the two both ways: the child is a new active
    node with the requested intent, no error and an open completion
    channel; [Parent()] of the child is the node; the node's
    [Children()] is what it was before followed by the child; and the
    child has no children. *)
Theorem WithIntent_links (w : World) (rnd : list byte) (lp : nat) (p : Ctx)
    (it : Intent) (req : Constraints) (chs : list ptr) :
  lineage_ok w ->
  heap w !! lp = Some p ->
  reg w !! newID rnd = None ->
  Children w (Some lp) = Ok chs ->
  exists w' child cancel,
    WithIntent w rnd (Some lp) it req = Ok (w', child, cancel)
    /\ child = Some (length (heap w))
    /\ ID w' child = Ok (newID rnd)
    /\ Ctx_Intent w' child = Ok it
    /\ State w' child = Ok "active"
    /\ ErrState w' child = Ok None
    /\ DoneChan w' child = Ok ChOpen
    /\ Parent w' child = Ok (Some lp)
    /\ Children w' (Some lp) = Ok (chs ++ [child])
    /\ Children w' child = Ok [].
Proof.
  intros (I1 & I2 & I3 & I4 & I5) Hp Hfresh Hchs.
  destruct (WithIntent_shape w rnd lp p it req Hp)
    as (w' & base & cancel & Hrun & Hheap & Hreg & _).
  assert (lp < length (heap w))%nat as Hlt by by eapply lookup_lt_Some.
  exists w', (Some (length (heap w))), cancel.
  split; [done|]. split; [done|].
  assert (heap w' !! length (heap w)
          = Some (mkCtx base (newID rnd) (ctx_id p) it
                        (clampChild (ctx_cons p) req) "active" ChOpen None []))
    as Hchild.
  { rewrite Hheap. apply list_lookup_middle. by rewrite length_insert. }
  assert (heap w' !! lp
          = Some (set_children p (ctx_children p ++ [newID rnd]))) as Hpar.
  { rewrite Hheap. rewrite lookup_app_l by by rewrite length_insert.
    by apply list_lookup_insert_eq. }
  unfold ID, Ctx_Intent, State, ErrState, DoneChan, Parent, Children, deref.
  rewrite Hchild, Hpar. simpl.
  repeat (split; [done|]).
  split; [|split; [|done]].
  - unfold get. rewrite Hreg.
    rewrite lookup_insert_ne; [by rewrite (I2 lp p Hp)|].
    intros Heq. rewrite Heq in Hfresh. by rewrite (I2 lp p Hp) in Hfresh.
  - rewrite (Children_unfold w (Some lp) p) in Hchs
      by (unfold deref; by rewrite Hp).
    injection Hchs as <-.
    change (Ok (omap (resolve w') (ctx_children p ++ [newID rnd]))
            = Ok (omap (resolve w) (ctx_children p)
                  ++ [Some (length (heap w))])).
    rewrite omap_app. f_equal. f_equal.
    + apply omap_ext_in. intros i Hi.
      destruct (I5 lp p i Hp Hi) as (lc & nc & Hc & _).
      rewrite !resolve_reg, Hreg.
      rewrite lookup_insert_ne; [done|].
      intros Heq. rewrite Heq in Hfresh. by rewrite Hc in Hfresh.
    + cbn [omap list_omap]. rewrite resolve_reg, Hreg.
      by rewrite lookup_insert_eq.
Qed.

Lemma WithIntent_links_witness :
  lineage_ok ex_tree
  /\ heap ex_tree !! 1%nat = Some ex_tree_A
  /\ reg ex_tree !! newID [x04] = None
  /\ Children ex_tree (Some 1%nat) = Ok [Some 2%nat]
  /\ exists w' child cancel,
       WithIntent ex_tree [x04] (Some 1%nat) (mkIntent "C" None)
                  (mkConstraints 0) = Ok (w', child, cancel)
       /\ child = Some 3%nat
       /\ Parent w' child = Ok (Some 1%nat)
       /\ Children w' (Some 1%nat) = Ok [Some 2%nat; Some 3%nat].
Proof.
  assert (heap ex_tree !! 1%nat = Some ex_tree_A) as Hl
    by (vm_compute; reflexivity).
  assert (reg ex_tree !! newID [x04] = None) as Hf
    by (vm_compute; reflexivity).
  assert (Children ex_tree (Some 1%nat) = Ok [Some 2%nat]) as Hc
    by (vm_compute; reflexivity).
  split; [exact lineage_ok_ex_tree|]. split; [exact Hl|].
  split; [exact Hf|]. split; [exact Hc|].
  destruct (WithIntent_links ex_tree [x04] 1 ex_tree_A (mkIntent "C" None)
              (mkConstraints 0) [Some 2%nat] lineage_ok_ex_tree Hl Hf Hc)
    as (w' & child & cancel & H1 & H2 & _ & _ & _ & _ & _ & H3 & H4 & _).
  exists w', child, cancel. rewrite H2 in *. by repeat split.
Defined.

(** X14.  [Background()] and [TODO()] return a registered, active root:
    the new node is at the next address, has the id just drawn, an empty
    intent (empty name, nil params), no deadline, no parent id, no
    error, an open completion channel and no children; [get] of its id
    returns it and [Root()] returns the node itself.  The two
    constructors differ in the base context only, whose signal never
    fires in either case. *)
Theorem Background_is_root (w : World) (rnd : list byte) :
  let w' := fst (Background w rnd) in
  let c := snd (Background w rnd) in
  c = Some (length (heap w))
  /\ snd (TODO w rnd) = c
  /\ ID w' c = Ok (newID rnd)
  /\ get w' (newID rnd) = (c, true)
  /\ ParentID w' c = Ok ""
  /\ Ctx_Intent w' c = Ok (mkIntent "" None)
  /\ Ctx_Constraints w' c = Ok (mkConstraints 0)
  /\ State w' c = Ok "active"
  /\ ErrState w' c = Ok None
  /\ DoneChan w' c = Ok ChOpen
  /\ Children w' c = Ok []
  /\ Root 1 w' c = Ok c
  /\ Done w' c = Ok false
  /\ Done (fst (TODO w rnd)) c = Ok false
  /\ heap (fst (TODO w rnd))
     = heap w ++ [mkCtx todoCtx (newID rnd) "" (mkIntent "" None)
                        (mkConstraints 0) "active" ChOpen None []]
  /\ heap w'
     = heap w ++ [mkCtx backgroundCtx (newID rnd) "" (mkIntent "" None)
                        (mkConstraints 0) "active" ChOpen None []]
  /\ reg (fst (TODO w rnd)) = reg w'.
Proof.
  cbn zeta.
  unfold Background, TODO, wrap, register, set_reg, set_heap. simpl.
  unfold ID, ParentID, Ctx_Intent, Ctx_Constraints, State, ErrState,
    DoneChan, Children, Done, deref, get. simpl.
  rewrite !list_lookup_middle by done. simpl.
  rewrite lookup_insert_eq. by repeat split.
Qed.

(** ** Scoped cancel on any tree *)

Section Subtree.

Variable reason : error.

Lemma cancelled_by_nil (w : World) : cancelled_by [] reason w w.
Proof.
  split; [by destruct w|]. split; [done|].
  intros l n Hl. rewrite Hl.
  by destruct (decide _) as [[Hin%elem_of_nil _]|].
Qed.

Lemma cancelled_by_app (v1 v2 : list nat) (w1 w2 w3 : World) :
  cancelled_by v1 reason w1 w2 -> cancelled_by v2 reason w2 w3 ->
  cancelled_by (v1 ++ v2) reason w1 w3.
Proof.
  intros (E12 & L12 & H12) (E23 & L23 & H23).
  split; [|split; [congruence|]].
  - rewrite E23 at 1. rewrite E12. by destruct w1.
  - intros l n Hl. rewrite (H23 l _ (H12 l n Hl)).
    f_equal.
    destruct (decide (l ∈ v1 /\ ctx_state n = "active")) as [[Hin1 Hs]|Hno1].
    + rewrite decide_False by (intros [_ ?]; done).
      rewrite decide_True; [done|]. split; [|done].
      apply elem_of_app. by left.
    + destruct (decide (l ∈ v2 /\ ctx_state n = "active")) as [[Hin2 Hs]|Hno2].
      * rewrite decide_True; [done|]. split; [|done].
        apply elem_of_app. by right.
      * rewrite decide_False; [done|].
        intros [[?|?]%elem_of_app ?]; [apply Hno1|apply Hno2]; done.
Qed.

Lemma cancelled_by_lineage (v : list nat) (w w' : World) :
  cancelled_by v reason w w' -> lineage_eq w w'.
Proof.
  intros (E & L & H). split; [by rewrite E|]. split; [done|].
  intros l n Hl. eexists. split; [by apply H|].
  by destruct (decide _).
Qed.

Lemma cancelled_by_consistent (v : list nat) (w w' : World) :
  cancelled_by v reason w w' -> consistent w -> consistent w'.
Proof.
  intros (E & L & H) Hc. unfold consistent in *.
  rewrite Forall_lookup in Hc. apply Forall_lookup. intros l n' Hl'.
  assert (l < length (heap w))%nat as Hlt.
  { rewrite <- L. by eapply lookup_lt_Some. }
  destruct (lookup_lt_is_Some_2 _ _ Hlt) as [n Hl].
  rewrite (H l n Hl) in Hl'. injection Hl' as <-.
  destruct (decide _); [by split|by apply (Hc l n)].
Qed.

(** The visit of one node: abort it if it is still active. *)
Lemma visit_cancelled (w : World) (l : nat) (n : Ctx) :
  consistent w -> heap w !! l = Some n ->
  exists w1,
    State w (Some l) = Ok (ctx_state n)
    /\ (if String.eqb (ctx_state n) "active"
        then Abort w (Some l) reason else Ok w) = Ok w1
    /\ cancelled_by [l] reason w w1.
Proof.
  intros Hc Hl.
  assert (State w (Some l) = Ok (ctx_state n)) as Hst.
  { unfold State, deref. by rewrite Hl. }
  destruct (String.eqb_spec (ctx_state n) "active") as [Hs|Hs].
  - pose proof (consistent_open w l n Hc Hl Hs) as Hch.
    exists (set_heap w (<[l := aborted n reason]> (heap w))).
    split; [done|]. split; [by apply Abort_active|].
    split; [done|]. split; [simpl; by rewrite length_insert|].
    intros l' n' Hl'. simpl.
    destruct (decide (l = l')) as [<-|Hne].
    + rewrite list_lookup_insert_eq by by eapply lookup_lt_Some.
      assert (n' = n) as -> by congruence.
      rewrite decide_True; [done|]. split; [by left|done].
    + rewrite list_lookup_insert_ne by done. rewrite Hl'.
      rewrite decide_False; [done|].
      intros [Hin%list_elem_of_singleton _]. congruence.
  - exists w. split; [done|]. split; [done|].
    split; [by destruct w|]. split; [done|].
    intros l' n' Hl'. rewrite Hl'. f_equal.
    rewrite decide_False; [done|].
    intros [Hin%list_elem_of_singleton Hact]. congruence.
Qed.

End Subtree.

Lemma Children_childaddrs (w : World) (l : nat) (n : Ctx) :
  heap w !! l = Some n ->
  Children w (Some l) = Ok (Some <$> childaddrs w n).
Proof.
  intros Hl. rewrite (Children_unfold w (Some l) n)
    by (unfold deref; by rewrite Hl).
  f_equal. unfold childaddrs. rewrite list_fmap_omap.
  apply omap_ext_in. intros i _. rewrite resolve_reg.
  by destruct (reg w !! i).
Qed.

Lemma childaddrs_lineage_eq (w w' : World) (n n' : Ctx) :
  reg w' = reg w -> ctx_children n' = ctx_children n ->
  childaddrs w' n' = childaddrs w n.
Proof. intros Hr Hc. unfold childaddrs. by rewrite Hr, Hc. Qed.

Lemma subtree_lineage_eq (k : nat) (w w' : World) :
  lineage_eq w w' -> forall l, subtree k w' l = subtree k w l.
Proof.
  intros Heq. pose proof Heq as (Hr & Hlen & Hfw).
  induction k as [|k IH]; intros l; [done|].
  simpl. f_equal.
  destruct (heap w !! l) as [n|] eqn:Hl.
  - destruct (Hfw l n Hl) as (n' & -> & _ & _ & Hch).
    rewrite (childaddrs_lineage_eq w w' n n' Hr Hch).
    by apply flat_map_ext.
  - apply lookup_ge_None in Hl. rewrite <- Hlen in Hl.
    by rewrite (proj2 (lookup_ge_None _ _) Hl).
Qed.

Lemma childaddrs_later (w : World) (l lc : nat) (n : Ctx) :
  lineage_ok w -> heap w !! l = Some n -> lc ∈ childaddrs w n ->
  (l < lc)%nat /\ is_Some (heap w !! lc).
Proof.
  intros (_ & _ & _ & _ & I5) Hl (i & Hi & Hreg)%list_elem_of_omap.
  destruct (I5 l n i Hl Hi) as (lc' & nc & Hc & Hlt & Hnc & _).
  assert (lc' = lc) as -> by congruence. split; [done|]. by exists nc.
Qed.

Section SubtreeCancel.

Variable reason : error.

Lemma abortRecursive_step (k : nat) (w w1 : World) (l : nat) (n : Ctx) :
  heap w !! l = Some n ->
  (if String.eqb (ctx_state n) "active"
   then Abort w (Some l) reason else Ok w) = Ok w1 ->
  lineage_eq w w1 ->
  abortRecursive (S k) w (Some l) reason
  = foldl (visit_children reason k) (Ok w1) (Some <$> childaddrs w n).
Proof.
  intros Hl Hvisit (Hr & _ & Hfw).
  simpl. unfold State, deref. rewrite Hl. simpl. rewrite Hvisit. simpl.
  destruct (Hfw l n Hl) as (n1 & Hl1 & _ & _ & Hch).
  rewrite (Children_childaddrs w1 l n1 Hl1). simpl.
  by rewrite (childaddrs_lineage_eq w w1 n n1 Hr Hch).
Qed.

Lemma abortRecursive_spec (k : nat) :
  forall (w : World) (l : nat) (n : Ctx),
    lineage_ok w -> consistent w ->
    heap w !! l = Some n ->
    (length (heap w) <= k + l)%nat ->
    exists w',
      abortRecursive k w (Some l) reason = Ok w'
      /\ cancelled_by (subtree k w l) reason w w'.
Proof.
  induction k as [|k IH]; intros w l n Hok Hc Hl Hfuel.
  { apply lookup_lt_Some in Hl. lia. }
  destruct (visit_cancelled reason w l n Hc Hl) as (w1 & _ & Hvisit & Hcan1).
  pose proof (cancelled_by_lineage reason _ _ _ Hcan1) as Heq1.
  rewrite (abortRecursive_step k w w1 l n Hl Hvisit Heq1).
  assert (forall lc, lc ∈ childaddrs w n ->
            (length (heap w) <= k + lc)%nat /\ is_Some (heap w !! lc))
    as Hchildren.
  { intros lc Hlc.
    destruct (childaddrs_later w l lc n Hok Hl Hlc) as [Hlt Hv].
    split; [lia|done]. }
  assert (exists w',
            foldl (visit_children reason k) (Ok w1) (Some <$> childaddrs w n) = Ok w'
            /\ cancelled_by (flat_map (subtree k w) (childaddrs w n))
                            reason w1 w') as (w' & Hrun & Hcan).
  { clear Hvisit Hl Hfuel.
    assert (lineage_ok w1) as Hok1 by by eapply lineage_ok_eq.
    assert (consistent w1) as Hc1 by by eapply cancelled_by_consistent.
    clear Hcan1. revert w1 Heq1 Hok1 Hc1.
    induction (childaddrs w n) as [|lc las IHl]; intros wi Heqi Hoki Hci.
    - exists wi. split; [done|]. apply cancelled_by_nil.
    - destruct (Hchildren lc) as [Hfuel_c [nc Hnc]]; [by left|].
      pose proof Heqi as (_ & Hleni & Hfwi).
      destruct (Hfwi lc nc Hnc) as (nci & Hnci & _).
      destruct (IH wi lc nci Hoki Hci Hnci ltac:(lia)) as (w2 & Hrun2 & Hcan2).
      rewrite (subtree_lineage_eq k w wi Heqi) in Hcan2.
      pose proof (cancelled_by_lineage reason _ _ _ Hcan2) as Heq2.
      destruct (IHl (fun x Hx => Hchildren x (list_elem_of_further _ _ _ Hx))
                    w2)
        as (w' & Hrun' & Hcan').
      + by eapply lineage_eq_trans.
      + by eapply lineage_ok_eq.
      + by eapply cancelled_by_consistent.
      + exists w'. split.
        * rewrite fmap_cons. cbn [foldl]. unfold visit_children at 2.
          simpl. by rewrite Hrun2.
        * cbn [flat_map]. by eapply cancelled_by_app. }
  exists w'. split; [done|].
  cbn [subtree]. rewrite Hl.
  exact (cancelled_by_app reason [l] _ w w1 w' Hcan1 Hcan).
Qed.

End SubtreeCancel.

Lemma in_subtree_descendant (k : nat) (w : World) :
  forall l l', l' ∈ subtree k w l -> descendant w l l'.
Proof.
  induction k as [|k IH]; intros l l' Hin; [by apply elem_of_nil in Hin|].
  cbn [subtree] in Hin. apply elem_of_cons in Hin as [->|Hin].
  - constructor.
  - destruct (heap w !! l) as [n|] eqn:Hl; [|by apply elem_of_nil in Hin].
    apply list_elem_of_In, in_flat_map in Hin as (lc & Hlc & Hin).
    apply (descendant_child w l lc l' n Hl).
    + by apply list_elem_of_In.
    + apply IH. by apply list_elem_of_In.
Qed.

Lemma descendant_in_subtree (w : World) (l l' : nat) :
  lineage_ok w -> descendant w l l' ->
  forall k, (l < length (heap w))%nat -> (length (heap w) <= k + l)%nat ->
            l' ∈ subtree k w l.
Proof.
  intros Hok. induction 1 as [l|l lc l' n Hl Hlc Hdesc IH]; intros k Hv Hfuel.
  - destruct k as [|k]; [lia|]. cbn [subtree]. by left.
  - destruct k as [|k]; [lia|]. cbn [subtree]. rewrite Hl. right.
    destruct (childaddrs_later w l lc n Hok Hl Hlc) as [Hlt [nc Hnc]].
    apply list_elem_of_In, in_flat_map. exists lc.
    split; [by apply list_elem_of_In|].
    apply list_elem_of_In, IH; [by eapply lookup_lt_Some|lia].
Qed.

Lemma descendant_trans (w : World) (l1 l2 l3 : nat) :
  descendant w l1 l2 -> descendant w l2 l3 -> descendant w l1 l3.
Proof.
  induction 1 as [l|l lc l' n Hl Hlc Hdesc IH]; [done|].
  intros H3. eapply descendant_child; [done|done|]. by apply IH.
Qed.

Lemma Root_is_ancestor (w : World) :
  lineage_ok w ->
  forall (l : nat) (n : Ctx) (fuel : nat),
    heap w !! l = Some n -> (l < fuel)%nat ->
    exists r nr,
      Root fuel w (Some l) = Ok (Some r)
      /\ heap w !! r = Some nr
      /\ ctx_parentID nr = ""
      /\ descendant w r l.
Proof.
  intros Hok. pose proof Hok as (I1 & I2 & I3 & I4 & I5). intros l.
  induction l as [l IH] using lt_wf_ind. intros n fuel Hl Hfuel.
  destruct fuel as [|k]; [lia|].
  simpl. unfold deref. rewrite Hl. simpl.
  destruct (String.eqb_spec (ctx_parentID n) "") as [Hroot|Hnonroot].
  - exists l, n. repeat split; try done. constructor.
  - destruct (I4 l n Hl) as [?|(lp & np & Hp & Hlt & Hnp & Hin)]; [done|].
    unfold Parent, deref, get. rewrite Hl. simpl. rewrite Hp. simpl.
    destruct (IH lp Hlt np k Hnp ltac:(lia)) as (r & nr & Hr & Hnr & Hpr & Hd).
    exists r, nr. repeat split; try done.
    apply (descendant_trans w r lp l Hd).
    apply (descendant_child w lp l l np Hnp); [|constructor].
    apply list_elem_of_omap. exists (ctx_id n). split; [done|].
    by apply I2.
Qed.

Lemma cancelled_by_descendants (reason : error) (k : nat) (w w' : World)
    (l : nat) :
  lineage_ok w ->
  (l < length (heap w))%nat -> (length (heap w) <= k + l)%nat ->
  cancelled_by (subtree k w l) reason w w' ->
  reg w' = reg w /\ maps w' = maps w /\ ctxs w' = ctxs w
  /\ forall l' n', heap w !! l' = Some n' ->
       (descendant w l l' /\ ctx_state n' = "active" ->
        heap w' !! l' = Some (aborted n' reason))
       /\ (~ (descendant w l l' /\ ctx_state n' = "active") ->
           heap w' !! l' = Some n').
Proof.
  intros Hok Hv Hfuel (E & _ & H).
  split; [by rewrite E|]. split; [by rewrite E|]. split; [by rewrite E|].
  intros l' n' Hl'. rewrite (H l' n' Hl'). split.
  - intros [Hd Hs]. rewrite decide_True; [done|]. split; [|done].
    by apply descendant_in_subtree.
  - intros Hno. rewrite decide_False; [done|].
    intros [Hin Hs]. apply Hno. split; [|done].
    by eapply in_subtree_descendant.
Qed.

(** X15.  Subtree cancel on any tree.  In a consistent state with
    lineage integrity, [c.SendCancel(ScopeSubtree, reason)] returns
    without a panic once the recursion budget covers the nodes created
    after [c]; it aborts with [reason] exactly the active nodes among
    [c] and its descendants (state "aborted", the error [reason], the
    completion channel closed) and leaves every other node, the
    registry, the maps and the underlying signals as they were. *)
Theorem SendCancel_subtree_any_tree (fuel : nat) (w : World) (l : nat)
    (n : Ctx) (reason : error) :
  lineage_ok w ->
  consistent w ->
  heap w !! l = Some n ->
  (length (heap w) <= fuel + l)%nat ->
  exists w',
    SendCancel fuel w (Some l) ScopeSubtree reason = Ok w'
    /\ reg w' = reg w /\ maps w' = maps w /\ ctxs w' = ctxs w
    /\ forall l' n', heap w !! l' = Some n' ->
         (descendant w l l' /\ ctx_state n' = "active" ->
          heap w' !! l' = Some (aborted n' reason))
         /\ (~ (descendant w l l' /\ ctx_state n' = "active") ->
             heap w' !! l' = Some n').
Proof.
  intros Hok Hc Hl Hfuel.
  destruct (abortRecursive_spec reason fuel w l n Hok Hc Hl Hfuel)
    as (w' & Hrun & Hcan).
  exists w'. split; [by rewrite SendCancel_subtree|].
  apply (cancelled_by_descendants reason fuel w w' l Hok); [|done|done].
  by eapply lookup_lt_Some.
Qed.

(** X16.  Root cancel on any tree.  In a consistent state with lineage
    integrity, [c.SendCancel(ScopeRoot, reason)] with a recursion budget
    of at least the number of nodes finds the root above [c] and returns
    without a panic; it aborts with [reason] exactly the active nodes of
    that root's tree, [c] included when it is active, and leaves every
    other node as it was. *)
Theorem SendCancel_root_any_tree (fuel : nat) (w : World) (l : nat)
    (n : Ctx) (reason : error) :
  lineage_ok w ->
  consistent w ->
  heap w !! l = Some n ->
  (length (heap w) <= fuel)%nat ->
  exists w' r,
    SendCancel fuel w (Some l) ScopeRoot reason = Ok w'
    /\ Root fuel w (Some l) = Ok (Some r)
    /\ ParentID w (Some r) = Ok ""
    /\ descendant w r l
    /\ forall l' n', heap w !! l' = Some n' ->
         (descendant w r l' /\ ctx_state n' = "active" ->
          heap w' !! l' = Some (aborted n' reason))
         /\ (~ (descendant w r l' /\ ctx_state n' = "active") ->
             heap w' !! l' = Some n').
Proof.
  intros Hok Hc Hl Hfuel.
  assert (l < length (heap w))%nat as Hv by by eapply lookup_lt_Some.
  destruct (Root_is_ancestor w Hok l n fuel Hl ltac:(lia))
    as (r & nr & Hroot & Hnr & Hpr & Hdesc).
  destruct (abortRecursive_spec reason fuel w r nr Hok Hc Hnr ltac:(lia))
    as (w' & Hrun & Hcan).
  exists w', r.
  split.
  { unfold SendCancel.
    change (ScopeRoot =? ScopeNode) with false.
    change (ScopeRoot =? ScopeSubtree) with false.
    change (ScopeRoot =? ScopeRoot) with true.
    cbn iota. by rewrite Hroot. }
  split; [done|].
  split; [unfold ParentID, deref; by rewrite Hnr; simpl; rewrite Hpr|].
  split; [done|].
  apply (cancelled_by_descendants reason fuel w w' r Hok); [|lia|done].
  by eapply lookup_lt_Some.
Qed.

Lemma consistent_ex_tree : consistent ex_tree.
Proof. apply consistent_check; vm_compute; reflexivity. Defined.

Lemma descendant_ex_tree_A_B : descendant ex_tree 1 2.
Proof.
  apply (descendant_child ex_tree 1 2 2 ex_tree_A).
  - vm_compute; reflexivity.
  - replace (childaddrs ex_tree ex_tree_A) with [2%nat]
      by (vm_compute; reflexivity).
    by left.
  - constructor.
Defined.

Lemma SendCancel_subtree_any_tree_witness :
  lineage_ok ex_tree
  /\ consistent ex_tree
  /\ heap ex_tree !! 1%nat = Some ex_tree_A
  /\ (length (heap ex_tree) <= 2 + 1)%nat
  /\ exists w',
       SendCancel 2 ex_tree (Some 1%nat) ScopeSubtree (Some boom) = Ok w'
       /\ heap w' !! 2%nat = Some (aborted ex_tree_B (Some boom)).
Proof.
  assert (heap ex_tree !! 1%nat = Some ex_tree_A) as Hl
    by (vm_compute; reflexivity).
  assert (length (heap ex_tree) <= 2 + 1)%nat as Hfuel
    by (vm_compute; lia).
  split; [exact lineage_ok_ex_tree|]. split; [exact consistent_ex_tree|].
  split; [exact Hl|]. split; [exact Hfuel|].
  destruct (SendCancel_subtree_any_tree 2 ex_tree 1 ex_tree_A (Some boom)
              lineage_ok_ex_tree consistent_ex_tree Hl Hfuel)
    as (w' & Hrun & _ & _ & _ & Hpost).
  exists w'. split; [exact Hrun|].
  apply (proj1 (Hpost 2%nat ex_tree_B ltac:(vm_compute; reflexivity))).
  split; [exact descendant_ex_tree_A_B|reflexivity].
Defined.

Lemma SendCancel_root_any_tree_witness :
  lineage_ok ex_tree
  /\ consistent ex_tree
  /\ heap ex_tree !! 2%nat = Some ex_tree_B
  /\ (length (heap ex_tree) <= 3)%nat
  /\ exists w' r,
       SendCancel 3 ex_tree (Some 2%nat) ScopeRoot (Some boom) = Ok w'
       /\ Root 3 ex_tree (Some 2%nat) = Ok (Some r)
       /\ ParentID ex_tree (Some r) = Ok ""
       /\ descendant ex_tree r 2.
Proof.
  assert (heap ex_tree !! 2%nat = Some ex_tree_B) as Hl
    by (vm_compute; reflexivity).
  assert (length (heap ex_tree) <= 3)%nat as Hfuel by (vm_compute; lia).
  split; [exact lineage_ok_ex_tree|]. split; [exact consistent_ex_tree|].
  split; [exact Hl|]. split; [exact Hfuel|].
  destruct (SendCancel_root_any_tree 3 ex_tree 2 ex_tree_B (Some boom)
              lineage_ok_ex_tree consistent_ex_tree Hl Hfuel)
    as (w' & r & H1 & H2 & H3 & H4 & _).
  by exists w', r.
Defined.

(** ** What WaitAll can return *)

Lemma context_Done_Err (t : context.table) (ctx : Context_) :
  context.Done t ctx = true -> exists x, context.Err t ctx = Some x.
Proof.
  unfold context.Done. destruct (context.Err t ctx) as [x|]; [eauto|done].
Qed.

(** X17.  [WaitAll] never makes up or wraps an error: an error it
    returns is the stored error of one of the given nodes, whose
    completion channel is closed, or it is the [Err()] of the caller's
    own signal, which has then fired. *)
Theorem WaitAll_error_provenance (pick : nat -> bool) (w : World)
    (ctx : Context_) (nodes : list ptr) (x : error_value) :
  WaitAll pick w ctx nodes = Ok (Returned (Some x)) ->
  (exists n, n ∈ nodes
             /\ DoneChan w n = Ok ChClosed
             /\ ErrState w n = Ok (Some x))
  \/ (context.Done (ctxs w) ctx = true
      /\ context.Err (ctxs w) ctx = Some x).
Proof.
  induction nodes as [|n rest IH]; [done|].
  simpl. destruct (DoneChan w n) as [ch| |] eqn:Hd; [|done|done]. simpl.
  destruct (_ && _) eqn:Hsel.
  - apply andb_true_iff in Hsel as [Hready _].
    destruct ch; [done|].
    destruct (ErrState w n) as [[y|]| |] eqn:He; [| |done|done]; simpl.
    + intros [= ->]. left. exists n. split; [by left|done].
    + intros Hrest. destruct (IH Hrest) as [(m & Hm & H1 & H2)|Hctx].
      * left. exists m. split; [by right|done].
      * by right.
  - destruct (context.Done (ctxs w) ctx) eqn:Hctx; [|done].
    intros [= Herr]. by right.
Qed.

Lemma WaitAll_error_provenance_witness :
  WaitAll (fun _ => false) ex_finished backgroundCtx
    [Some 2%nat; Some 1%nat; Some 0%nat] = Ok (Returned (Some boom))
  /\ ((exists n, n ∈ [Some 2%nat; Some 1%nat; Some 0%nat]
                 /\ DoneChan ex_finished n = Ok ChClosed
                 /\ ErrState ex_finished n = Ok (Some boom))
      \/ (context.Done (ctxs ex_finished) backgroundCtx = true
          /\ context.Err (ctxs ex_finished) backgroundCtx = Some boom)).
Proof.
  assert (WaitAll (fun _ => false) ex_finished backgroundCtx
            [Some 2%nat; Some 1%nat; Some 0%nat] = Ok (Returned (Some boom)))
    as Hrun by (vm_compute; reflexivity).
  split; [exact Hrun|].
  exact (WaitAll_error_provenance _ _ _ _ _ Hrun).
Defined.

(** X18.  [WaitAll] returns nil only after the last node: every given
    node has then completed and none carries an error.  When it stays
    blocked, the nodes before the one it waits for have all completed
    without an error, that node has not completed, and the caller's
    signal has not fired. *)
Theorem WaitAll_nil_or_blocked (pick : nat -> bool) (w : World)
    (ctx : Context_) (nodes : list ptr) :
  (WaitAll pick w ctx nodes = Ok (Returned None) ->
   Forall (fun n => DoneChan w n = Ok ChClosed /\ ErrState w n = Ok None)
          nodes)
  /\ (forall rest,
        WaitAll pick w ctx nodes = Ok (Blocked rest) ->
        exists pre n post,
          nodes = pre ++ n :: post /\ rest = n :: post
          /\ Forall (fun m => DoneChan w m = Ok ChClosed
                              /\ ErrState w m = Ok None) pre
          /\ DoneChan w n = Ok ChOpen
          /\ context.Done (ctxs w) ctx = false).
Proof.
  induction nodes as [|n rest IH]; [by split|].
  destruct IH as [IHnil IHblk].
  simpl. destruct (DoneChan w n) as [ch| |] eqn:Hd; [|by split|by split].
  simpl. destruct (_ && _) eqn:Hsel.
  - apply andb_true_iff in Hsel as [Hready _].
    destruct ch; [done|].
    destruct (ErrState w n) as [[y|]| |] eqn:He; [by split| |by split|by split].
    simpl. split.
    + intros Hrest. constructor; [done|by apply IHnil].
    + intros rest' Hrest.
      destruct (IHblk rest' Hrest) as (pre & m & post & -> & -> & Hpre & Hm).
      exists (n :: pre), m, post. split; [done|]. split; [done|].
      split; [by constructor|done].
  - destruct (context.Done (ctxs w) ctx) eqn:Hctx.
    + split; [|done]. intros [= Herr].
      destruct (context_Done_Err _ _ Hctx) as [x Hx]. congruence.
    + split; [done|]. intros rest' [= <-].
      exists [], n, rest. repeat split; try done.
      apply andb_false_iff in Hsel as [Hnr|Hp].
      * by destruct ch.
      * simpl in Hp. done.
Qed.

Lemma WaitAll_nil_or_blocked_witness :
  WaitAll (fun _ => false) ex_finished backgroundCtx [Some 2%nat]
  = Ok (Returned None)
  /\ Forall (fun n => DoneChan ex_finished n = Ok ChClosed
                      /\ ErrState ex_finished n = Ok None) [Some 2%nat].
Proof.
  assert (WaitAll (fun _ => false) ex_finished backgroundCtx [Some 2%nat]
          = Ok (Returned None)) as Hrun by (vm_compute; reflexivity).
  split; [exact Hrun|].
  exact (proj1 (WaitAll_nil_or_blocked _ _ _ _) Hrun).
Defined.

(** ** Adjustments compose *)

(** X19.  Two node-scope adjusts in a row act as one adjust with the two
    mutators composed: the second sees what the first wrote (the later
    writer wins on a shared key), also when the first call had to create
    the params map.  Neither call panics. *)
Theorem SendAdjust_node_composes (fuel : nat) (w : World) (l : nat) (n : Ctx)
    (f g : AdjustFn) :
  heap w !! l = Some n ->
  mapref_valid w (Params (ctx_intent n)) ->
  exists w1 w2,
    SendAdjust fuel w (Some l) ScopeNode f = Ok w1
    /\ SendAdjust fuel w1 (Some l) ScopeNode g = Ok w2
    /\ SendAdjust fuel w (Some l) ScopeNode (fun p => g (f p)) = Ok w2.
Proof.
  intros Hl Hv.
  change (exists w1 w2,
            applyAdjust w (Some l) f = Ok w1
            /\ applyAdjust w1 (Some l) g = Ok w2
            /\ applyAdjust w (Some l) (fun p => g (f p)) = Ok w2).
  assert (l < length (heap w))%nat as Hlt by by eapply lookup_lt_Some.
  unfold applyAdjust, deref. rewrite Hl. simpl.
  destruct n as [base i pid [nm [r|]] cs st ch e chs]; simpl in *.
  - destruct (lookup_lt_is_Some_2 _ _ Hv) as [m Hm]. rewrite Hm.
    eexists _, _. split; [reflexivity|]. simpl. rewrite Hl. simpl.
    rewrite list_lookup_insert_eq by done.
    split; [reflexivity|]. by rewrite list_insert_insert_eq.
  - rewrite list_lookup_middle by done.
    eexists _, _. split; [reflexivity|]. simpl.
    rewrite list_lookup_insert_eq by done. simpl.
    rewrite list_lookup_insert_eq
      by (rewrite length_app; simpl; lia).
    split; [reflexivity|].
    by rewrite list_insert_insert_eq.
Qed.

Lemma SendAdjust_node_composes_witness :
  heap ex_params !! 1%nat
  = Some (mkCtx (derivedCtx 0) (newID [x02]) (newID [x01])
                (mkIntent "N" (Some 0%nat)) (mkConstraints 0)
                "active" ChOpen None [])
  /\ exists w1 w2,
       SendAdjust 0 ex_params (Some 1%nat) ScopeNode
                  (fun p => <["a" := AnyInt 2]> p) = Ok w1
       /\ SendAdjust 0 w1 (Some 1%nat) ScopeNode
                     (fun p => <["a" := AnyInt 3]> p) = Ok w2
       /\ SendAdjust 0 ex_params (Some 1%nat) ScopeNode
                     (fun p => <["a" := AnyInt 3]> (<["a" := AnyInt 2]> p))
          = Ok w2.
Proof.
  assert (heap ex_params !! 1%nat
          = Some (mkCtx (derivedCtx 0) (newID [x02]) (newID [x01])
                        (mkIntent "N" (Some 0%nat)) (mkConstraints 0)
                        "active" ChOpen None [])) as Hl
    by (vm_compute; reflexivity).
  split; [exact Hl|].
  apply (SendAdjust_node_composes 0 ex_params 1 _
           (fun p => <["a" := AnyInt 2]> p) (fun p => <["a" := AnyInt 3]> p) Hl).
  vm_compute. lia.
Defined.

(** ** The enforcer's scopes *)

(** X20.  Whatever scope value the policy module passes, the enforcer
    calls the node with one of the three scopes of the package, an
    unknown value counting as [ScopeNode]: a cancel through the enforcer
    with a scope that is neither of the policy module's root and subtree
    scopes is exactly [Abort(reason)] on the node, never the silent
    no-op of an unknown scope. *)
Theorem fromPolScope_valid (polScopeRoot polScopeSubtree : Z) (s : Z) :
  (fromPolScope polScopeRoot polScopeSubtree s = ScopeNode
   \/ fromPolScope polScopeRoot polScopeSubtree s = ScopeSubtree
   \/ fromPolScope polScopeRoot polScopeSubtree s = ScopeRoot)
  /\ (s ≠ polScopeRoot -> s ≠ polScopeSubtree ->
      forall fuel w e reason,
        policyEnforcer_Cancel polScopeRoot polScopeSubtree fuel w e s reason
        = Abort w (pe_n e) reason).
Proof.
  unfold policyEnforcer_Cancel, fromPolScope. split.
  - destruct (s =? polScopeRoot); [by right; right|].
    destruct (s =? polScopeSubtree); [by right; left|by left].
  - intros H1%Z.eqb_neq H2%Z.eqb_neq fuel w e reason. by rewrite H1, H2.
Qed.

(** ** The embedded context and the constraints *)

Section Signals.

Lemma entry_same_refl (e : ctxEntry) : entry_same e e.
Proof. by repeat split. Qed.

Lemma entry_same_trans (e1 e2 e3 : ctxEntry) :
  entry_same e1 e2 -> entry_same e2 e3 -> entry_same e1 e3.
Proof.
  intros (A1 & A2 & A3 & A4) (B1 & B2 & B3 & B4).
  do 3 (split; [congruence|]).
  intros Hne. rewrite B4; [by apply A4|]. by rewrite A4.
Qed.

Lemma table_grows_refl (t : context.table) : table_grows t t.
Proof. intros i e Hi. exists e. split; [done|apply entry_same_refl]. Qed.

Lemma table_grows_trans (t1 t2 t3 : context.table) :
  table_grows t1 t2 -> table_grows t2 t3 -> table_grows t1 t3.
Proof.
  intros H12 H23 i e Hi.
  destruct (H12 i e Hi) as (e2 & Hi2 & E2).
  destruct (H23 i e2 Hi2) as (e3 & Hi3 & E3).
  exists e3. split; [done|]. by eapply entry_same_trans.
Qed.

Lemma table_grows_set_err (t : context.table) (j : nat) (e : ctxEntry)
    (x : error) :
  t !! j = Some e -> ce_err e = None ->
  table_grows t (<[j := context.set_err e x]> t).
Proof.
  unfold table_grows, context.table in *.
  intros Hj He i e' Hi. destruct (decide (j = i)) as [<-|Hne].
  - assert (e' = e) as -> by congruence.
    exists (context.set_err e x).
    split; [by apply list_lookup_insert_eq, (lookup_lt_Some _ _ e)|].
    repeat split. by rewrite He.
  - exists e'. split; [by rewrite list_lookup_insert_ne|].
    apply entry_same_refl.
Qed.

Lemma table_grows_app (t new : context.table) : table_grows t (t ++ new).
Proof.
  unfold table_grows, context.table in *.
  intros i e Hi. exists e. split; [|apply entry_same_refl].
  by rewrite lookup_app_l by by eapply lookup_lt_Some.
Qed.

Lemma lookup_map_entry (f : ctxEntry -> ctxEntry) (t : list ctxEntry)
    (i : nat) (e : ctxEntry) :
  t !! i = Some e -> map f t !! i = Some (f e).
Proof.
  revert i. induction t as [|a t IH]; intros [|i] Hi; try done.
  - simpl in *. congruence.
  - simpl in *. by apply IH.
Qed.

Lemma inherit_grows (t : context.table) (j : nat) :
  table_grows t (context.inherit t j).
Proof.
  unfold context.inherit.
  destruct (t !! j) as [e|] eqn:Hj; [|apply table_grows_refl].
  destruct (ce_err e) eqn:He; [apply table_grows_refl|].
  destruct (context.Err t (ce_parent e)); [|apply table_grows_refl].
  by apply table_grows_set_err.
Qed.

Lemma foldl_inherit_grows (js : list nat) :
  forall t, table_grows t (foldl context.inherit t js).
Proof.
  induction js as [|j js IH]; intros t; [apply table_grows_refl|].
  simpl. eapply table_grows_trans; [apply inherit_grows|apply IH].
Qed.

Lemma cascade_grows (t : context.table) : table_grows t (context.cascade t).
Proof. apply foldl_inherit_grows. Qed.

Lemma cancel_grows (t : context.table) (i : nat) (x : error_value) :
  table_grows t (context.cancel t i x).
Proof.
  unfold context.cancel.
  destruct (t !! i) as [e|] eqn:Hi; [|apply table_grows_refl].
  destruct (ce_err e) eqn:He; [apply table_grows_refl|].
  eapply table_grows_trans; [by apply table_grows_set_err|].
  apply cascade_grows.
Qed.

Lemma expire_entry_same (now : time.Time) (e : ctxEntry) :
  entry_same e (context.expire_entry now e).
Proof.
  unfold context.expire_entry.
  destruct (ce_err e) eqn:He; [apply entry_same_refl|].
  destruct (ce_deadline e); [|apply entry_same_refl].
  destruct (_ && _); [|apply entry_same_refl].
  repeat split. by rewrite He.
Qed.

Lemma expire_grows (t : context.table) (now : time.Time) :
  table_grows t (context.expire t now).
Proof.
  unfold context.expire.
  eapply table_grows_trans; [|apply cascade_grows].
  intros i e Hi. exists (context.expire_entry now e).
  split; [|apply expire_entry_same].
  by apply lookup_map_entry.
Qed.

End Signals.

Section SignalShape.

Variables (w : World) (rnd : list byte) (lp : nat) (p : Ctx).
Variables (intent : Intent) (req : Constraints).
Hypothesis Hp : heap w !! lp = Some p.

(** The derivation again, this time with the table of signals. *)
Lemma WithIntent_signal_shape :
  exists w' t' base cancel,
    WithIntent w rnd (Some lp) intent req
      = Ok (w', Some (length (heap w)), cancel)
    /\ (if time.IsZero (Deadline (clampChild (ctx_cons p) req))
        then context.WithCancel (ctxs w) (ctx_base p)
        else context.WithDeadline (ctxs w) (clock w) (ctx_base p)
               (Deadline (clampChild (ctx_cons p) req)))
       = (t', base, cancel)
    /\ ctxs w' = t'
    /\ clock w' = clock w
    /\ heap w' =
         <[lp := set_children p (ctx_children p ++ [newID rnd])]> (heap w)
         ++ [mkCtx base (newID rnd) (ctx_id p) intent
                   (clampChild (ctx_cons p) req) "active" ChOpen None []].
Proof.
  assert (lp < length (heap w))%nat as Hlt by by eapply lookup_lt_Some.
  unfold WithIntent. simpl. rewrite Hp. simpl.
  set (cc := clampChild (ctx_cons p) req).
  destruct (if time.IsZero (Deadline cc) then _ else _)
    as [[t base] cancel] eqn:E.
  exists
    (mkWorld
       (<[lp := set_children p (ctx_children p ++ [newID rnd])]> (heap w)
        ++ [mkCtx base (newID rnd) (ctx_id p) intent cc
                  "active" ChOpen None []])
       (<[newID rnd := length (heap w)]> (reg w)) (maps w) t (clock w)),
    t, base, cancel.
  split; [|done].
  unfold ID, wrap, register, deref, store, set_heap, set_reg, set_ctxs.
  simpl.
  rewrite (lookup_app_l (heap w)) by done. rewrite Hp. simpl.
  rewrite list_lookup_middle by done. simpl.
  rewrite insert_app_r_alt by lia. rewrite Nat.sub_diag. simpl.
  rewrite (lookup_app_l (heap w)) by done. rewrite Hp. simpl.
  rewrite list_lookup_middle by done. simpl.
  by rewrite insert_app_l by done.
Qed.

End SignalShape.

Lemma announced_zero (c : Constraints) :
  Deadline c = 0 -> announced c = None.
Proof. intros H. unfold announced, time.IsZero. by rewrite H. Qed.

Lemma announced_nonzero (c : Constraints) :
  Deadline c ≠ 0 -> announced c = Some (Deadline c).
Proof.
  intros H. unfold announced, time.IsZero.
  by rewrite (proj2 (Z.eqb_neq _ _) H).
Qed.

(** The entry a derivation adds to the table. *)
Lemma derive_signal (t : list ctxEntry) (now : time.Time) (parent : Context_)
    (pc req : Constraints) :
  context.Deadline t parent = announced pc ->
  exists t' e,
    (if time.IsZero (Deadline (clampChild pc req))
     then context.WithCancel t parent
     else context.WithDeadline t now parent (Deadline (clampChild pc req)))
    = (t', derivedCtx (length t), length t)
    /\ table_grows t t'
    /\ t' !! length t = Some e
    /\ ce_parent e = parent
    /\ ce_deadline e = announced (clampChild pc req)
    /\ (Deadline (clampChild pc req) ≠ 0 -> ce_timer e = true).
Proof.
  intros Hpar. set (cc := clampChild pc req).
  assert (forall e0 : ctxEntry,
            exists t' e,
              (if Deadline cc <=? now
               then context.cancel (t ++ [e0]) (length t) DeadlineExceeded
               else t ++ [e0]) = t'
              /\ table_grows t t'
              /\ t' !! length t = Some e /\ entry_same e0 e) as Htimer.
  { intros e0.
    assert ((t ++ [e0]) !! length t = Some e0) as Hmid
      by by apply list_lookup_middle.
    destruct (Deadline cc <=? now).
    - destruct (cancel_grows (t ++ [e0]) (length t) DeadlineExceeded
                  (length t) e0 Hmid) as (e & He & Hsame).
      eexists _, e. split; [done|]. split; [|done].
      eapply table_grows_trans; [apply table_grows_app|apply cancel_grows].
    - exists (t ++ [e0]), e0. split; [done|].
      split; [apply table_grows_app|]. split; [done|apply entry_same_refl]. }
  destruct (Z.eq_dec (Deadline cc) 0) as [Hz|Hnz].
  - unfold time.IsZero. rewrite (proj2 (Z.eqb_eq _ _) Hz).
    unfold context.WithCancel.
    eexists _, _. split; [reflexivity|].
    split; [apply table_grows_app|].
    split; [by apply list_lookup_middle|]. simpl.
    split; [done|]. split; [|done].
    rewrite Hpar, (announced_zero cc Hz).
    destruct (Z.eq_dec (Deadline pc) 0) as [Hpz|Hpnz];
      [by apply announced_zero|].
    destruct (clampChild_bounded pc req Hpnz) as [Hne _]. done.
  - unfold time.IsZero. rewrite (proj2 (Z.eqb_neq _ _) Hnz).
    unfold context.WithDeadline. rewrite Hpar.
    destruct (Htimer (mkCtxEntry parent (Some (Deadline cc)) true
                                 (context.Err t parent)))
      as (t' & e & Ht' & Hgrow & He & (S1 & S2 & S3 & _)).
    simpl in S1, S2, S3.
    assert (announced cc = Some (Deadline cc)) as Hann
      by by apply announced_nonzero.
    destruct (Z.eq_dec (Deadline pc) 0) as [Hpz|Hpnz].
    + rewrite (announced_zero pc Hpz).
      exists t', e. rewrite Ht'. by repeat split; try congruence.
    + rewrite (announced_nonzero pc Hpnz).
      destruct (clampChild_bounded pc req Hpnz) as [_ Hle].
      unfold time.Before.
      rewrite (proj2 (Z.ltb_ge (Deadline pc) (Deadline cc)) Hle).
      exists t', e. rewrite Ht'. by repeat split; try congruence.
Qed.

Section Quiet.

Lemma quiet_refl (w : World) : quiet w w.
Proof. repeat split. intros l n Hl. by exists n. Qed.

Lemma quiet_trans (w1 w2 w3 : World) :
  quiet w1 w2 -> quiet w2 w3 -> quiet w1 w3.
Proof.
  intros (A1 & A2 & A3 & A4) (B1 & B2 & B3 & B4).
  do 3 (split; [congruence|]).
  intros l n3 Hl3. destruct (B4 l n3 Hl3) as (n2 & Hl2 & E1 & E2).
  destruct (A4 l n2 Hl2) as (n1 & Hl1 & F1 & F2).
  exists n1. repeat split; congruence.
Qed.

Lemma quiet_update (w w' : World) (l : nat) (n m : Ctx) :
  heap w !! l = Some n ->
  heap w' = <[l := m]> (heap w) ->
  ctxs w' = ctxs w -> clock w' = clock w ->
  ctx_base m = ctx_base n -> ctx_cons m = ctx_cons n ->
  quiet w w'.
Proof.
  intros Hn Hh Hc Hk E1 E2. do 2 (split; [done|]).
  split; [by rewrite Hh, length_insert|].
  intros l' n' Hl'. rewrite Hh in Hl'.
  destruct (decide (l = l')) as [<-|Hne].
  - rewrite list_lookup_insert_eq in Hl' by by eapply lookup_lt_Some.
    exists n. split; [done|]. split; congruence.
  - rewrite list_lookup_insert_ne in Hl' by done. by exists n'.
Qed.

Lemma quiet_heap (w w' : World) :
  heap w' = heap w -> ctxs w' = ctxs w -> clock w' = clock w -> quiet w w'.
Proof.
  intros Hh Hc Hk. do 2 (split; [done|]). split; [by rewrite Hh|].
  intros l n Hl. exists n. by rewrite <- Hh.
Qed.

Lemma Fulfill_quiet (w w' : World) (c : ptr) :
  Fulfill w c = Ok w' -> quiet w w'.
Proof.
  intros Hrun. destruct c as [l|]; [|done].
  unfold Fulfill, deref in Hrun.
  destruct (heap w !! l) as [n|] eqn:Hl; [|done]. simpl in Hrun.
  destruct (String.eqb (ctx_state n) "active").
  - destruct (ctx_doneCh n) eqn:Hch; [|done]. simpl in Hrun.
    injection Hrun as <-. by eapply quiet_update.
  - injection Hrun as <-. apply quiet_refl.
Qed.

Lemma Abort_quiet (w w' : World) (c : ptr) (e : error) :
  Abort w c e = Ok w' -> quiet w w'.
Proof.
  intros Hrun. destruct c as [l|]; [|done].
  unfold Abort, deref in Hrun.
  destruct (heap w !! l) as [n|] eqn:Hl; [|done]. simpl in Hrun.
  destruct (String.eqb (ctx_state n) "active").
  - destruct (ctx_doneCh n) eqn:Hch; [|done]. simpl in Hrun.
    injection Hrun as <-. by eapply quiet_update.
  - injection Hrun as <-. apply quiet_refl.
Qed.

Lemma applyAdjust_quiet (w w' : World) (c : ptr) (fn : AdjustFn) :
  applyAdjust w c fn = Ok w' -> quiet w w'.
Proof.
  intros Hrun. destruct c as [l|]; [|done].
  unfold applyAdjust, deref in Hrun.
  destruct (heap w !! l) as [n|] eqn:Hl; [|done]. simpl in Hrun.
  destruct (Params (ctx_intent n)) as [r|] eqn:Hpar.
  - destruct (maps w !! r); [|done]. injection Hrun as <-.
    by apply quiet_heap.
  - simpl in Hrun.
    destruct (_ !! length (maps w)); [|done]. injection Hrun as <-.
    by eapply quiet_update.
Qed.

Lemma abortRecursive_quiet (fuel : nat) :
  forall (w w' : World) (c : ptr) (reason : error),
    abortRecursive fuel w c reason = Ok w' -> quiet w w'.
Proof.
  induction fuel as [|k IH]; intros w w' c reason Hrun; [done|].
  simpl in Hrun.
  destruct (State w c) as [st| |]; [|done|done]. simpl in Hrun.
  destruct (if String.eqb st "active" then Abort w c reason else Ok w)
    as [w1| |] eqn:Hw1; [|done|done].
  simpl in Hrun.
  assert (quiet w w1) as He1.
  { destruct (String.eqb st "active").
    - by apply (Abort_quiet w w1 c reason).
    - injection Hw1 as <-. apply quiet_refl. }
  destruct (Children w1 c) as [chs| |]; [|done|done]. simpl in Hrun.
  apply (foldl_preserved (quiet w)
           (fun w0 ch => abortRecursive k w0 ch reason))
    with (chs := chs) (acc := Ok w1); [|by intros w0 [= <-]|done].
  intros w0 ch w0' H0 Hr. eapply quiet_trans; [exact H0|].
  by apply (IH w0 w0' ch reason).
Qed.

Lemma adjustRecursive_quiet (fuel : nat) :
  forall (w w' : World) (c : ptr) (fn : AdjustFn),
    adjustRecursive fuel w c fn = Ok w' -> quiet w w'.
Proof.
  induction fuel as [|k IH]; intros w w' c fn Hrun; [done|].
  simpl in Hrun.
  destruct (applyAdjust w c fn) as [w1| |] eqn:Hw1; [|done|done].
  simpl in Hrun.
  assert (quiet w w1) as He1 by by apply (applyAdjust_quiet w w1 c fn).
  destruct (Children w1 c) as [chs| |]; [|done|done]. simpl in Hrun.
  apply (foldl_preserved (quiet w)
           (fun w0 ch => adjustRecursive k w0 ch fn))
    with (chs := chs) (acc := Ok w1); [|by intros w0 [= <-]|done].
  intros w0 ch w0' H0 Hr. eapply quiet_trans; [exact H0|].
  by apply (IH w0 w0' ch fn).
Qed.

End Quiet.

Section SignalInvariant.

(** Old nodes keep their base and constraints, the table only grows,
    and the new nodes fit: the invariant carries over. *)
Lemma signals_ok_step (w w' : World) :
  signals_ok w ->
  table_grows (ctxs w) (ctxs w') ->
  (forall l n', heap w' !! l = Some n' ->
     (exists n, heap w !! l = Some n
                /\ ctx_base n' = ctx_base n /\ ctx_cons n' = ctx_cons n)
     \/ match ctx_base n' with
        | derivedCtx i =>
            exists e, ctxs w' !! i = Some e
                      /\ ce_deadline e = announced (ctx_cons n')
                      /\ (Deadline (ctx_cons n') ≠ 0 -> ce_timer e = true)
        | _ => Deadline (ctx_cons n') = 0
        end) ->
  signals_ok w'.
Proof.
  intros Hok Hgrow Hnodes l n' Hl'.
  destruct (Hnodes l n' Hl') as [(n & Hl & E1 & E2)|Hnew]; [|done].
  specialize (Hok l n Hl). rewrite E1, E2.
  destruct (ctx_base n) as [| |i]; try done.
  destruct Hok as (e & He & Hd & Ht).
  destruct (Hgrow i e He) as (e' & He' & (_ & S2 & S3 & _)).
  exists e'. split; [done|]. split; [congruence|].
  intros Hnz. rewrite S3. by apply Ht.
Qed.

Lemma signals_ok_quiet (w w' : World) :
  signals_ok w -> quiet w w' -> signals_ok w'.
Proof.
  intros Hok (Hc & _ & _ & Hback).
  apply (signals_ok_step w w' Hok).
  - rewrite Hc. apply table_grows_refl.
  - intros l n' Hl'. left. by apply Hback.
Qed.

Lemma signals_ok_table (w w' : World) :
  signals_ok w -> heap w' = heap w -> table_grows (ctxs w) (ctxs w') ->
  signals_ok w'.
Proof.
  intros Hok Hh Hgrow. apply (signals_ok_step w w' Hok Hgrow).
  intros l n' Hl'. left. exists n'. by rewrite <- Hh.
Qed.

Lemma signals_ok_Deadline (w : World) (l : nat) (n : Ctx) :
  signals_ok w -> heap w !! l = Some n ->
  context.Deadline (ctxs w) (ctx_base n) = announced (ctx_cons n).
Proof.
  intros Hok Hl. specialize (Hok l n Hl).
  unfold context.Deadline.
  destruct (ctx_base n) as [| |i]; try by rewrite announced_zero.
  destruct Hok as (e & -> & Hd & _). done.
Qed.

Lemma wrap_signals (w : World) (rnd : list byte) (base : Context_)
    (it : Intent) :
  signals_ok w -> (forall i, base ≠ derivedCtx i) ->
  signals_ok (fst (wrap w rnd base it (mkConstraints 0))).
Proof.
  intros Hok Hbase. apply (signals_ok_step w _ Hok).
  - apply table_grows_refl.
  - intros l n' Hl'. simpl in Hl'.
    destruct (decide (l < length (heap w))%nat) as [Hlt|Hge].
    + left. rewrite lookup_app_l in Hl' by done. by exists n'.
    + right. rewrite lookup_app_r in Hl' by lia.
      destruct (l - length (heap w))%nat; [|done].
      simpl in Hl'. injection Hl' as <-. simpl.
      destruct base as [| |i]; try done. by destruct (Hbase i).
Qed.

Lemma WithIntent_signals (w w' : World) (rnd : list byte) (parent : ptr)
    (it : Intent) (req : Constraints) (child : ptr) (cancel : CancelFunc) :
  signals_ok w ->
  WithIntent w rnd parent it req = Ok (w', child, cancel) ->
  signals_ok w'.
Proof.
  intros Hok Hrun.
  destruct parent as [lp|]; [|done].
  destruct (heap w !! lp) as [p|] eqn:Hp;
    [|unfold WithIntent, deref in Hrun; by rewrite Hp in Hrun].
  destruct (WithIntent_signal_shape w rnd lp p it req Hp)
    as (w1 & t' & base & cancel1 & Hrun1 & Hsig & Hctxs & _ & Hheap).
  rewrite Hrun1 in Hrun. injection Hrun as -> _ _.
  destruct (derive_signal (ctxs w) (clock w) (ctx_base p) (ctx_cons p) req
              (signals_ok_Deadline w lp p Hok Hp))
    as (t2 & e & Hsig2 & Hgrow & He & _ & Hd & Ht).
  rewrite Hsig in Hsig2. injection Hsig2 as -> -> _.
  assert (lp < length (heap w))%nat as Hlt by by eapply lookup_lt_Some.
  apply (signals_ok_step w w' Hok); [by rewrite Hctxs|].
  intros l n' Hl'. rewrite Hheap in Hl'.
  destruct (decide (l < length (heap w))%nat) as [Hl|Hge].
  - left. rewrite lookup_app_l in Hl' by by rewrite length_insert.
    destruct (decide (lp = l)) as [<-|Hne].
    + rewrite list_lookup_insert_eq in Hl' by done.
      injection Hl' as <-. by exists p.
    + rewrite list_lookup_insert_ne in Hl' by done. by exists n'.
  - right. rewrite lookup_app_r in Hl' by (rewrite length_insert; lia).
    rewrite length_insert in Hl'.
    destruct (l - length (heap w))%nat; [|done].
    simpl in Hl'. injection Hl' as <-. simpl.
    exists e. by rewrite Hctxs.
Qed.

End SignalInvariant.

Lemma exec_signals (fuel : nat) (w w' : World) (o : call) :
  signals_ok w -> exec fuel w o = Ok w' -> signals_ok w'.
Proof.
  intros Hok Hrun. destruct o; simpl in Hrun.
  - injection Hrun as <-. by apply wrap_signals.
  - injection Hrun as <-. by apply wrap_signals.
  - destruct (WithIntent w rnd parent intent req) as [[[w1 ch] cl]| |] eqn:E;
      [|done|done].
    injection Hrun as <-. by eapply WithIntent_signals.
  - eapply signals_ok_quiet; [done|]. by eapply Fulfill_quiet.
  - eapply signals_ok_quiet; [done|]. by eapply Abort_quiet.
  - eapply signals_ok_quiet; [done|]. unfold SendCancel in Hrun.
    destruct (scope =? ScopeNode); [by eapply Abort_quiet|].
    destruct (scope =? ScopeSubtree); [by eapply abortRecursive_quiet|].
    destruct (scope =? ScopeRoot);
      [|injection Hrun as <-; apply quiet_refl].
    destruct (Root fuel w c); [|done|done].
    by eapply abortRecursive_quiet.
  - eapply signals_ok_quiet; [done|]. unfold SendAdjust in Hrun.
    destruct (scope =? ScopeNode); [by eapply applyAdjust_quiet|].
    destruct (scope =? ScopeSubtree); [by eapply adjustRecursive_quiet|].
    destruct (scope =? ScopeRoot);
      [|injection Hrun as <-; apply quiet_refl].
    destruct (Root fuel w c); [|done|done].
    by eapply adjustRecursive_quiet.
  - injection Hrun as <-. eapply signals_ok_quiet; [done|].
    by apply quiet_heap.
  - unfold map_assign in Hrun. destruct m as [r|]; [|done].
    destruct (maps w !! r); [|done]. injection Hrun as <-.
    eapply signals_ok_quiet; [done|]. by apply quiet_heap.
  - injection Hrun as <-. apply (signals_ok_table w _ Hok); [done|].
    apply cancel_grows.
  - injection Hrun as <-. apply (signals_ok_table w _ Hok); [done|].
    apply expire_grows.
Qed.

Lemma exec_all_signals (fuel : nat) (os : list call) :
  forall (w w' : World),
    signals_ok w -> exec_all fuel w os = Ok w' -> signals_ok w'.
Proof.
  induction os as [|o os IH]; intros w w' Hok Hrun.
  - by injection Hrun as <-.
  - simpl in Hrun.
    destruct (exec fuel w o) as [w1| |] eqn:E; [|done|done].
    simpl in Hrun. apply (IH w1 w'); [|done]. by eapply exec_signals.
Qed.

Lemma signals_ok_init : signals_ok init_world.
Proof. intros l n Hl. done. Qed.

(** X21.  The deadline of the signal is the deadline of the
    constraints: in every state reached from the initial state, each
    node's embedded context reports as [Deadline()] exactly the node's
    [Constraints().Deadline], and no deadline when that is the zero
    time.  (The clamp makes the requested deadline never later than the
    parent context's, so [context.WithDeadline] always installs it.) *)
Theorem Deadline_matches_constraints (fuel : nat) (os : list call)
    (w : World) (c : ptr) (n : Ctx) :
  exec_all fuel init_world os = Ok w ->
  deref w c = Ok n ->
  Ctx_Deadline w c
  = Ok (if Deadline (ctx_cons n) =? 0 then None
        else Some (Deadline (ctx_cons n))).
Proof.
  intros Hrun Hd.
  pose proof (exec_all_signals fuel os init_world w signals_ok_init Hrun)
    as Hok.
  unfold Ctx_Deadline. rewrite Hd. simpl. f_equal.
  destruct c as [l|]; [|done]. unfold deref in Hd.
  destruct (heap w !! l) as [n0|] eqn:Hl; [|done]. injection Hd as ->.
  by rewrite (signals_ok_Deadline w l n Hok Hl).
Qed.

Lemma Deadline_matches_constraints_witness :
  exec_all 0 init_world
    [CallBackground [x01];
     CallWithIntent [x02] (Some 0%nat) (mkIntent "D" None)
                    (mkConstraints 100)] = Ok ex_deadline
  /\ deref ex_deadline (Some 1%nat) = Ok ex_deadline_D
  /\ Ctx_Deadline ex_deadline (Some 1%nat) = Ok (Some 100).
Proof.
  assert (exec_all 0 init_world
            [CallBackground [x01];
             CallWithIntent [x02] (Some 0%nat) (mkIntent "D" None)
                            (mkConstraints 100)] = Ok ex_deadline) as Hrun
    by (vm_compute; reflexivity).
  assert (deref ex_deadline (Some 1%nat) = Ok ex_deadline_D) as Hd
    by (vm_compute; reflexivity).
  split; [exact Hrun|]. split; [exact Hd|].
  exact (Deadline_matches_constraints 0 _ ex_deadline (Some 1%nat)
           ex_deadline_D Hrun Hd).
Defined.

(** X22.  A deadline that comes due fires the signal and nothing else:
    in a state reached from the initial state, once the clock reads at
    least a node's deadline, the node's [Done()] is closed, while every
    node's state, error and completion channel are as before. *)
Theorem deadline_fires_signal (fuel : nat) (os : list call) (w : World)
    (c : ptr) (n : Ctx) (now : time.Time) :
  exec_all fuel init_world os = Ok w ->
  deref w c = Ok n ->
  Deadline (ctx_cons n) ≠ 0 ->
  Deadline (ctx_cons n) <= now ->
  Done (advance_clock w now) c = Ok true
  /\ heap (advance_clock w now) = heap w.
Proof.
  intros Hrun Hd Hnz Hdue. split; [|done].
  pose proof (exec_all_signals fuel os init_world w signals_ok_init Hrun)
    as Hok.
  destruct c as [l|]; [|done]. unfold deref in Hd.
  destruct (heap w !! l) as [n0|] eqn:Hl; [|done]. injection Hd as ->.
  unfold Done, deref. simpl. rewrite Hl. simpl. f_equal.
  specialize (Hok l n Hl).
  destruct (ctx_base n) as [| |i]; try done.
  destruct Hok as (e & He & Hdl & Ht).
  rewrite (announced_nonzero _ Hnz) in Hdl. specialize (Ht Hnz).
  set (now' := Z.max (clock w) now).
  assert (exists e1, map (context.expire_entry now') (ctxs w) !! i = Some e1
                     /\ ce_err e1 ≠ None) as (e1 & He1 & Hfired).
  { exists (context.expire_entry now' e).
    split; [by apply lookup_map_entry|].
    unfold context.expire_entry.
    destruct (ce_err e) eqn:Herr; [by rewrite Herr|].
    rewrite Hdl, Ht.
    rewrite (proj2 (Z.leb_le (Deadline (ctx_cons n)) now')) by lia.
    done. }
  destruct (cascade_grows _ i e1 He1) as (e2 & He2 & (_ & _ & _ & Hkeep)).
  unfold context.Done, context.Err, context.expire.
  fold now'. unfold context.table in *. rewrite He2.
  rewrite (Hkeep Hfired). by destruct (ce_err e1).
Qed.

Lemma deadline_fires_signal_witness :
  exec_all 0 init_world
    [CallBackground [x01];
     CallWithIntent [x02] (Some 0%nat) (mkIntent "D" None)
                    (mkConstraints 100)] = Ok ex_deadline
  /\ deref ex_deadline (Some 1%nat) = Ok ex_deadline_D
  /\ Done (advance_clock ex_deadline 100) (Some 1%nat) = Ok true
  /\ heap (advance_clock ex_deadline 100) = heap ex_deadline.
Proof.
  assert (exec_all 0 init_world
            [CallBackground [x01];
             CallWithIntent [x02] (Some 0%nat) (mkIntent "D" None)
                            (mkConstraints 100)] = Ok ex_deadline) as Hrun
    by (vm_compute; reflexivity).
  assert (deref ex_deadline (Some 1%nat) = Ok ex_deadline_D) as Hd
    by (vm_compute; reflexivity).
  split; [exact Hrun|]. split; [exact Hd|].
  apply (deadline_fires_signal 0 _ ex_deadline (Some 1%nat) ex_deadline_D
           100 Hrun Hd); simpl; lia.
Defined.

(** ** The release handle *)

Lemma WithIntent_table_grows (w w' : World) (rnd : list byte) (parent : ptr)
    (it : Intent) (req : Constraints) (child : ptr) (cancel : CancelFunc) :
  signals_ok w ->
  WithIntent w rnd parent it req = Ok (w', child, cancel) ->
  table_grows (ctxs w) (ctxs w')
  /\ exists n e,
       deref w' child = Ok n
       /\ ctx_base n = derivedCtx cancel
       /\ ctxs w' !! cancel = Some e.
Proof.
  intros Hok Hrun.
  destruct parent as [lp|]; [|done].
  destruct (heap w !! lp) as [p|] eqn:Hp;
    [|unfold WithIntent, deref in Hrun; by rewrite Hp in Hrun].
  destruct (WithIntent_signal_shape w rnd lp p it req Hp)
    as (w1 & t' & base & cancel1 & Hrun1 & Hsig & Hctxs & _ & Hheap).
  rewrite Hrun1 in Hrun. injection Hrun as -> <- <-.
  destruct (derive_signal (ctxs w) (clock w) (ctx_base p) (ctx_cons p) req
              (signals_ok_Deadline w lp p Hok Hp))
    as (t2 & e & Hsig2 & Hgrow & He & _).
  rewrite Hsig in Hsig2. injection Hsig2 as -> -> ->.
  split; [by rewrite Hctxs|].
  eexists _, e. unfold deref. rewrite Hheap.
  rewrite list_lookup_middle by by rewrite length_insert.
  split; [done|]. split; [done|]. by rewrite Hctxs.
Qed.

Lemma exec_table_grows (fuel : nat) (w w' : World) (o : call) :
  signals_ok w -> exec fuel w o = Ok w' ->
  table_grows (ctxs w) (ctxs w').
Proof.
  intros Hok Hrun.
  assert (forall w0, quiet w w0 -> table_grows (ctxs w) (ctxs w0)) as Hq.
  { intros w0 (-> & _). apply table_grows_refl. }
  destruct o; simpl in Hrun.
  - injection Hrun as <-. apply table_grows_refl.
  - injection Hrun as <-. apply table_grows_refl.
  - destruct (WithIntent w rnd parent intent req) as [[[w1 ch] cl]| |] eqn:E;
      [|done|done].
    injection Hrun as <-. by eapply WithIntent_table_grows.
  - apply Hq. by eapply Fulfill_quiet.
  - apply Hq. by eapply Abort_quiet.
  - apply Hq. unfold SendCancel in Hrun.
    destruct (scope =? ScopeNode); [by eapply Abort_quiet|].
    destruct (scope =? ScopeSubtree); [by eapply abortRecursive_quiet|].
    destruct (scope =? ScopeRoot);
      [|injection Hrun as <-; apply quiet_refl].
    destruct (Root fuel w c); [|done|done].
    by eapply abortRecursive_quiet.
  - apply Hq. unfold SendAdjust in Hrun.
    destruct (scope =? ScopeNode); [by eapply applyAdjust_quiet|].
    destruct (scope =? ScopeSubtree); [by eapply adjustRecursive_quiet|].
    destruct (scope =? ScopeRoot);
      [|injection Hrun as <-; apply quiet_refl].
    destruct (Root fuel w c); [|done|done].
    by eapply adjustRecursive_quiet.
  - injection Hrun as <-. apply table_grows_refl.
  - unfold map_assign in Hrun. destruct m as [r|]; [|done].
    destruct (maps w !! r); [|done]. injection Hrun as <-.
    apply table_grows_refl.
  - injection Hrun as <-. apply cancel_grows.
  - injection Hrun as <-. apply expire_grows.
Qed.

Lemma exec_all_table_grows (fuel : nat) (os : list call) :
  forall (w w' : World),
    signals_ok w -> exec_all fuel w os = Ok w' ->
    table_grows (ctxs w) (ctxs w').
Proof.
  induction os as [|o os IH]; intros w w' Hok Hrun.
  - injection Hrun as <-. apply table_grows_refl.
  - simpl in Hrun.
    destruct (exec fuel w o) as [w1| |] eqn:E; [|done|done].
    simpl in Hrun.
    eapply table_grows_trans; [by eapply exec_table_grows|].
    apply IH; [by eapply exec_signals|done].
Qed.

Lemma cancel_fires (t : list ctxEntry) (i : nat) (e : ctxEntry)
    (x : error_value) :
  t !! i = Some e ->
  context.Done (context.cancel t i x) (derivedCtx i) = true.
Proof.
  intros Hi. unfold context.Done, context.Err, context.cancel.
  unfold context.table in *. rewrite Hi.
  destruct (ce_err e) eqn:He.
  - by rewrite Hi, He.
  - set (e1 := context.set_err e (Some x)).
    assert ((<[i := e1]> t) !! i = Some e1) as H1
      by by apply list_lookup_insert_eq, (lookup_lt_Some _ _ e).
    destruct (cascade_grows _ i e1 H1) as (e2 & He2 & (_ & _ & _ & Hkeep)).
    unfold context.table in *. rewrite He2.
    rewrite Hkeep by done. done.
Qed.

(** X23.  The release handle works at any later time: when a node was
    derived in a state reached from the initial state, then after any
    further calls, calling the handle [WithIntent] returned closes the
    node's [Done()], and changes no node's state, error or completion
    channel. *)
Theorem release_fires_signal (fuel : nat) (before after : list call)
    (w w1 w2 : World) (rnd : list byte) (parent child : ptr)
    (it : Intent) (req : Constraints) (cancel : CancelFunc) :
  exec_all fuel init_world before = Ok w ->
  WithIntent w rnd parent it req = Ok (w1, child, cancel) ->
  exec_all fuel w1 after = Ok w2 ->
  Done (call_cancel w2 cancel) child = Ok true
  /\ heap (call_cancel w2 cancel) = heap w2.
Proof.
  intros Hbefore Hderive Hafter. split; [|done].
  pose proof (exec_all_signals fuel before init_world w signals_ok_init
                Hbefore) as Hok.
  destruct (WithIntent_table_grows w w1 rnd parent it req child cancel
              Hok Hderive) as (_ & n & e & Hd & Hbase & He).
  assert (signals_ok w1) as Hok1 by by eapply WithIntent_signals.
  destruct (exec_all_table_grows fuel after w1 w2 Hok1 Hafter cancel e He)
    as (e2 & He2 & _).
  destruct (deref_evolves w1 w2 child n
              (exec_all_evolves fuel after w1 w2 Hafter) Hd)
    as (n2 & Hd2 & (Hb2 & _)).
  unfold Done.
  assert (deref (call_cancel w2 cancel) child = Ok n2) as ->.
  { destruct child as [l|]; [|done]. exact Hd2. }
  simpl. rewrite Hb2, Hbase. f_equal. by eapply cancel_fires.
Qed.

Lemma release_fires_signal_witness :
  exec_all 0 init_world [CallBackground [x01]] = Ok ex_root
  /\ WithIntent ex_root [x02] (Some 0%nat) (mkIntent "A" None)
                (mkConstraints 0) = Ok (ex_A, Some 1%nat, 0%nat)
  /\ exec_all 0 ex_A
       [CallWithIntent [x03] (Some 1%nat) (mkIntent "B" None)
                       (mkConstraints 0)] = Ok ex_tree
  /\ Done (call_cancel ex_tree 0%nat) (Some 1%nat) = Ok true
  /\ heap (call_cancel ex_tree 0%nat) = heap ex_tree.
Proof.
  assert (exec_all 0 init_world [CallBackground [x01]] = Ok ex_root) as H1
    by (vm_compute; reflexivity).
  assert (WithIntent ex_root [x02] (Some 0%nat) (mkIntent "A" None)
                     (mkConstraints 0) = Ok (ex_A, Some 1%nat, 0%nat)) as H2
    by (vm_compute; reflexivity).
  assert (exec_all 0 ex_A
            [CallWithIntent [x03] (Some 1%nat) (mkIntent "B" None)
                            (mkConstraints 0)] = Ok ex_tree) as H3
    by (vm_compute; reflexivity).
  split; [exact H1|]. split; [exact H2|]. split; [exact H3|].
  exact (release_fires_signal 0 _ _ ex_root ex_A ex_tree [x02] (Some 0%nat)
           (Some 1%nat) (mkIntent "A" None) (mkConstraints 0) 0%nat H1 H2 H3).
Defined.

(** ** The cascade *)

Section Cascade.

Lemma inherit_length (t : list ctxEntry) (j : nat) :
  length (context.inherit t j) = length t.
Proof.
  unfold context.inherit. unfold context.table in *.
  destruct (t !! j) as [e|]; [|done].
  destruct (ce_err e); [done|].
  destruct (context.Err t (ce_parent e)); [|done].
  by rewrite length_insert.
Qed.

Lemma inherit_other (t : list ctxEntry) (j i : nat) :
  j ≠ i -> context.inherit t j !! i = t !! i.
Proof.
  intros Hne. unfold context.inherit. unfold context.table in *.
  destruct (t !! j) as [e|]; [|done].
  destruct (ce_err e); [done|].
  destruct (context.Err t (ce_parent e)); [|done].
  by rewrite list_lookup_insert_ne.
Qed.

(** An entry of a later table of the same length comes from an entry of
    the earlier one. *)
Lemma table_grows_back (t t' : list ctxEntry) (i : nat) (e' : ctxEntry) :
  table_grows t t' -> length t' = length t -> t' !! i = Some e' ->
  exists e, t !! i = Some e /\ entry_same e e'.
Proof.
  unfold table_grows, context.table in *.
  intros Hgrow Hlen Hi'.
  assert (i < length t)%nat as Hlt
    by (rewrite <- Hlen; by eapply lookup_lt_Some).
  destruct (lookup_lt_is_Some_2 _ _ Hlt) as [e He].
  destruct (Hgrow i e He) as (e'' & He'' & Hsame).
  exists e. split; [done|]. congruence.
Qed.

Lemma parents_earlier_grows (t t' : list ctxEntry) :
  table_grows t t' -> length t' = length t ->
  parents_earlier t -> parents_earlier t'.
Proof.
  intros Hgrow Hlen Hpe j e' p Hj Hpar.
  destruct (table_grows_back t t' j e' Hgrow Hlen Hj) as (e & He & (S1 & _)).
  apply (Hpe j e p He). congruence.
Qed.

Lemma inherit_closes (t : list ctxEntry) (k : nat) :
  closed_at (context.inherit t k) k.
Proof.
  intros e p ep x Hk Hpar Hp Hep.
  unfold context.inherit in *. unfold context.table in *.
  destruct (t !! k) as [e0|] eqn:Hk0; [|congruence].
  destruct (ce_err e0) eqn:He0.
  { assert (e = e0) as -> by congruence. by rewrite He0. }
  destruct (context.Err t (ce_parent e0)) as [y|] eqn:Herr.
  - rewrite list_lookup_insert_eq in Hk by by eapply lookup_lt_Some.
    injection Hk as <-. done.
  - assert (e = e0) as -> by congruence.
    unfold context.Err in Herr. rewrite Hpar in Herr.
    unfold context.table in *. rewrite Hp in Herr. congruence.
Qed.

Lemma foldl_inherit_length (js : list nat) :
  forall t : list ctxEntry, length (foldl context.inherit t js) = length t.
Proof.
  induction js as [|j js IH]; intros t; [done|].
  simpl. by rewrite IH, inherit_length.
Qed.

Lemma cascade_prefix_closed (k : nat) (t : list ctxEntry) :
  parents_earlier t ->
  forall j, (j < k)%nat -> closed_at (foldl context.inherit t (seq 0 k)) j.
Proof.
  intros Hpe. induction k as [|k IH]; intros j Hj; [lia|].
  rewrite seq_S, foldl_app. simpl.
  set (tk := foldl context.inherit t (seq 0 k)) in *.
  assert (parents_earlier tk) as Hpek.
  { apply (parents_earlier_grows t tk); [apply foldl_inherit_grows| |done].
    apply foldl_inherit_length. }
  destruct (decide (j = k)) as [->|Hne]; [apply inherit_closes|].
  intros e p ep x Hje Hpar Hp Hep.
  rewrite inherit_other in Hje by done.
  assert (p < j)%nat as Hpj by by eapply Hpek.
  rewrite inherit_other in Hp by lia.
  apply (IH j ltac:(lia) e p ep x); done.
Qed.

Lemma cascade_ok (t : list ctxEntry) :
  parents_earlier t -> table_ok (context.cascade t).
Proof.
  intros Hpe. unfold context.cascade. unfold context.table in *. split.
  - apply (parents_earlier_grows t); [apply foldl_inherit_grows| |done].
    apply foldl_inherit_length.
  - intros j. destruct (decide (j < length t)%nat) as [Hlt|Hge].
    + by apply cascade_prefix_closed.
    + intros e p ep x Hj. apply lookup_lt_Some in Hj.
      rewrite foldl_inherit_length in Hj. lia.
Qed.

Lemma parents_earlier_insert (t : list ctxEntry) (i : nat) (e : ctxEntry)
    (x : error) :
  t !! i = Some e -> parents_earlier t ->
  parents_earlier (<[i := context.set_err e x]> t).
Proof.
  intros Hi Hpe j e' p Hj Hpar.
  destruct (decide (i = j)) as [<-|Hne].
  - rewrite list_lookup_insert_eq in Hj by by eapply lookup_lt_Some.
    injection Hj as <-. by apply (Hpe i e p).
  - rewrite list_lookup_insert_ne in Hj by done. by apply (Hpe j e' p).
Qed.

Lemma cancel_ok (t : list ctxEntry) (i : nat) (x : error_value) :
  table_ok t -> table_ok (context.cancel t i x).
Proof.
  intros [Hpe Hcl]. unfold context.cancel. unfold context.table in *.
  destruct (t !! i) as [e|] eqn:Hi; [|done].
  destruct (ce_err e); [done|].
  apply cascade_ok. by apply parents_earlier_insert.
Qed.

Lemma expire_ok (t : list ctxEntry) (now : time.Time) :
  table_ok t -> table_ok (context.expire t now).
Proof.
  intros [Hpe _]. apply cascade_ok.
  intros j e' p Hj Hpar.
  assert (j < length t)%nat as Hlt.
  { apply lookup_lt_Some in Hj. by rewrite length_map in Hj. }
  destruct (lookup_lt_is_Some_2 _ _ Hlt) as [e He].
  rewrite (lookup_map_entry _ t j e He) in Hj. injection Hj as <-.
  apply (Hpe j e p He).
  destruct (expire_entry_same now e) as (S1 & _). congruence.
Qed.

(** Appending a context derived from [parent], born with the parent's
    error. *)
Lemma append_ok (t : list ctxEntry) (parent : Context_)
    (dl : option time.Time) (tm : bool) :
  table_ok t ->
  (forall p, parent = derivedCtx p -> (p < length t)%nat) ->
  table_ok (t ++ [mkCtxEntry parent dl tm (context.Err t parent)]).
Proof.
  intros [Hpe Hcl] Hvalid. split.
  - intros j e p Hj Hpar.
    destruct (decide (j < length t)%nat) as [Hlt|Hge].
    + rewrite lookup_app_l in Hj by done. by apply (Hpe j e p).
    + rewrite lookup_app_r in Hj by lia.
      destruct (j - length t)%nat eqn:E; [|done].
      simpl in Hj. injection Hj as <-. simpl in Hpar.
      specialize (Hvalid p Hpar). lia.
  - intros j e p ep x Hj Hpar Hp Hep.
    destruct (decide (j < length t)%nat) as [Hlt|Hge].
    + rewrite lookup_app_l in Hj by done.
      assert (p < j)%nat as Hpj by by apply (Hpe j e p).
      rewrite lookup_app_l in Hp by lia.
      by apply (Hcl j e p ep x).
    + rewrite lookup_app_r in Hj by lia.
      destruct (j - length t)%nat eqn:E; [|done].
      simpl in Hj. injection Hj as <-. simpl in *.
      specialize (Hvalid p Hpar).
      rewrite lookup_app_l in Hp by done.
      unfold context.Err. rewrite Hpar.
      unfold context.table in *. rewrite Hp. congruence.
Qed.

Lemma derive_ok (t : list ctxEntry) (now : time.Time) (parent : Context_)
    (d : time.Time) :
  table_ok t ->
  (forall p, parent = derivedCtx p -> (p < length t)%nat) ->
  table_ok (fst (fst (if time.IsZero d then context.WithCancel t parent
                      else context.WithDeadline t now parent d))).
Proof.
  intros Hok Hvalid.
  destruct (time.IsZero d).
  - simpl. by apply append_ok.
  - unfold context.WithDeadline.
    assert (table_ok
              (if d <=? now
               then context.cancel
                      (t ++ [mkCtxEntry parent (Some d) true
                                        (context.Err t parent)])
                      (length t) DeadlineExceeded
               else t ++ [mkCtxEntry parent (Some d) true
                                     (context.Err t parent)])) as Htimer.
    { destruct (d <=? now); [apply cancel_ok|]; by apply append_ok. }
    destruct (context.Deadline t parent) as [cur|]; [|done].
    destruct (time.Before cur d); [|done].
    simpl. by apply append_ok.
Qed.

End Cascade.

Lemma signals_ok_base_valid (w : World) (l : nat) (n : Ctx) (i : nat) :
  signals_ok w -> heap w !! l = Some n -> ctx_base n = derivedCtx i ->
  (i < length (ctxs w))%nat.
Proof.
  intros Hok Hl Hb. specialize (Hok l n Hl). rewrite Hb in Hok.
  destruct Hok as (e & He & _). by eapply lookup_lt_Some.
Qed.

Lemma WithIntent_table_ok (w w' : World) (rnd : list byte) (parent : ptr)
    (it : Intent) (req : Constraints) (child : ptr) (cancel : CancelFunc) :
  signals_ok w -> table_ok (ctxs w) ->
  WithIntent w rnd parent it req = Ok (w', child, cancel) ->
  table_ok (ctxs w')
  /\ exists p p' n e,
       deref w parent = Ok p
       /\ deref w' parent = Ok p' /\ ctx_base p' = ctx_base p
       /\ deref w' child = Ok n /\ ctx_base n = derivedCtx cancel
       /\ ctxs w' !! cancel = Some e /\ ce_parent e = ctx_base p.
Proof.
  intros Hok Htab Hrun.
  destruct parent as [lp|]; [|done].
  destruct (heap w !! lp) as [p|] eqn:Hp;
    [|unfold WithIntent, deref in Hrun; by rewrite Hp in Hrun].
  destruct (WithIntent_signal_shape w rnd lp p it req Hp)
    as (w1 & t' & base & cancel1 & Hrun1 & Hsig & Hctxs & _ & Hheap).
  rewrite Hrun1 in Hrun. injection Hrun as -> <- <-.
  assert (lp < length (heap w))%nat as Hlt by by eapply lookup_lt_Some.
  split.
  - rewrite Hctxs.
    pose proof (derive_ok (ctxs w) (clock w) (ctx_base p)
                  (Deadline (clampChild (ctx_cons p) req)) Htab) as Hd.
    rewrite Hsig in Hd. apply Hd.
    intros i Hi. by apply (signals_ok_base_valid w lp p i).
  - destruct (derive_signal (ctxs w) (clock w) (ctx_base p) (ctx_cons p) req
                (signals_ok_Deadline w lp p Hok Hp))
      as (t2 & e & Hsig2 & Hgrow & He & Hpar & _).
    rewrite Hsig in Hsig2. injection Hsig2 as -> -> ->.
    exists p, (set_children p (ctx_children p ++ [newID rnd])).
    eexists _, e. unfold deref. rewrite Hheap, Hp.
    rewrite (lookup_app_l _ _ lp) by by rewrite length_insert.
    rewrite list_lookup_insert_eq by done.
    rewrite list_lookup_middle by by rewrite length_insert.
    rewrite Hctxs. by repeat split.
Qed.

Lemma exec_table_ok (fuel : nat) (w w' : World) (o : call) :
  signals_ok w -> table_ok (ctxs w) -> exec fuel w o = Ok w' ->
  table_ok (ctxs w').
Proof.
  intros Hok Htab Hrun.
  assert (forall w0, quiet w w0 -> table_ok (ctxs w0)) as Hq
    by by intros w0 (-> & _).
  destruct o; simpl in Hrun.
  - by injection Hrun as <-.
  - by injection Hrun as <-.
  - destruct (WithIntent w rnd parent intent req) as [[[w1 ch] cl]| |] eqn:E;
      [|done|done].
    injection Hrun as <-. by eapply WithIntent_table_ok.
  - apply Hq. by eapply Fulfill_quiet.
  - apply Hq. by eapply Abort_quiet.
  - apply Hq. unfold SendCancel in Hrun.
    destruct (scope =? ScopeNode); [by eapply Abort_quiet|].
    destruct (scope =? ScopeSubtree); [by eapply abortRecursive_quiet|].
    destruct (scope =? ScopeRoot);
      [|injection Hrun as <-; apply quiet_refl].
    destruct (Root fuel w c); [|done|done].
    by eapply abortRecursive_quiet.
  - apply Hq. unfold SendAdjust in Hrun.
    destruct (scope =? ScopeNode); [by eapply applyAdjust_quiet|].
    destruct (scope =? ScopeSubtree); [by eapply adjustRecursive_quiet|].
    destruct (scope =? ScopeRoot);
      [|injection Hrun as <-; apply quiet_refl].
    destruct (Root fuel w c); [|done|done].
    by eapply adjustRecursive_quiet.
  - by injection Hrun as <-.
  - unfold map_assign in Hrun. destruct m as [r|]; [|done].
    destruct (maps w !! r); [|done]. by injection Hrun as <-.
  - injection Hrun as <-. by apply cancel_ok.
  - injection Hrun as <-. by apply expire_ok.
Qed.

Lemma exec_all_table_ok (fuel : nat) (os : list call) :
  forall (w w' : World),
    signals_ok w -> table_ok (ctxs w) -> exec_all fuel w os = Ok w' ->
    table_ok (ctxs w').
Proof.
  induction os as [|o os IH]; intros w w' Hok Htab Hrun.
  - by injection Hrun as <-.
  - simpl in Hrun.
    destruct (exec fuel w o) as [w1| |] eqn:E; [|done|done].
    simpl in Hrun. apply (IH w1 w'); [| |done].
    + by eapply exec_signals.
    + by eapply exec_table_ok.
Qed.

Lemma table_ok_init : table_ok (ctxs init_world).
Proof. split; [by intros j e p Hj|by intros j e p ep x Hj]. Qed.

(** X24.  Cancellation of the underlying signal cascades from a node to
    the children derived from it: when a child was derived from a node
    in a state reached from the initial state, then in any later state
    in which the node's [Done()] is closed (by its release handle, its
    deadline, or the cascade from above) the child's [Done()] is closed
    as well. *)
Theorem signal_cascades (fuel : nat) (before after : list call)
    (w w1 w2 : World) (rnd : list byte) (parent child : ptr)
    (it : Intent) (req : Constraints) (cancel : CancelFunc) :
  exec_all fuel init_world before = Ok w ->
  WithIntent w rnd parent it req = Ok (w1, child, cancel) ->
  exec_all fuel w1 after = Ok w2 ->
  Done w2 parent = Ok true ->
  Done w2 child = Ok true.
Proof.
  intros Hbefore Hderive Hafter Hfired.
  pose proof (exec_all_signals fuel before init_world w signals_ok_init
                Hbefore) as Hok.
  pose proof (exec_all_table_ok fuel before init_world w signals_ok_init
                table_ok_init Hbefore) as Htab.
  destruct (WithIntent_table_ok w w1 rnd parent it req child cancel
              Hok Htab Hderive)
    as (Htab1 & p & p1 & n & e & Hdp & Hdp1 & Hbp & Hdn & Hbn & He & Hpar).
  assert (signals_ok w1) as Hok1 by by eapply WithIntent_signals.
  pose proof (exec_all_table_ok fuel after w1 w2 Hok1 Htab1 Hafter)
    as [_ Hclosed].
  destruct (exec_all_table_grows fuel after w1 w2 Hok1 Hafter cancel e He)
    as (e2 & He2 & (Hpar2 & _)).
  pose proof (exec_all_evolves fuel after w1 w2 Hafter) as Hev.
  destruct (deref_evolves w1 w2 parent p1 Hev Hdp1) as (p2 & Hdp2 & (Hb2 & _)).
  destruct (deref_evolves w1 w2 child n Hev Hdn) as (n2 & Hdn2 & (Hbn2 & _)).
  unfold Done in *. rewrite Hdp2 in Hfired. rewrite Hdn2. simpl in *.
  injection Hfired as Hfired. f_equal.
  rewrite Hb2, Hbp in Hfired. rewrite Hbn2, Hbn.
  unfold context.Done, context.Err in *. unfold context.table in *.
  rewrite He2.
  destruct (ctx_base p) as [| |ip] eqn:Hbase; try done.
  match type of Hfired with
  | context [match ?o with Some _ => _ | None => None end] =>
      destruct o as [ep|] eqn:Hep; [|done]
  end.
  destruct (ce_err ep) as [x|] eqn:Hx; [|done].
  pose proof (Hclosed cancel e2 ip ep x He2 ltac:(congruence) Hep Hx) as Hne.
  by destruct (ce_err e2).
Qed.

Lemma signal_cascades_witness :
  exec_all 0 init_world
    [CallBackground [x01];
     CallWithIntent [x02] (Some 0%nat) (mkIntent "A" None) (mkConstraints 0)]
  = Ok ex_A
  /\ WithIntent ex_A [x03] (Some 1%nat) (mkIntent "B" None)
                (mkConstraints 0) = Ok (ex_tree, Some 2%nat, 1%nat)
  /\ exec_all 0 ex_tree [CallRelease 0%nat] = Ok ex_released
  /\ Done ex_released (Some 1%nat) = Ok true
  /\ Done ex_released (Some 2%nat) = Ok true.
Proof.
  assert (exec_all 0 init_world
            [CallBackground [x01];
             CallWithIntent [x02] (Some 0%nat) (mkIntent "A" None)
                            (mkConstraints 0)] = Ok ex_A) as H1
    by (vm_compute; reflexivity).
  assert (WithIntent ex_A [x03] (Some 1%nat) (mkIntent "B" None)
                     (mkConstraints 0) = Ok (ex_tree, Some 2%nat, 1%nat))
    as H2 by (vm_compute; reflexivity).
  assert (exec_all 0 ex_tree [CallRelease 0%nat] = Ok ex_released) as H3
    by (vm_compute; reflexivity).
  assert (Done ex_released (Some 1%nat) = Ok true) as H4
    by (vm_compute; reflexivity).
  split; [exact H1|]. split; [exact H2|]. split; [exact H3|].
  split; [exact H4|].
  exact (signal_cascades 0 _ _ ex_A ex_tree ex_released [x03] (Some 1%nat)
           (Some 2%nat) (mkIntent "B" None) (mkConstraints 0) 1%nat
           H1 H2 H3 H4).
Defined.

(** ** Scoped adjust on any tree *)

Section SubtreeAdjust.

Variables (key : string) (v : any).

Lemma set_intent_id (n : Ctx) : set_intent n (ctx_intent n) = n.
Proof. by destruct n. Qed.

Lemma adjusted_by_nil (w : World) :
  maps_valid w -> adjusted_by key v [] w w.
Proof.
  intros Hv. split; [done|]. split; [done|]. split; [done|]. split; [done|].
  split; [|split].
  - intros l n Hl. exists (ctx_intent n). by rewrite set_intent_id.
  - intros r g Hr. by exists g.
  - intros l Hl. by apply elem_of_nil in Hl.
Qed.

Lemma adjusted_by_lineage (visited : list nat) (w w' : World) :
  adjusted_by key v visited w w' -> lineage_eq w w'.
Proof.
  intros (Hr & _ & _ & Hlen & Hnodes & _).
  split; [done|]. split; [done|].
  intros l n Hl. destruct (Hnodes l n Hl) as (i' & Hl' & _).
  eexists. split; [exact Hl'|]. done.
Qed.

Lemma adjusted_by_app (v1 v2 : list nat) (w1 w2 w3 : World) :
  adjusted_by key v v1 w1 w2 -> adjusted_by key v v2 w2 w3 ->
  adjusted_by key v (v1 ++ v2) w1 w3.
Proof.
  intros (R12 & V2 & M12 & L12 & N12 & G12 & P12)
         (R23 & V3 & M23 & L23 & N23 & G23 & P23).
  split; [congruence|]. split; [done|]. split; [lia|].
  split; [congruence|]. split; [|split].
  - intros l n Hl.
    destruct (N12 l n Hl) as (i2 & Hl2 & E2 & F2).
    destruct (N23 l _ Hl2) as (i3 & Hl3 & E3 & F3).
    simpl in *. exists i3. split; [by rewrite Hl3; destruct n|].
    split; [congruence|].
    intros Hne. rewrite F3; [by apply F2|]. by rewrite F2.
  - intros r g Hr.
    destruct (G12 r g Hr) as (g2 & Hr2 & K2).
    destruct (G23 r g2 Hr2) as (g3 & Hr3 & K3).
    exists g3. split; [done|]. intros Hk. by apply K3, K2.
  - intros l [Hin|Hin]%elem_of_app Hlt.
    + specialize (P12 l Hin Hlt).
      unfold param_at, Ctx_Intent, deref in *.
      destruct (lookup_lt_is_Some_2 _ _ Hlt) as [n Hl].
      destruct (N12 l n Hl) as (i2 & Hl2 & E2 & F2).
      destruct (N23 l _ Hl2) as (i3 & Hl3 & E3 & F3).
      rewrite Hl2 in P12. rewrite Hl3. simpl in *.
      injection P12 as P12. f_equal.
      unfold map_index in *.
      destruct (Params i2) as [r|] eqn:Hp2; [|done].
      rewrite F3 by done.
      destruct (maps w2 !! r) as [g2|] eqn:Hg2; [|done].
      destruct (G23 r g2 Hg2) as (g3 & -> & K3). by apply K3.
    + apply P23; [done|]. by rewrite L12.
Qed.

(** The visit of one node. *)
Lemma visit_adjusted (w : World) (l : nat) (n : Ctx) :
  maps_valid w -> heap w !! l = Some n ->
  exists w1,
    applyAdjust w (Some l) (fun p => <[key := v]> p) = Ok w1
    /\ adjusted_by key v [l] w w1.
Proof.
  intros Hv Hl.
  pose proof (maps_valid_lookup w l n Hv Hl) as Hvl.
  destruct (applyAdjust_shape w l n (fun p => <[key := v]> p) Hl Hvl)
    as (w1 & ra & g & Hrun & Hh & Hr & Hra & Hlt & Hle & Hm & Hfr).
  assert (l < length (heap w))%nat as Hll by by eapply lookup_lt_Some.
  exists w1. split; [done|].
  split; [done|]. split; [|split; [done|split; [|split; [|split]]]].
  - unfold maps_valid in *. rewrite Forall_lookup in Hv.
    apply Forall_lookup. intros l' n' Hl'. rewrite Hh in Hl'.
    destruct (decide (l = l')) as [<-|Hne].
    + rewrite list_lookup_insert_eq in Hl' by done. by injection Hl' as <-.
    + rewrite list_lookup_insert_ne in Hl' by done.
      specialize (Hv l' n' Hl'). unfold mapref_valid in *.
      destruct (Params (ctx_intent n')); [lia|done].
  - by rewrite Hh, length_insert.
  - intros l' n' Hl'. rewrite Hh.
    destruct (decide (l = l')) as [<-|Hne].
    + rewrite list_lookup_insert_eq by done.
      assert (n' = n) as -> by congruence.
      eexists. split; [done|]. split; [done|]. simpl.
      intros Hne. destruct Hra as [->|[? _]]; done.
    + rewrite list_lookup_insert_ne by done.
      exists (ctx_intent n'). by rewrite set_intent_id.
  - intros r g0 Hr0.
    destruct (decide (r = ra)) as [->|Hne].
    + eexists. split; [exact Hm|]. intros _. by rewrite lookup_insert_eq.
    + exists g0. split; [|done].
      rewrite Hfr; [done|done|by eapply lookup_lt_Some].
  - intros l' ->%list_elem_of_singleton _.
    unfold param_at, Ctx_Intent, deref. rewrite Hh.
    rewrite list_lookup_insert_eq by done. simpl.
    rewrite Hm. by rewrite lookup_insert_eq.
Qed.

Lemma adjustRecursive_step (k : nat) (w w1 : World) (l : nat) (n : Ctx)
    (fn : AdjustFn) :
  heap w !! l = Some n ->
  applyAdjust w (Some l) fn = Ok w1 ->
  lineage_eq w w1 ->
  adjustRecursive (S k) w (Some l) fn
  = foldl (adjust_children fn k) (Ok w1) (Some <$> childaddrs w n).
Proof.
  intros Hl Hvisit (Hr & _ & Hfw).
  simpl. rewrite Hvisit. simpl.
  destruct (Hfw l n Hl) as (n1 & Hl1 & _ & _ & Hch).
  rewrite (Children_childaddrs w1 l n1 Hl1). simpl.
  by rewrite (childaddrs_lineage_eq w w1 n n1 Hr Hch).
Qed.

Lemma adjustRecursive_spec (k : nat) :
  forall (w : World) (l : nat) (n : Ctx),
    lineage_ok w -> maps_valid w ->
    heap w !! l = Some n ->
    (length (heap w) <= k + l)%nat ->
    exists w',
      adjustRecursive k w (Some l) (fun p => <[key := v]> p) = Ok w'
      /\ adjusted_by key v (subtree k w l) w w'.
Proof.
  induction k as [|k IH]; intros w l n Hok Hv Hl Hfuel.
  { apply lookup_lt_Some in Hl. lia. }
  destruct (visit_adjusted w l n Hv Hl) as (w1 & Hvisit & Hadj1).
  pose proof (adjusted_by_lineage _ _ _ Hadj1) as Heq1.
  rewrite (adjustRecursive_step k w w1 l n _ Hl Hvisit Heq1).
  assert (forall lc, lc ∈ childaddrs w n ->
            (length (heap w) <= k + lc)%nat /\ is_Some (heap w !! lc))
    as Hchildren.
  { intros lc Hlc.
    destruct (childaddrs_later w l lc n Hok Hl Hlc) as [Hlt Hvc].
    split; [lia|done]. }
  assert (exists w',
            foldl (adjust_children (fun p => <[key := v]> p) k) (Ok w1)
                  (Some <$> childaddrs w n) = Ok w'
            /\ adjusted_by key v (flat_map (subtree k w) (childaddrs w n))
                           w1 w') as (w' & Hrun & Hadj).
  { clear Hvisit Hl Hfuel.
    assert (lineage_ok w1) as Hok1 by by eapply lineage_ok_eq.
    assert (maps_valid w1) as Hv1 by by destruct Hadj1 as (_ & ? & _).
    clear Hadj1. revert w1 Heq1 Hok1 Hv1.
    induction (childaddrs w n) as [|lc las IHl]; intros wi Heqi Hoki Hvi.
    - exists wi. split; [done|]. by apply adjusted_by_nil.
    - destruct (Hchildren lc) as [Hfuel_c [nc Hnc]]; [by left|].
      pose proof Heqi as (_ & Hleni & Hfwi).
      destruct (Hfwi lc nc Hnc) as (nci & Hnci & _).
      destruct (IH wi lc nci Hoki Hvi Hnci ltac:(lia)) as (w2 & Hrun2 & Hadj2).
      rewrite (subtree_lineage_eq k w wi Heqi) in Hadj2.
      pose proof (adjusted_by_lineage _ _ _ Hadj2) as Heq2.
      destruct (IHl (fun x Hx => Hchildren x (list_elem_of_further _ _ _ Hx))
                    w2)
        as (w' & Hrun' & Hadj').
      + by eapply lineage_eq_trans.
      + by eapply lineage_ok_eq.
      + by destruct Hadj2 as (_ & ? & _).
      + exists w'. split.
        * rewrite fmap_cons. cbn [foldl]. unfold adjust_children at 2.
          simpl. by rewrite Hrun2.
        * cbn [flat_map]. by eapply adjusted_by_app. }
  exists w'. split; [done|].
  cbn [subtree]. rewrite Hl.
  exact (adjusted_by_app [l] _ w w1 w' Hadj1 Hadj).
Qed.

End SubtreeAdjust.

Lemma descendant_valid (w : World) (l l' : nat) :
  lineage_ok w -> descendant w l l' ->
  (l < length (heap w))%nat -> (l' < length (heap w))%nat.
Proof.
  intros Hok. induction 1 as [l|l lc l' n Hl Hlc Hdesc IH]; [done|].
  intros _. apply IH.
  destruct (childaddrs_later w l lc n Hok Hl Hlc) as [_ [nc Hnc]].
  by eapply lookup_lt_Some.
Qed.

(** X25.  Subtree adjust on any tree.  In a state with lineage integrity
    whose nodes refer to existing maps,
    [c.SendAdjust(ScopeSubtree, func(p) { p[k] = v })] returns without a
    panic once the recursion budget covers the nodes created after [c];
    afterwards [c] and every descendant of [c] read [Params[k] == v],
    and no node's state, error, completion channel, id or child list
    has changed. *)
Theorem SendAdjust_subtree_any_tree (fuel : nat) (w : World) (l : nat)
    (n : Ctx) (key : string) (v : any) :
  lineage_ok w ->
  maps_valid w ->
  heap w !! l = Some n ->
  (length (heap w) <= fuel + l)%nat ->
  exists w',
    SendAdjust fuel w (Some l) ScopeSubtree (fun p => <[key := v]> p) = Ok w'
    /\ (forall l', descendant w l l' ->
          param_at w' (Some l') key = Ok (Some v))
    /\ (forall l' n', heap w !! l' = Some n' ->
          State w' (Some l') = Ok (ctx_state n')
          /\ ErrState w' (Some l') = Ok (ctx_err n')
          /\ DoneChan w' (Some l') = Ok (ctx_doneCh n')
          /\ ID w' (Some l') = Ok (ctx_id n')
          /\ Children w' (Some l') = Children w (Some l')).
Proof.
  intros Hok Hv Hl Hfuel.
  assert (l < length (heap w))%nat as Hlt by by eapply lookup_lt_Some.
  destruct (adjustRecursive_spec key v fuel w l n Hok Hv Hl Hfuel)
    as (w' & Hrun & Hadj).
  exists w'. split; [by rewrite SendAdjust_subtree|].
  pose proof Hadj as (Hr & _ & _ & _ & Hnodes & _ & Hread).
  split.
  - intros l' Hd. apply Hread.
    + by apply descendant_in_subtree.
    + by eapply descendant_valid.
  - intros l' n' Hl'. destruct (Hnodes l' n' Hl') as (i' & Hl'' & _).
    unfold State, ErrState, DoneChan, ID, Children, deref, get.
    rewrite Hl'', Hl', Hr. done.
Qed.

Lemma SendAdjust_subtree_any_tree_witness :
  lineage_ok ex_tree
  /\ maps_valid ex_tree
  /\ heap ex_tree !! 1%nat = Some ex_tree_A
  /\ (length (heap ex_tree) <= 2 + 1)%nat
  /\ exists w',
       SendAdjust 2 ex_tree (Some 1%nat) ScopeSubtree
                  (fun p => <["k" := AnyString "v"]> p) = Ok w'
       /\ param_at w' (Some 2%nat) "k" = Ok (Some (AnyString "v")).
Proof.
  assert (maps_valid ex_tree) as Hv
    by (apply maps_valid_check; vm_compute; reflexivity).
  assert (heap ex_tree !! 1%nat = Some ex_tree_A) as Hl
    by (vm_compute; reflexivity).
  assert (length (heap ex_tree) <= 2 + 1)%nat as Hfuel
    by (vm_compute; lia).
  split; [exact lineage_ok_ex_tree|]. split; [exact Hv|].
  split; [exact Hl|]. split; [exact Hfuel|].
  destruct (SendAdjust_subtree_any_tree 2 ex_tree 1 ex_tree_A "k"
              (AnyString "v") lineage_ok_ex_tree Hv Hl Hfuel)
    as (w' & Hrun & Hread & _).
  exists w'. split; [exact Hrun|].
  exact (Hread 2%nat descendant_ex_tree_A_B).
Defined.

(** X26.  Cancelling a subtree a second time changes nothing: after
    [c.SendCancel(ScopeSubtree, r1)], a further
    [c.SendCancel(ScopeSubtree, r2)] returns with the process state
    exactly as the first call left it, so the first reason stays. *)
Theorem SendCancel_subtree_twice (fuel : nat) (w : World) (l : nat)
    (n : Ctx) (r1 r2 : error) :
  lineage_ok w ->
  consistent w ->
  heap w !! l = Some n ->
  (length (heap w) <= fuel + l)%nat ->
  exists w',
    SendCancel fuel w (Some l) ScopeSubtree r1 = Ok w'
    /\ SendCancel fuel w' (Some l) ScopeSubtree r2 = Ok w'.
Proof.
  intros Hok Hc Hl Hfuel.
  destruct (abortRecursive_spec r1 fuel w l n Hok Hc Hl Hfuel)
    as (w' & Hrun & Hcan).
  exists w'. rewrite !SendCancel_subtree. split; [done|].
  pose proof (cancelled_by_lineage r1 _ _ _ Hcan) as Heq.
  pose proof Hcan as (E & Hlen & Hnodes).
  assert (lineage_ok w') as Hok' by by eapply lineage_ok_eq.
  assert (consistent w') as Hc' by by eapply cancelled_by_consistent.
  pose proof (Hnodes l n Hl) as Hl'.
  destruct (abortRecursive_spec r2 fuel w' l _ Hok' Hc' Hl'
              ltac:(rewrite Hlen; lia)) as (w2 & Hrun2 & Hcan2).
  rewrite Hrun2. f_equal.
  rewrite (subtree_lineage_eq fuel w w' Heq) in Hcan2.
  destruct Hcan2 as (E2 & Hlen2 & Hnodes2).
  rewrite E2. destruct w' as [h' r' m' c' k']. unfold set_heap. simpl in *.
  f_equal. apply list_eq. intros i.
  destruct (h' !! i) as [n'|] eqn:Hi.
  - rewrite (Hnodes2 i n' Hi). f_equal.
    rewrite decide_False; [done|]. intros [Hin Hact].
    assert (i < length (heap w))%nat as Hlt
      by (rewrite <- Hlen; by eapply lookup_lt_Some).
    destruct (lookup_lt_is_Some_2 _ _ Hlt) as [n0 Hn0].
    rewrite (Hnodes i n0 Hn0) in Hi. injection Hi as <-.
    destruct (decide (i ∈ subtree fuel w l /\ ctx_state n0 = "active"))
      as [[_ _]|Hno]; [done|]. by apply Hno.
  - apply lookup_ge_None. rewrite Hlen2. by apply lookup_ge_None.
Qed.

Lemma SendCancel_subtree_twice_witness :
  lineage_ok ex_tree
  /\ consistent ex_tree
  /\ heap ex_tree !! 1%nat = Some ex_tree_A
  /\ (length (heap ex_tree) <= 2 + 1)%nat
  /\ exists w',
       SendCancel 2 ex_tree (Some 1%nat) ScopeSubtree (Some boom) = Ok w'
       /\ SendCancel 2 w' (Some 1%nat) ScopeSubtree (Some Canceled) = Ok w'.
Proof.
  assert (heap ex_tree !! 1%nat = Some ex_tree_A) as Hl
    by (vm_compute; reflexivity).
  assert (length (heap ex_tree) <= 2 + 1)%nat as Hfuel
    by (vm_compute; lia).
  split; [exact lineage_ok_ex_tree|]. split; [exact consistent_ex_tree|].
  split; [exact Hl|]. split; [exact Hfuel|].
  exact (SendCancel_subtree_twice 2 ex_tree 1 ex_tree_A (Some boom)
           (Some Canceled) lineage_ok_ex_tree consistent_ex_tree Hl Hfuel).
Defined.

(** X27.  A decided [WaitAll] stays decided: if, while the caller's
    signal has not fired, [WaitAll] returns (a node's error, or nil) in
    a consistent state, then after any further calls it returns the same
    value for the same nodes, as long as the caller's signal has still
    not fired. *)
Theorem WaitAll_stable (pick : nat -> bool) (fuel : nat) (os : list call)
    (w w' : World) (ctx : Context_) (nodes : list ptr) (e : error) :
  consistent w ->
  context.Done (ctxs w) ctx = false ->
  context.Done (ctxs w') ctx = false ->
  WaitAll pick w ctx nodes = Ok (Returned e) ->
  exec_all fuel w os = Ok w' ->
  WaitAll pick w' ctx nodes = Ok (Returned e).
Proof.
  intros Hc Hctx Hctx' Hwait Hrun.
  pose proof (exec_all_evolves fuel os w w' Hrun) as Hev.
  induction nodes as [|c rest IH]; [done|].
  simpl in *. rewrite Hctx in Hwait. rewrite Hctx'.
  unfold DoneChan, ErrState in *.
  destruct (deref w c) as [n| |] eqn:Hd; [|done|done]. simpl in Hwait.
  destruct (deref_evolves w w' c n Hev Hd)
    as (n' & Hd' & (_ & _ & _ & _ & _ & _ & _ & Hfin)).
  rewrite Hd'. simpl.
  destruct (ctx_doneCh n) eqn:Hch; [done|]. simpl in Hwait.
  assert (ctx_state n ≠ "active") as Hterm.
  { destruct c as [l|]; [|done]. unfold deref in Hd.
    destruct (heap w !! l) as [n0|] eqn:Hl; [|done]. injection Hd as ->.
    unfold consistent in Hc. rewrite Forall_lookup in Hc.
    destruct (Hc l n Hl) as [[Hopen _] _].
    intros Hact. specialize (Hopen Hact). congruence. }
  destruct (Hfin Hterm) as (_ & -> & ->). simpl.
  destruct (ctx_err n); [done|]. by apply IH.
Qed.

Lemma WaitAll_stable_witness :
  consistent ex_finished
  /\ context.Done (ctxs ex_finished) backgroundCtx = false
  /\ context.Done (ctxs ex_late) backgroundCtx = false
  /\ WaitAll (fun _ => false) ex_finished backgroundCtx
       [Some 2%nat; Some 1%nat; Some 0%nat] = Ok (Returned (Some boom))
  /\ exec_all 4 ex_finished ex_late_calls = Ok ex_late
  /\ WaitAll (fun _ => false) ex_late backgroundCtx
       [Some 2%nat; Some 1%nat; Some 0%nat] = Ok (Returned (Some boom)).
Proof.
  assert (consistent ex_finished) as Hc
    by (apply consistent_check; vm_compute; reflexivity).
  assert (WaitAll (fun _ => false) ex_finished backgroundCtx
            [Some 2%nat; Some 1%nat; Some 0%nat]
          = Ok (Returned (Some boom))) as Hw by (vm_compute; reflexivity).
  assert (exec_all 4 ex_finished ex_late_calls = Ok ex_late) as Hrun
    by (vm_compute; reflexivity).
  split; [exact Hc|]. split; [reflexivity|]. split; [reflexivity|].
  split; [exact Hw|]. split; [exact Hrun|].
  exact (WaitAll_stable (fun _ => false) 4 ex_late_calls ex_finished ex_late
           backgroundCtx _ _ Hc eq_refl eq_refl Hw Hrun).
Defined.

Lemma fromPolScope_valid_witness :
  policyEnforcer_Cancel 2 1 0 ex_tree (mkPolicyEnforcer (Some 1%nat)) 9
                        (Some boom)
  = Abort ex_tree (Some 1%nat) (Some boom).
Proof.
  apply (proj2 (fromPolScope_valid 2 1 9)); lia.
Defined.
